(** * Pintos synchronisation layer (threads/synch.c): semaphores, locks with
    priority donation, and Mesa-style condition variables.

    The C code is embedded shallowly.  Kernel memory is a record of typed
    stores (thread structs, locks, condition variables, semaphores); pointers
    are indices into these stores, and [NULL] is [None] wherever the code
    tests for it.  Every function of synch.c is a computation in a state and
    error monad over that record.  One call of a modelled function is one
    atomic section of the C code (the code between [intr_disable] and
    [intr_set_level], or between two points where the thread can be
    suspended); a blocking function is split at [thread_block] into the call
    itself and its resumption.  An argument of pointer type is an index and
    is never [NULL], so the assertions [ASSERT (x != NULL)] on arguments have
    no counterpart. *)

From Stdlib Require Import ZArith List Bool Lia Permutation Sorted Arith.
Import ListNotations.
Open Scope Z_scope.

(** ** Identifiers and machine integers *)

Definition tid := nat.       (* struct thread *  *)
Definition lock_id := nat.   (* struct lock *    *)
Definition cond_id := nat.   (* struct condition * *)

(** [unsigned] arithmetic of a 32-bit target: results are reduced modulo 2^32. *)
Definition UINT_MODULUS : Z := 2 ^ 32.
Definition wrap32 (z : Z) : Z := z mod UINT_MODULUS.

(** ** Data model *)

(** A thread is blocked or not; which of the threads that are not blocked is
    running is [cur] below. *)
Inductive thread_status := THREAD_READY | THREAD_BLOCKED.

(** The fields of [struct thread] that synch.c reads and writes.  The list
    elements [elem] and [donation_elem] are the memberships of the thread in a
    waiter list and in a donation list; a list of threads is a list of thread
    pointers. *)
Record thread := mkThread {
  priority : Z;                     (* effective priority *)
  original_priority : Z;            (* base priority *)
  donations : list tid;             (* threads donating to this thread *)
  waiting_lock : option lock_id;    (* lock this thread is blocked on *)
  status : thread_status
}.

Record semaphore := mkSema {
  value : Z;                        (* unsigned value *)
  waiters : list tid                (* struct list waiters *)
}.

Record lock := mkLock {
  holder : option tid;              (* struct thread *holder *)
  semaphore_of : semaphore          (* struct semaphore semaphore *)
}.

(** A condition variable is a list of [struct semaphore_elem].  Each element
    is the local variable [waiter] of one activation of [cond_wait]; a thread
    has at most one such activation, so the element is named by the thread
    whose stack holds it. *)
Record condition := mkCond {
  cond_waiters : list tid
}.

(** Calls made to the scheduler (threads/thread.c), in program order. *)
Inductive sched_event :=
| EvBlock (t : tid)
| EvUnblock (t : tid)
| EvYield (t : tid).

Record kernel := mkKernel {
  threads : tid -> thread;
  semas : nat -> semaphore;         (* free-standing semaphores *)
  locks : lock_id -> lock;
  conds : cond_id -> condition;
  waiter_frames : tid -> semaphore; (* waiter.semaphore of t's cond_wait *)
  cur : tid;                        (* thread_current () *)
  in_intr : bool;                   (* intr_context () *)
  sched : list sched_event;
  stray : nat -> tid -> Z;          (* memory beside the list heads, see below *)
  clock : nat                       (* atomic sections run so far *)
}.

(** The memory beside a list head.  [list_entry (e, struct thread, elem)] of
    the tail sentinel of a waiter list is an address next to the list head,
    inside the [semaphore_elem] that holds the semaphore or beside it on the
    stack, and not a thread struct.  A read of [->priority] through it is a
    load like any other; which word it yields depends on the layout of
    [struct thread] (threads/thread.h, which is not part of the sources) and
    on what that memory holds at the time.  The word is taken as a parameter:
    [stray k n e] is what such a read through the sentinel of the semaphore
    of [e]'s [cond_wait] yields during the [n]-th atomic section.  No
    function of synch.c writes it. *)

(** A pointer to a [struct semaphore]: free-standing, the member of a lock, or
    the member of a [semaphore_elem]. *)
Inductive sema_ptr :=
| SemaAt (a : nat)
| LockSema (l : lock_id)
| WaiterSema (t : tid).
Arguments SemaAt a%_nat.
Arguments LockSema l%_nat.
Arguments WaiterSema t%_nat.

Definition upd {A : Type} (f : nat -> A) (i : nat) (a : A) : nat -> A :=
  fun j => if Nat.eqb j i then a else f j.

Definition set_priority (p : Z) (th : thread) : thread :=
  mkThread p (original_priority th) (donations th) (waiting_lock th) (status th).
Definition set_donations (d : list tid) (th : thread) : thread :=
  mkThread (priority th) (original_priority th) d (waiting_lock th) (status th).
Definition set_waiting_lock (w : option lock_id) (th : thread) : thread :=
  mkThread (priority th) (original_priority th) (donations th) w (status th).
Definition set_status (s : thread_status) (th : thread) : thread :=
  mkThread (priority th) (original_priority th) (donations th) (waiting_lock th) s.

Definition with_threads (ths : tid -> thread) (k : kernel) : kernel :=
  mkKernel ths (semas k) (locks k) (conds k) (waiter_frames k) (cur k) (in_intr k) (sched k)
           (stray k) (clock k).
Definition with_semas (ss : nat -> semaphore) (k : kernel) : kernel :=
  mkKernel (threads k) ss (locks k) (conds k) (waiter_frames k) (cur k) (in_intr k) (sched k)
           (stray k) (clock k).
Definition with_locks (ls : lock_id -> lock) (k : kernel) : kernel :=
  mkKernel (threads k) (semas k) ls (conds k) (waiter_frames k) (cur k) (in_intr k) (sched k)
           (stray k) (clock k).
Definition with_conds (cs : cond_id -> condition) (k : kernel) : kernel :=
  mkKernel (threads k) (semas k) (locks k) cs (waiter_frames k) (cur k) (in_intr k) (sched k)
           (stray k) (clock k).
Definition with_waiter_frames (ws : tid -> semaphore) (k : kernel) : kernel :=
  mkKernel (threads k) (semas k) (locks k) (conds k) ws (cur k) (in_intr k) (sched k)
           (stray k) (clock k).
Definition with_cur (t : tid) (k : kernel) : kernel :=
  mkKernel (threads k) (semas k) (locks k) (conds k) (waiter_frames k) t (in_intr k) (sched k)
           (stray k) (clock k).
Definition with_in_intr (b : bool) (k : kernel) : kernel :=
  mkKernel (threads k) (semas k) (locks k) (conds k) (waiter_frames k) (cur k) b (sched k)
           (stray k) (clock k).
Definition with_sched (s : list sched_event) (k : kernel) : kernel :=
  mkKernel (threads k) (semas k) (locks k) (conds k) (waiter_frames k) (cur k) (in_intr k) s
           (stray k) (clock k).
Definition with_stray (m : nat -> tid -> Z) (k : kernel) : kernel :=
  mkKernel (threads k) (semas k) (locks k) (conds k) (waiter_frames k) (cur k) (in_intr k)
           (sched k) m (clock k).

(** The start of the next atomic section. *)
Definition tick (k : kernel) : kernel :=
  mkKernel (threads k) (semas k) (locks k) (conds k) (waiter_frames k) (cur k) (in_intr k)
           (sched k) (stray k) (S (clock k)).

Definition get_sema (k : kernel) (p : sema_ptr) : semaphore :=
  match p with
  | SemaAt a => semas k a
  | LockSema l => semaphore_of (locks k l)
  | WaiterSema t => waiter_frames k t
  end.

Definition set_sema (p : sema_ptr) (s : semaphore) (k : kernel) : kernel :=
  match p with
  | SemaAt a => with_semas (upd (semas k) a s) k
  | LockSema l => with_locks (upd (locks k) l (mkLock (holder (locks k l)) s)) k
  | WaiterSema t => with_waiter_frames (upd (waiter_frames k) t s) k
  end.

Definition set_holder (l : lock_id) (h : option tid) (k : kernel) : kernel :=
  with_locks (upd (locks k) l (mkLock h (semaphore_of (locks k l)))) k.

Definition modify_thread (t : tid) (f : thread -> thread) (k : kernel) : kernel :=
  with_threads (upd (threads k) t (f (threads k t))) k.

(** ** The monad of kernel code

    A computation either returns a value and a new kernel state or stops the
    kernel.  [AssertFail] is a failed [ASSERT] (kernel panic).  [LoopBound]
    marks a loop that was cut off by the iteration bound of its model. *)

Inductive fault := AssertFail | LoopBound.

Inductive res (A : Type) :=
| Ok (a : A)
| Fail (f : fault).
Arguments Ok {A} a.
Arguments Fail {A} f.

Definition M (A : Type) : Type := kernel -> res (A * kernel).

Definition ret {A} (a : A) : M A := fun k => Ok (a, k).
Definition bind {A B} (c : M A) (f : A -> M B) : M B :=
  fun k => match c k with
           | Ok (a, k') => f a k'
           | Fail e => Fail e
           end.
Definition fail {A} (e : fault) : M A := fun _ => Fail e.
Definition gets {A} (f : kernel -> A) : M A := fun k => Ok (f k, k).
Definition modify (f : kernel -> kernel) : M unit := fun k => Ok (tt, f k).
Definition lift {A} (r : kernel -> res A) : M A :=
  fun k => match r k with
           | Ok a => Ok (a, k)
           | Fail e => Fail e
           end.

Notation "x <- c1 ;; c2" := (bind c1 (fun x => c2))
  (at level 61, c1 at next level, right associativity).
Notation "c1 ;; c2" := (bind c1 (fun _ => c2))
  (at level 61, right associativity).

Definition ASSERT (b : bool) : M unit :=
  if b then ret tt else fail AssertFail.

(** ** The list library (lib/kernel/list.c)

    Modelled from the spec: lib/kernel/list.c is not part of the sources.  The
    spec assumes of it "insertion preserving a comparator-defined order,
    removal of an arbitrary element, maximum by comparator, emptiness check,
    front/iteration".  An intrusive list is the sequence of its elements; an
    element pointer is [Some e], the tail sentinel ([list_end]) is [None].
    [list_max] keeps the earliest of several maximal elements.
    [list_insert_ordered] keeps a list that the comparator orders from the
    greatest to the least, as the spec has [lock_acquire] "insert the calling
    thread into the owner's donors set ordered by descending priority" with
    the comparator by priority: it inserts before the first element that is
    less than the new one. *)

Definition list_empty (l : list nat) : bool :=
  match l with [] => true | _ => false end.

Definition list_push_back (l : list nat) (e : nat) : list nat := l ++ [e].

Definition list_front (l : list nat) : option nat :=
  match l with [] => None | e :: _ => Some e end.

Fixpoint list_remove (e : nat) (l : list nat) : list nat :=
  match l with
  | [] => []
  | x :: l' => if Nat.eqb x e then l' else x :: list_remove e l'
  end.

Fixpoint list_max_from (less : nat -> nat -> res bool) (max : nat) (l : list nat)
  : res nat :=
  match l with
  | [] => Ok max
  | e :: l' =>
      match less max e with
      | Ok b => list_max_from less (if b then e else max) l'
      | Fail f => Fail f
      end
  end.

Definition list_max (less : nat -> nat -> res bool) (l : list nat)
  : res (option nat) :=
  match l with
  | [] => Ok None
  | x :: l' =>
      match list_max_from less x l' with
      | Ok m => Ok (Some m)
      | Fail f => Fail f
      end
  end.

Fixpoint list_insert_ordered (less : nat -> nat -> res bool) (l : list nat)
  (elem : nat) : res (list nat) :=
  match l with
  | [] => Ok [elem]
  | e :: l' =>
      match less e elem with
      | Ok true => Ok (elem :: e :: l')
      | Ok false =>
          match list_insert_ordered less l' elem with
          | Ok r => Ok (e :: r)
          | Fail f => Fail f
          end
      | Fail f => Fail f
      end
  end.

(** ** The thread interface (threads/thread.c, threads/interrupt.c) *)

Definition thread_current : M tid := gets cur.
Definition intr_context : M bool := gets in_intr.

(** Modelled from the spec: thread_block, thread_unblock and thread_yield are
    defined in threads/thread.c, which is not part of the sources.  The spec
    names them "block/unblock/yield operations": block suspends the current
    thread, unblock marks a thread runnable, yield gives up the processor.
    Which ready thread runs next is the scheduler's choice and is not part of
    this state; each call is recorded in [sched]. *)
Definition thread_block : M unit :=
  t <- thread_current ;;
  modify (modify_thread t (set_status THREAD_BLOCKED)) ;;
  modify (fun k => with_sched (sched k ++ [EvBlock t]) k).

Definition thread_unblock (t : tid) : M unit :=
  modify (modify_thread t (set_status THREAD_READY)) ;;
  modify (fun k => with_sched (sched k ++ [EvUnblock t]) k).

Definition thread_yield : M unit :=
  t <- thread_current ;;
  modify (fun k => with_sched (sched k ++ [EvYield t]) k).

(** Modelled from the spec: priority_less_func is defined in
    threads/thread.c, which is not part of the sources.  It is the comparator
    of threads by effective priority that [sema_up] passes to [list_max] to
    "select the single highest-priority waiter", the same way
    [sem_less_priority_func] below compares with [<]. *)
Definition priority_less_func (k : kernel) (a b : tid) : res bool :=
  Ok (priority (threads k a) <? priority (threads k b)).

(** Modelled from the spec: thread_try_donate_priority is defined in
    threads/thread.c, which is not part of the sources.  The spec expects it
    "to walk the chain of blocked_on references transitively (A waits on lock
    held by B, B waits on lock held by C, ...) and raise each link's effective
    priority to at least the priority of the thread at the chain's head,
    bounded to avoid infinite loops on malformed chains". *)
Definition DONATION_DEPTH : nat := 8.

Fixpoint donate_along (fuel : nat) (p : Z) (t : tid) (k : kernel) : kernel :=
  match fuel with
  | O => k
  | S fuel' =>
      match waiting_lock (threads k t) with
      | None => k
      | Some l =>
          match holder (locks k l) with
          | None => k
          | Some h =>
              let k' := if priority (threads k h) <? p
                        then modify_thread h (set_priority p) k
                        else k in
              donate_along fuel' p h k'
          end
      end
  end.

Definition thread_try_donate_priority : M unit :=
  t <- thread_current ;;
  modify (fun k => donate_along DONATION_DEPTH (priority (threads k t)) t k).

(** ** Semaphores *)

(** [sema_init]: [sema->value = value; list_init (&sema->waiters)]. *)
Definition sema_init (p : sema_ptr) (v : Z) : M unit :=
  modify (set_sema p (mkSema (wrap32 v) [])).

(** The result of a call that can sleep: it returned, or the calling thread
    is suspended in [thread_block] inside it. *)
Inductive outcome := Done | Blocked.

(** One pass of the loop of [sema_down], from the test of the loop to either
    the decrement or the suspension in [thread_block]:
<<
  while (sema->value == 0)
    {
      thread_try_donate_priority();
      list_push_back(&sema->waiters, &thread_current()->elem);
      thread_block ();
    }
  sema->value--;
>>
    A thread that was suspended re-enters the loop at its test when it is
    scheduled again. *)
Definition sema_down_loop (p : sema_ptr) : M outcome :=
  s <- gets (fun k => get_sema k p) ;;
  if value s =? 0 then
    thread_try_donate_priority ;;
    t <- thread_current ;;
    s1 <- gets (fun k => get_sema k p) ;;
    modify (set_sema p (mkSema (value s1) (list_push_back (waiters s1) t))) ;;
    thread_block ;;
    ret Blocked
  else
    modify (set_sema p (mkSema (wrap32 (value s - 1)) (waiters s))) ;;
    ret Done.

(** [sema_down]: the assertion on the interrupt context, then the loop. *)
Definition sema_down (p : sema_ptr) : M outcome :=
  ic <- intr_context ;;
  ASSERT (negb ic) ;;
  sema_down_loop p.

(** A thread woken inside [sema_down] goes on in the loop. *)
Definition sema_down_resume (p : sema_ptr) : M outcome := sema_down_loop p.

(** [sema_try_down]: decrement and [true] when [sema->value > 0], otherwise
    the donation step and [false]. *)
Definition sema_try_down (p : sema_ptr) : M bool :=
  s <- gets (fun k => get_sema k p) ;;
  if 0 <? value s then
    modify (set_sema p (mkSema (wrap32 (value s - 1)) (waiters s))) ;;
    ret true
  else
    thread_try_donate_priority ;;
    ret false.

(** [sema_up]: if there is a waiter, [list_max], [list_remove] and
    [thread_unblock] of the result; then [sema->value++]; then a yield when
    the woken thread has a higher priority than the current one. *)
Definition sema_up (p : sema_ptr) : M unit :=
  s <- gets (fun k => get_sema k p) ;;
  highest_priority_thread <-
    (if negb (list_empty (waiters s)) then
       m <- lift (fun k => list_max (priority_less_func k) (waiters s)) ;;
       match m with
       | None => fail AssertFail   (* list_remove of the tail sentinel *)
       | Some w =>
           modify (set_sema p (mkSema (value s) (list_remove w (waiters s)))) ;;
           thread_unblock w ;;
           ret (Some w)
       end
     else ret None) ;;
  s1 <- gets (fun k => get_sema k p) ;;
  modify (set_sema p (mkSema (wrap32 (value s1 + 1)) (waiters s1))) ;;
  match highest_priority_thread with
  | None => ret tt
  | Some h =>
      c <- thread_current ;;
      pc <- gets (fun k => priority (threads k c)) ;;
      ph <- gets (fun k => priority (threads k h)) ;;
      if pc <? ph then thread_yield else ret tt
  end.

(** ** Locks *)

(** [lock_init]: [lock->holder = NULL; sema_init (&lock->semaphore, 1)]. *)
Definition lock_init (l : lock_id) : M unit :=
  modify (set_holder l None) ;;
  sema_init (LockSema l) 1.

(** [lock_held_by_current_thread]: [lock->holder == thread_current ()]. *)
Definition lock_held_by_current_thread (l : lock_id) : M bool :=
  c <- thread_current ;;
  h <- gets (fun k => holder (locks k l)) ;;
  ret (match h with
       | Some t => Nat.eqb t c
       | None => false
       end).

(** The two assignments of [lock_acquire] that follow [sema_down]. *)
Definition lock_acquire_finish (l : lock_id) : M unit :=
  current <- thread_current ;;
  modify (modify_thread current (set_waiting_lock None)) ;;
  modify (set_holder l (Some current)).

(** [lock_acquire]: the assertions; if the lock has a holder, the caller
    records the lock in [waiting_lock] and inserts itself into the holder's
    donation list with [list_insert_ordered]; then [sema_down]; then the two
    assignments. *)
Definition lock_acquire (l : lock_id) : M outcome :=
  ic <- intr_context ;;
  ASSERT (negb ic) ;;
  held <- lock_held_by_current_thread l ;;
  ASSERT (negb held) ;;
  current <- thread_current ;;
  h <- gets (fun k => holder (locks k l)) ;;
  match h with
  | Some hd =>
      modify (modify_thread current (set_waiting_lock (Some l))) ;;
      ds <- gets (fun k => donations (threads k hd)) ;;
      ds' <- lift (fun k => list_insert_ordered (priority_less_func k) ds current) ;;
      modify (modify_thread hd (set_donations ds'))
  | None => ret tt
  end ;;
  r <- sema_down (LockSema l) ;;
  match r with
  | Done => lock_acquire_finish l ;; ret Done
  | Blocked => ret Blocked
  end.

(** A thread suspended inside [lock_acquire] is inside the loop of
    [sema_down (&lock->semaphore)]. *)
Definition lock_acquire_resume (l : lock_id) : M outcome :=
  r <- sema_down_resume (LockSema l) ;;
  match r with
  | Done => lock_acquire_finish l ;; ret Done
  | Blocked => ret Blocked
  end.

(** [lock_try_acquire]: the assertion, [sema_try_down], and on success the two
    assignments. *)
Definition lock_try_acquire (l : lock_id) : M bool :=
  held <- lock_held_by_current_thread l ;;
  ASSERT (negb held) ;;
  success <- sema_try_down (LockSema l) ;;
  (if success : bool then lock_acquire_finish l else ret tt) ;;
  ret success.

(** [t->waiting_lock == lock]. *)
Definition waits_for (k : kernel) (l : lock_id) (t : tid) : bool :=
  match waiting_lock (threads k t) with
  | Some l' => Nat.eqb l' l
  | None => false
  end.

(** The loop of [lock_release] over the donation list.  [es] is what is left
    of the traversal, [ds] the list as it stands; [list_remove] leaves the
    links of the removed element in place, so the traversal continues with the
    element that followed it. *)
Fixpoint purge_donations (k : kernel) (l : lock_id) (es ds : list tid) : list tid :=
  match es with
  | [] => ds
  | e :: es' =>
      purge_donations k l es' (if waits_for k l e then list_remove e ds else ds)
  end.

(** [lock_release]: the assertion; [lock->holder = NULL]; the loop over the
    donation list; the reset of the priority to the base priority, and its
    raise to the priority of [list_front] of the donation list when that is
    higher; [sema_up]; a yield when the priority had been above the base
    priority. *)
Definition lock_release (l : lock_id) : M unit :=
  held <- lock_held_by_current_thread l ;;
  ASSERT held ;;
  modify (set_holder l None) ;;
  current <- thread_current ;;
  ds <- gets (fun k => donations (threads k current)) ;;
  modify (fun k => modify_thread current (set_donations (purge_donations k l ds ds)) k) ;;
  th <- gets (fun k => threads k current) ;;
  let yield := original_priority th <? priority th in
  modify (modify_thread current (set_priority (original_priority th))) ;;
  (if negb (list_empty (donations th)) then
     match list_front (donations th) with
     | None => fail AssertFail   (* list_front asserts a non-empty list *)
     | Some highest_priority_donor =>
         pd <- gets (fun k => priority (threads k highest_priority_donor)) ;;
         if original_priority th <? pd
         then modify (modify_thread current (set_priority pd))
         else ret tt
     end
   else ret tt) ;;
  sema_up (LockSema l) ;;
  if yield then thread_yield else ret tt.

(** ** Condition variables *)

(** [cond_init]: [list_init (&cond->waiters)]. *)
Definition cond_init (c : cond_id) : M unit :=
  modify (fun k => with_conds (upd (conds k) c (mkCond [])) k).

(** Assignment to the waiter list of a condition. *)
Definition set_cond_waiters (c : cond_id) (ws : list tid) (k : kernel) : kernel :=
  with_conds (upd (conds k) c (mkCond ws)) k.

(** A priority as [sem_less_priority_func] reads it through
    [list_entry (max, struct thread, elem)]: from the thread struct of an
    element of the waiter list, or, when [max] is the tail sentinel, from the
    memory beside the list head. *)
Inductive loaded :=
| FromThread (p : Z)
| FromSentinel (w : Z).

Definition loaded_value (x : loaded) : Z :=
  match x with
  | FromThread p => p
  | FromSentinel w => w
  end.

Definition from_sentinel (x : loaded) : bool :=
  match x with
  | FromThread _ => false
  | FromSentinel _ => true
  end.

(** [list_entry (max, struct thread, elem)->priority], [max] being the
    result of [list_max] on the waiter list of the semaphore of [owner]. *)
Definition entry_priority (k : kernel) (owner : tid) (max : option tid) : loaded :=
  match max with
  | Some t => FromThread (priority (threads k t))
  | None => FromSentinel (stray k (clock k) owner)
  end.

(** [sem_less_priority_func] up to its [return]: the maximum of the waiter
    list of each semaphore, [list_entry] of both, and the two priorities read
    through them. *)
Definition sem_priorities (k : kernel) (e1 e2 : tid) : res (loaded * loaded) :=
  match list_max (priority_less_func k) (waiters (waiter_frames k e1)) with
  | Fail f => Fail f
  | Ok max_s1 =>
      match list_max (priority_less_func k) (waiters (waiter_frames k e2)) with
      | Fail f => Fail f
      | Ok max_s2 => Ok (entry_priority k e1 max_s1, entry_priority k e2 max_s2)
      end
  end.

(** [sem_less_priority_func]: [return t1->priority < t2->priority;]. *)
Definition sem_less_priority_func (k : kernel) (e1 e2 : tid) : res bool :=
  match sem_priorities k e1 e2 with
  | Ok (p1, p2) => Ok (loaded_value p1 <? loaded_value p2)
  | Fail f => Fail f
  end.

(** [cond_wait] up to and including [lock_release (lock)]. *)
Definition cond_wait_begin (c : cond_id) (l : lock_id) : M unit :=
  ic <- intr_context ;;
  ASSERT (negb ic) ;;
  held <- lock_held_by_current_thread l ;;
  ASSERT held ;;
  t <- thread_current ;;
  sema_init (WaiterSema t) 0 ;;
  ws <- gets (fun k => cond_waiters (conds k c)) ;;
  modify (set_cond_waiters c (list_push_back ws t)) ;;
  lock_release l.

(** Where a thread is inside [cond_wait] after [lock_release] returned: about
    to call [sema_down (&waiter.semaphore)], suspended inside it, about to
    call [lock_acquire (lock)], or suspended inside that. *)
Inductive cond_wait_pc :=
| CW_DOWN
| CW_DOWN_BLOCKED
| CW_ACQUIRE
| CW_ACQUIRE_BLOCKED.

Definition cond_wait (c : cond_id) (l : lock_id) : M cond_wait_pc :=
  cond_wait_begin c l ;;
  ret CW_DOWN.

(** One step of the rest of [cond_wait]; [None] is the return of
    [cond_wait]. *)
Definition cond_wait_step (l : lock_id) (pc : cond_wait_pc) : M (option cond_wait_pc) :=
  t <- thread_current ;;
  match pc with
  | CW_DOWN =>
      r <- sema_down (WaiterSema t) ;;
      ret (Some (match r with Done => CW_ACQUIRE | Blocked => CW_DOWN_BLOCKED end))
  | CW_DOWN_BLOCKED =>
      r <- sema_down_resume (WaiterSema t) ;;
      ret (Some (match r with Done => CW_ACQUIRE | Blocked => CW_DOWN_BLOCKED end))
  | CW_ACQUIRE =>
      r <- lock_acquire l ;;
      ret (match r with Done => None | Blocked => Some CW_ACQUIRE_BLOCKED end)
  | CW_ACQUIRE_BLOCKED =>
      r <- lock_acquire_resume l ;;
      ret (match r with Done => None | Blocked => Some CW_ACQUIRE_BLOCKED end)
  end.

(** [cond_signal]: the assertions; if the condition has a waiter, [list_max]
    with [sem_less_priority_func], [list_remove] and [sema_up] of the
    result. *)
Definition cond_signal (c : cond_id) (l : lock_id) : M unit :=
  ic <- intr_context ;;
  ASSERT (negb ic) ;;
  held <- lock_held_by_current_thread l ;;
  ASSERT held ;;
  ws <- gets (fun k => cond_waiters (conds k c)) ;;
  if negb (list_empty ws) then
    m <- lift (fun k => list_max (sem_less_priority_func k) ws) ;;
    match m with
    | None => fail AssertFail   (* list_remove of the tail sentinel *)
    | Some max_elem =>
        modify (set_cond_waiters c (list_remove max_elem ws)) ;;
        sema_up (WaiterSema max_elem)
    end
  else ret tt.

(** [while (!list_empty (&cond->waiters)) cond_signal (cond, lock);] with the
    number of passes bounded by [fuel]; running out of passes is the fault
    [LoopBound]. *)
Fixpoint cond_broadcast_loop (fuel : nat) (c : cond_id) (l : lock_id) : M unit :=
  ws <- gets (fun k => cond_waiters (conds k c)) ;;
  if negb (list_empty ws) then
    match fuel with
    | O => fail LoopBound
    | S fuel' => cond_signal c l ;; cond_broadcast_loop fuel' c l
    end
  else ret tt.

(** [cond_broadcast]: the loop, with as many passes as the condition has
    waiters when it is called. *)
Definition cond_broadcast (c : cond_id) (l : lock_id) : M unit :=
  n <- gets (fun k => length (cond_waiters (conds k c))) ;;
  cond_broadcast_loop n c l.

(** * Executions

    An execution of the kernel is a sequence of atomic sections, each run by
    some thread, inside or outside an interrupt handler.  The scheduler and
    the interrupt controller choose the sequence; every interleaving of calls
    of synch.c is one such sequence.  The memory that synch.c does not own
    may change from one atomic section to the next: each section reads the
    [stray] words of its own number.  A failed assertion stops the kernel. *)

Inductive call :=
| CallSemaInit (p : sema_ptr) (v : Z)
| CallSemaDown (p : sema_ptr)
| CallSemaDownResume (p : sema_ptr)
| CallSemaTryDown (p : sema_ptr)
| CallSemaUp (p : sema_ptr)
| CallLockInit (l : lock_id)
| CallLockAcquire (l : lock_id)
| CallLockAcquireResume (l : lock_id)
| CallLockTryAcquire (l : lock_id)
| CallLockRelease (l : lock_id)
| CallCondInit (c : cond_id)
| CallCondWait (c : cond_id) (l : lock_id)
| CallCondWaitStep (l : lock_id) (pc : cond_wait_pc)
| CallCondSignal (c : cond_id) (l : lock_id)
| CallCondBroadcast (c : cond_id) (l : lock_id).

Inductive retval :=
| RetUnit
| RetOutcome (o : outcome)
| RetBool (b : bool)
| RetPc (pc : option cond_wait_pc).

Definition exec (c : call) : M retval :=
  match c with
  | CallSemaInit p v => sema_init p v ;; ret RetUnit
  | CallSemaDown p => o <- sema_down p ;; ret (RetOutcome o)
  | CallSemaDownResume p => o <- sema_down_resume p ;; ret (RetOutcome o)
  | CallSemaTryDown p => b <- sema_try_down p ;; ret (RetBool b)
  | CallSemaUp p => sema_up p ;; ret RetUnit
  | CallLockInit l => lock_init l ;; ret RetUnit
  | CallLockAcquire l => o <- lock_acquire l ;; ret (RetOutcome o)
  | CallLockAcquireResume l => o <- lock_acquire_resume l ;; ret (RetOutcome o)
  | CallLockTryAcquire l => b <- lock_try_acquire l ;; ret (RetBool b)
  | CallLockRelease l => lock_release l ;; ret RetUnit
  | CallCondInit c => cond_init c ;; ret RetUnit
  | CallCondWait c l => pc <- cond_wait c l ;; ret (RetPc (Some pc))
  | CallCondWaitStep l pc => pc' <- cond_wait_step l pc ;; ret (RetPc pc')
  | CallCondSignal c l => cond_signal c l ;; ret RetUnit
  | CallCondBroadcast c l => cond_broadcast c l ;; ret RetUnit
  end.

Record action := mkAction {
  act_thread : tid;     (* the thread that runs *)
  act_intr : bool;      (* inside an interrupt handler *)
  act_call : call
}.

Definition step (a : action) : M retval :=
  modify tick ;;
  modify (with_cur (act_thread a)) ;;
  modify (with_in_intr (act_intr a)) ;;
  exec (act_call a).

(** [run] returns the history of the actions that completed, each with what
    it returned, and the state reached. *)
Fixpoint run (acts : list action) (k : kernel) : list (action * retval) * kernel :=
  match acts with
  | [] => ([], k)
  | a :: rest =>
      match step a k with
      | Ok (r, k') => let (h, k'') := run rest k' in ((a, r) :: h, k'')
      | Fail _ => ([], k)
      end
  end.

(** A call made by thread [t] from thread context. *)
Definition by_thread (t : tid) (c : call) : action := mkAction t false c.

Arguments CallLockInit l%_nat.
Arguments CallLockAcquire l%_nat.
Arguments CallLockAcquireResume l%_nat.
Arguments CallLockTryAcquire l%_nat.
Arguments CallLockRelease l%_nat.
Arguments CallCondInit c%_nat.
Arguments CallCondWait (c l)%_nat.
Arguments CallCondWaitStep l%_nat pc.
Arguments CallCondSignal (c l)%_nat.
Arguments CallCondBroadcast (c l)%_nat.
Arguments mkAction act_thread%_nat act_intr act_call.
Arguments by_thread t%_nat c.
Arguments lock_init l%_nat.
Arguments lock_acquire l%_nat.
Arguments lock_acquire_resume l%_nat.
Arguments lock_try_acquire l%_nat.
Arguments lock_release l%_nat.
Arguments lock_held_by_current_thread l%_nat.
Arguments cond_init c%_nat.
Arguments cond_wait (c l)%_nat.
Arguments cond_wait_step l%_nat pc.
Arguments cond_signal (c l)%_nat.
Arguments cond_broadcast (c l)%_nat.
Arguments with_cur t%_nat k.

(** * Vocabulary of the properties *)

(** ** States and their relations *)

(** The value of a semaphore is an [unsigned]. *)
Definition sema_wf (s : semaphore) : Prop := 0 <= value s < UINT_MODULUS.

(** The effective priority of a thread. *)
Definition prio (k : kernel) (t : tid) : Z := priority (threads k t).

(** [sema->value]. *)
Definition sema_value (k : kernel) (p : sema_ptr) : Z := value (get_sema k p).

(** [lock->semaphore.value]. *)
Definition lock_value (k : kernel) (l : lock_id) : Z := value (get_sema k (LockSema l)).

(** [lock->holder == thread_current ()]. *)
Definition held_by_current (k : kernel) (l : lock_id) : bool :=
  match holder (locks k l) with
  | Some t => Nat.eqb t (cur k)
  | None => false
  end.

(** Equality of semaphore pointers. *)
Definition sema_ptr_eqb (p q : sema_ptr) : bool :=
  match p, q with
  | SemaAt a, SemaAt b => Nat.eqb a b
  | LockSema a, LockSema b => Nat.eqb a b
  | WaiterSema a, WaiterSema b => Nat.eqb a b
  | _, _ => false
  end.

(** Two states that differ in effective priorities only, the second having
    the higher ones. *)
Record same_but_priority (k k' : kernel) : Prop := {
  sbp_semas : semas k' = semas k;
  sbp_locks : locks k' = locks k;
  sbp_conds : conds k' = conds k;
  sbp_frames : waiter_frames k' = waiter_frames k;
  sbp_cur : cur k' = cur k;
  sbp_intr : in_intr k' = in_intr k;
  sbp_sched : sched k' = sched k;
  sbp_status : forall t, status (threads k' t) = status (threads k t);
  sbp_donations : forall t, donations (threads k' t) = donations (threads k t);
  sbp_waiting : forall t, waiting_lock (threads k' t) = waiting_lock (threads k t);
  sbp_original : forall t, original_priority (threads k' t) = original_priority (threads k t);
  sbp_priority : forall t, priority (threads k t) <= priority (threads k' t)
}.

(** Two states that differ in the thread structs only. *)
Record same_but_threads (k k' : kernel) : Prop := {
  sbt_semas : semas k' = semas k;
  sbt_locks : locks k' = locks k;
  sbt_conds : conds k' = conds k;
  sbt_frames : waiter_frames k' = waiter_frames k;
  sbt_cur : cur k' = cur k;
  sbt_intr : in_intr k' = in_intr k;
  sbt_sched : sched k' = sched k
}.

(** What an operation that touches no [holder] field preserves. *)
Definition same_holders (k k' : kernel) : Prop :=
  forall l, holder (locks k' l) = holder (locks k l).

(** The computation [m] stops the kernel at a failed assertion only. *)
Definition asserts_only {A} (m : M A) : Prop := forall k, m k <> Fail LoopBound.

(** ** Postconditions of [sema_up] and [sema_down] *)

(** The waiter that [list_max] selects in [sema_up], if any. *)
Definition highest_waiter (k : kernel) (p : sema_ptr) : option tid :=
  match list_max (priority_less_func k) (waiters (get_sema k p)) with
  | Ok m => m
  | Fail _ => None
  end.

(** The thread struct of [t] after [thread_unblock] of [woken]. *)
Definition wake (woken : option tid) (k : kernel) (t : tid) : thread :=
  match woken with
  | Some w => if Nat.eqb t w then set_status THREAD_READY (threads k t) else threads k t
  | None => threads k t
  end.

(** The state [k'] in which [sema_up (p)] leaves the kernel [k] when it wakes
    [woken]. *)
Record sema_up_post (p : sema_ptr) (k : kernel) (woken : option tid) (k' : kernel)
  : Prop := {
  sup_sema : get_sema k' p =
             mkSema (wrap32 (value (get_sema k p) + 1))
                    (match woken with
                     | Some w => list_remove w (waiters (get_sema k p))
                     | None => waiters (get_sema k p)
                     end);
  sup_other : forall q, q <> p -> get_sema k' q = get_sema k q;
  sup_holder : forall l, holder (locks k' l) = holder (locks k l);
  sup_conds : conds k' = conds k;
  sup_cur : cur k' = cur k;
  sup_intr : in_intr k' = in_intr k;
  sup_threads : forall t, threads k' t = wake woken k t;
  sup_sched : sched k' = sched k ++
              match woken with
              | Some w => EvUnblock w ::
                          (if prio k (cur k) <? prio k w then [EvYield (cur k)] else [])
              | None => []
              end
}.

(** The state in which [sema_down] leaves the kernel when it suspends the
    caller: priorities may have been raised by the donation step, the caller
    is at the back of the waiter list and is blocked. *)
Record sema_down_blocked (p : sema_ptr) (k k' : kernel) : Prop := {
  sdb_sema : get_sema k' p
             = mkSema (value (get_sema k p)) (waiters (get_sema k p) ++ [cur k]);
  sdb_other : forall q, q <> p -> get_sema k' q = get_sema k q;
  sdb_holder : forall l, holder (locks k' l) = holder (locks k l);
  sdb_conds : conds k' = conds k;
  sdb_cur : cur k' = cur k;
  sdb_intr : in_intr k' = in_intr k;
  sdb_sched : sched k' = sched k ++ [EvBlock (cur k)];
  sdb_status : forall t, status (threads k' t)
                         = if Nat.eqb t (cur k) then THREAD_BLOCKED
                           else status (threads k t);
  sdb_donations : forall t, donations (threads k' t) = donations (threads k t);
  sdb_waiting : forall t, waiting_lock (threads k' t) = waiting_lock (threads k t);
  sdb_original : forall t,
      original_priority (threads k' t) = original_priority (threads k t);
  sdb_priority : forall t, priority (threads k t) <= priority (threads k' t)
}.

(** ** Locks and donations *)

(** The donation list of the current thread after the loop of
    [lock_release (l)]. *)
Definition remaining_donors (k : kernel) (l : lock_id) : list tid :=
  let ds := donations (threads k (cur k)) in
  purge_donations k l ds ds.

(** The priority that [lock_release] leaves in the releasing thread: the base
    priority, or the priority of the donor at the front of the remaining
    donation list when that is higher. *)
Definition released_priority (k : kernel) (l : lock_id) : Z :=
  let base := original_priority (threads k (cur k)) in
  match list_front (remaining_donors k l) with
  | None => base
  | Some d =>
      let pd := if Nat.eqb d (cur k) then base else prio k d in
      if base <? pd then pd else base
  end.

(** The state in which [lock_release] calls [sema_up]. *)
Record released_state (l : lock_id) (k k1 : kernel) : Prop := {
  rs_threads : forall t,
      threads k1 t =
      if Nat.eqb t (cur k)
      then mkThread (released_priority k l) (original_priority (threads k t))
                    (remaining_donors k l) (waiting_lock (threads k t))
                    (status (threads k t))
      else threads k t;
  rs_holder : forall l',
      holder (locks k1 l') = if Nat.eqb l' l then None else holder (locks k l');
  rs_sema : forall p, get_sema k1 p = get_sema k p;
  rs_conds : conds k1 = conds k;
  rs_cur : cur k1 = cur k;
  rs_intr : in_intr k1 = in_intr k;
  rs_sched : sched k1 = sched k
}.

(** The highest priority among a list of donors. *)
Definition highest_priority (k : kernel) (ds : list tid) : option Z :=
  match ds with
  | [] => None
  | d :: ds' => Some (fold_left Z.max (map (prio k) ds') (prio k d))
  end.

(** What a call of the lock interface does to the [holder] fields. *)
Definition takes_lock (l' : lock_id) (t : tid) (k k' : kernel) : Prop :=
  holder (locks k' l') = Some t /\
  (forall l, l <> l' -> holder (locks k' l) = holder (locks k l)) /\
  value (get_sema k (LockSema l')) <> 0 /\
  value (get_sema k' (LockSema l')) = wrap32 (value (get_sema k (LockSema l')) - 1).

(** [l'] has lost its owner, the other locks have kept theirs. *)
Definition drops_lock (l' : lock_id) (k k' : kernel) : Prop :=
  holder (locks k' l') = None /\
  (forall l, l <> l' -> holder (locks k' l) = holder (locks k l)).

(** The lock is free and its semaphore is 1, or it is owned and its semaphore
    is 0. *)
Definition lock_consistent (k : kernel) (l : lock_id) : Prop :=
  (holder (locks k l) = None /\ lock_value k l = 1)
  \/ (exists t, holder (locks k l) = Some t /\ lock_value k l = 0).

(** Owner and value of [l] are the same in both states. *)
Definition lock_untouched (l : lock_id) (k k' : kernel) : Prop :=
  holder (locks k' l) = holder (locks k l) /\ lock_value k' l = lock_value k l.

(** What one step does to lock [l]. *)
Inductive lock_step (l : lock_id) (t : tid) (k k' : kernel) : Prop :=
| LsUntouched : lock_untouched l k k' -> lock_step l t k k'
| LsInit : holder (locks k' l) = None -> lock_value k' l = 1 -> lock_step l t k k'
| LsTaken : holder (locks k' l) = Some t -> lock_value k l <> 0 ->
            lock_value k' l = wrap32 (lock_value k l - 1) -> lock_step l t k k'
| LsDropped : holder (locks k l) = Some t -> holder (locks k' l) = None ->
              lock_value k' l = wrap32 (lock_value k l + 1) -> lock_step l t k k'.

(** ** Condition variables *)

(** The thread that an element of a condition's waiter list stands for: the
    highest-priority waiter of its semaphore. *)
Definition entry_thread (k : kernel) (e : tid) : option tid :=
  highest_waiter k (WaiterSema e).

(** The priority of that thread. *)
Definition entry_prio (k : kernel) (e : tid) : Z :=
  match entry_thread k e with
  | Some t => prio k t
  | None => 0
  end.

(** What [sem_less_priority_func] compares an element by: the priority of
    the thread it stands for, or, when its semaphore has no waiter, the word
    read through the sentinel of the empty waiter list. *)
Definition entry_key (k : kernel) (e : tid) : Z :=
  match entry_thread k e with
  | Some t => prio k t
  | None => stray k (clock k) e
  end.

(** The threads that the elements of a waiter list stand for, in the order of
    the list; an element whose semaphore has no waiter stands for none. *)
Definition entry_threads (k : kernel) (ws : list tid) : list tid :=
  flat_map (fun e => match entry_thread k e with Some t => [t] | None => [] end) ws.

(** Every semaphore queued on the condition has a waiter. *)
Definition waiters_blocked (k : kernel) (c : cond_id) : Prop :=
  forall e, In e (cond_waiters (conds k c)) -> waiters (waiter_frames k e) <> [].

(** No semaphore queued on the condition is read through its sentinel as a
    word that reaches the priority of every blocked waiter: each queued
    semaphore without a waiter yields a word below the priority of some
    thread that waits on a queued semaphore. *)
Definition words_below_waiters (k : kernel) (c : cond_id) : Prop :=
  forall e, In e (cond_waiters (conds k c)) ->
            waiters (waiter_frames k e) = [] ->
            exists e' t', In e' (cond_waiters (conds k c))
                          /\ In t' (waiters (waiter_frames k e'))
                          /\ stray k (clock k) e < prio k t'.

(** The threads passed to [thread_unblock], in the order of the calls. *)
Definition unblocked (evs : list sched_event) : list tid :=
  flat_map (fun e => match e with EvUnblock t => [t] | _ => [] end) evs.

(** ** Histories *)

(** The action is a down, a probe or an up of [p]. *)
Definition is_sema_op (p : sema_ptr) (a : action) : bool :=
  match act_call a with
  | CallSemaDown q | CallSemaDownResume q | CallSemaTryDown q | CallSemaUp q =>
      sema_ptr_eqb q p
  | _ => false
  end.

(** A completed down: [sema_down] returned (at once or after a suspension),
    or [sema_try_down] returned true. *)
Definition is_down (e : action * retval) : bool :=
  match act_call (fst e), snd e with
  | CallSemaDown _, RetOutcome Done => true
  | CallSemaDownResume _, RetOutcome Done => true
  | CallSemaTryDown _, RetBool true => true
  | _, _ => false
  end.

(** A completed up. *)
Definition is_up (e : action * retval) : bool :=
  match act_call (fst e) with
  | CallSemaUp _ => true
  | _ => false
  end.

(** Number of completed downs and ups of a history. *)
Definition completed_downs (h : list (action * retval)) : Z :=
  Z.of_nat (length (filter is_down h)).

Definition completed_ups (h : list (action * retval)) : Z :=
  Z.of_nat (length (filter is_up h)).

(** A completed acquisition of lock [l]: [lock_acquire] returned (at once, or
    after a suspension, or as the last call of [cond_wait]), or
    [lock_try_acquire] returned true. *)
Definition acquires (l : lock_id) (e : action * retval) : bool :=
  match act_call (fst e), snd e with
  | CallLockAcquire l', RetOutcome Done => Nat.eqb l' l
  | CallLockAcquireResume l', RetOutcome Done => Nat.eqb l' l
  | CallLockTryAcquire l', RetBool true => Nat.eqb l' l
  | CallCondWaitStep l' CW_ACQUIRE, RetPc None => Nat.eqb l' l
  | CallCondWaitStep l' CW_ACQUIRE_BLOCKED, RetPc None => Nat.eqb l' l
  | _, _ => false
  end.

(** The thread of the last completed acquisition of [l] in a history. *)
Fixpoint last_acquirer (l : lock_id) (h : list (action * retval)) : option tid :=
  match h with
  | [] => None
  | e :: h' =>
      match last_acquirer l h' with
      | Some t => Some t
      | None => if acquires l e then Some (act_thread (fst e)) else None
      end
  end.

(** The calls that use the semaphore of [l] directly are excluded. *)
Definition through_lock_interface (l : lock_id) (a : action) : bool :=
  match act_call a with
  | CallSemaInit p _ | CallSemaDown p | CallSemaDownResume p
  | CallSemaTryDown p | CallSemaUp p => negb (sema_ptr_eqb p (LockSema l))
  | _ => true
  end.

(** ** What a call may do to the thread structs *)

(** The call returned to its caller with the caller suspended inside it. *)
Definition suspends (r : retval) : bool :=
  match r with
  | RetOutcome Blocked => true
  | RetPc (Some CW_DOWN_BLOCKED) => true
  | RetPc (Some CW_ACQUIRE_BLOCKED) => true
  | _ => false
  end.

(** From [k] to [k'] no base priority has changed; an effective priority has
    gone up or, for [caller], has been set to a value that is not below the
    base priority; and a thread that is blocked in [k'] was blocked in [k] or
    is [caller], suspended by the call. *)
Record thread_frame (caller : tid) (suspended : bool) (k k' : kernel) : Prop := {
  tf_original : forall t,
      original_priority (threads k' t) = original_priority (threads k t);
  tf_priority : forall t,
      priority (threads k t) <= priority (threads k' t)
      \/ (t = caller /\ original_priority (threads k t) <= priority (threads k' t));
  tf_status : forall t,
      status (threads k' t) = THREAD_BLOCKED ->
      status (threads k t) = THREAD_BLOCKED \/ (t = caller /\ suspended = true)
}.

(** No effective priority is below the base priority of its thread. *)
Definition priorities_above_base (k : kernel) : Prop :=
  forall t, original_priority (threads k t) <= priority (threads k t).

(** The action is not run by thread [t]. *)
Definition run_by_another (t : tid) (a : action) : bool :=
  negb (Nat.eqb (act_thread a) t).

(** * Scenarios *)

(** A ready thread of priority [p] that waits for nothing and has no donor. *)
Definition fresh_thread (p : Z) : thread := mkThread p p [] None THREAD_READY.

(** A kernel after initialisation: thread [t] has priority [10 * (t + 1)],
    every lock is free, every semaphore is 0 and every condition variable has
    no waiter; thread 0 is running; the memory beside the list heads holds
    zeros. *)
Definition kernel_init : kernel :=
  mkKernel (fun t => fresh_thread (10 * Z.of_nat (S t)))
           (fun _ => mkSema 0 [])
           (fun _ => mkLock None (mkSema 1 []))
           (fun _ => mkCond [])
           (fun _ => mkSema 0 [])
           0%nat false []
           (fun _ _ => 0) 0%nat.

(** Threads 0, 2 and 1 wait, in this order, on semaphore 0. *)
Definition kernel_three_waiters : kernel :=
  set_sema (SemaAt 0) (mkSema 0 [0; 2; 1]%nat) kernel_init.

(** [kernel_init] after [lock_init] of lock 0. *)
Definition kernel_lock_initialised : kernel :=
  set_sema (LockSema 0) (mkSema (wrap32 1) []) (set_holder 0%nat None kernel_init).

(** Thread 0 (priority 10) holds locks 0 and 1; thread 1 (priority 20) waits
    for lock 0 and thread 2 (priority 30) waits for lock 1. *)
Definition kernel_two_locks_two_donors : kernel :=
  with_cur 0%nat
    (snd (run [by_thread 0 (CallLockAcquire 0); by_thread 0 (CallLockAcquire 1);
               by_thread 1 (CallLockAcquire 0); by_thread 2 (CallLockAcquire 1)]
              kernel_init)).

(** Thread 0 (priority 10) holds locks 0 and 1; thread 1 (priority 20) and
    then thread 2 (priority 30) call [lock_acquire] on lock 1 and block. *)
Definition donation_scenario : list action :=
  [by_thread 0 (CallLockAcquire 0); by_thread 0 (CallLockAcquire 1);
   by_thread 1 (CallLockAcquire 1); by_thread 2 (CallLockAcquire 1)].

(** The state reached by [donation_scenario], thread 0 running. *)
Definition kernel_one_lock_two_donors : kernel :=
  with_cur 0%nat (snd (run donation_scenario kernel_init)).

(** Thread 0 (priority 10) takes locks 0 and 1 and thread 2 (priority 30)
    takes lock 2.  Threads 1 (priority 20), 2 and 3 (priority 40) call
    [lock_acquire] on lock 1 and block.  Then thread 4 (priority 50) calls
    [lock_acquire] on lock 2, which thread 2 holds, and blocks: the donation
    step raises thread 2, and thread 0 behind it, to priority 50. *)
Definition nested_donation_scenario : list action :=
  [by_thread 0 (CallLockAcquire 0); by_thread 0 (CallLockAcquire 1);
   by_thread 2 (CallLockAcquire 2);
   by_thread 1 (CallLockAcquire 1); by_thread 2 (CallLockAcquire 1);
   by_thread 3 (CallLockAcquire 1);
   by_thread 4 (CallLockAcquire 2)].

(** The state reached by [nested_donation_scenario], thread 0 running. *)
Definition kernel_nested_donation : kernel :=
  with_cur 0%nat (snd (run nested_donation_scenario kernel_init)).

(** The same state with the donation list of thread 0 in the opposite
    order, lowest donor first. *)
Definition kernel_nested_donation_ascending : kernel :=
  modify_thread 0%nat (set_donations [1; 2; 3]%nat) kernel_nested_donation.

(** Threads 0 and 1 call [sema_down] on a semaphore initialised to 1, thread 2
    probes it, thread 0 ups it and thread 1 resumes. *)
Definition sema_scenario : list action :=
  [by_thread 0 (CallSemaDown (SemaAt 0)); by_thread 1 (CallSemaDown (SemaAt 0));
   by_thread 2 (CallSemaTryDown (SemaAt 0)); by_thread 0 (CallSemaUp (SemaAt 0));
   by_thread 1 (CallSemaDownResume (SemaAt 0))].

(** Thread 1 takes lock 0, thread 2 blocks on it, thread 1 releases it and
    thread 2 finishes its [lock_acquire]. *)
Definition handover_scenario : list action :=
  [by_thread 1 (CallLockAcquire 0); by_thread 2 (CallLockAcquire 0);
   by_thread 1 (CallLockRelease 0); by_thread 2 (CallLockAcquireResume 0)].

(** Threads 1 (priority 20) and 2 (priority 30) have called [cond_wait] on
    condition 0 with lock 0, in this order, and are blocked on their
    semaphores; thread 0 then acquired lock 0. *)
Definition two_waiters_scenario : list action :=
  [by_thread 1 (CallLockAcquire 0); by_thread 1 (CallCondWait 0 0);
   by_thread 1 (CallCondWaitStep 0 CW_DOWN);
   by_thread 2 (CallLockAcquire 0); by_thread 2 (CallCondWait 0 0);
   by_thread 2 (CallCondWaitStep 0 CW_DOWN);
   by_thread 0 (CallLockAcquire 0)].

(** The state reached by [two_waiters_scenario], thread 0 running. *)
Definition kernel_two_cond_waiters : kernel :=
  with_cur 0%nat (snd (run two_waiters_scenario kernel_init)).

(** Thread 2 is blocked in [cond_wait] on condition 0.  Thread 0 holds lock 0
    and thread 1 is blocked in [lock_acquire] on it.  Thread 0 calls
    [cond_wait]: it queues its semaphore and releases the lock, which wakes
    thread 1 and yields to it before thread 0 has called [sema_down] on its
    own semaphore.  Thread 1 finishes [lock_acquire]. *)
Definition signal_race_scenario : list action :=
  [by_thread 2 (CallLockAcquire 0); by_thread 2 (CallCondWait 0 0);
   by_thread 2 (CallCondWaitStep 0 CW_DOWN);
   by_thread 0 (CallLockAcquire 0);
   by_thread 1 (CallLockAcquire 0);
   by_thread 0 (CallCondWait 0 0);
   by_thread 1 (CallLockAcquireResume 0)].

(** The state reached by [signal_race_scenario], thread 1 running. *)
Definition kernel_signal_race : kernel :=
  with_cur 1%nat (snd (run signal_race_scenario kernel_init)).

(** [kernel_init] with thread 2 at the lowest priority, 0. *)
Definition kernel_init_low_waiter : kernel :=
  modify_thread 2%nat (fun _ => fresh_thread 0) kernel_init.

(** Thread 0 (priority 10) takes lock 0 and calls [cond_wait]: it queues its
    semaphore and releases the lock, and is preempted before it has called
    [sema_down] on its own semaphore.  Thread 2 (priority 0) takes the lock,
    calls [cond_wait] and blocks on its semaphore.  Thread 1 takes the
    lock. *)
Definition early_waiter_scenario : list action :=
  [by_thread 0 (CallLockAcquire 0); by_thread 0 (CallCondWait 0 0);
   by_thread 2 (CallLockAcquire 0); by_thread 2 (CallCondWait 0 0);
   by_thread 2 (CallCondWaitStep 0 CW_DOWN);
   by_thread 1 (CallLockAcquire 0)].

(** The state reached by [early_waiter_scenario], thread 1 running. *)
Definition kernel_early_waiter : kernel :=
  with_cur 1%nat (snd (run early_waiter_scenario kernel_init_low_waiter)).

(** The kernel [k] with the word [w] in the memory beside every list head. *)
Definition with_word (w : Z) (k : kernel) : kernel := with_stray (fun _ _ => w) k.




(** ** Scenarios of the further properties *)

(** Thread [t] downs the semaphore [p], thread [u] ups it and thread [t]
    goes on in its [sema_down]. *)
Definition handoff_scenario (p : sema_ptr) (t u : tid) : list action :=
  [by_thread t (CallSemaDown p); by_thread u (CallSemaUp p);
   by_thread t (CallSemaDownResume p)].

(** Thread [t] initialises lock [l], takes it and gives it back. *)
Definition lock_cycle_scenario (l : lock_id) (t : tid) : list action :=
  [by_thread t (CallLockInit l); by_thread t (CallLockAcquire l);
   by_thread t (CallLockRelease l)].

(** The threads [ts] call [sema_down (p)] one after the other. *)
Definition downs_scenario (p : sema_ptr) (ts : list tid) : list action :=
  map (fun t => by_thread t (CallSemaDown p)) ts.

(** Thread 0 holds locks 0 and 1 and thread 1 is suspended in [lock_acquire]
    of lock 1; thread 2 is running. *)
Definition kernel_one_donor : kernel :=
  with_cur 2 (snd (run (firstn 3 donation_scenario) kernel_init)).

(** Thread 1 holds lock 0 and thread 2 is suspended in [lock_acquire] of it;
    thread 1 is running. *)
Definition kernel_lock_contended : kernel :=
  with_cur 1 (snd (run (firstn 2 handover_scenario) kernel_lock_initialised)).

(** Thread 1 has called [cond_wait] on condition 0 with lock 0 and has not
    yet called [sema_down] on its semaphore; thread 0 has taken the lock and
    is running. *)
Definition kernel_waiter_not_asleep : kernel :=
  with_cur 0%nat
    (snd (run [by_thread 1 (CallLockAcquire 0); by_thread 1 (CallCondWait 0 0);
               by_thread 0 (CallLockAcquire 0)] kernel_init)).

(** ** The self-test of the semaphores *)

(** The loop of [sema_self_test], run by the thread that called it after the
    two [sema_init] and [thread_create]:
<<
  for (i = 0; i < 10; i++)
    {
      sema_up (&sema[0]);
      sema_down (&sema[1]);
    }
>>
    as the sequence of its calls; [n] is the number of passes, 10 in the
    code. *)
Fixpoint sema_self_test_loop (sema0 sema1 : sema_ptr) (n : nat) : list call :=
  match n with
  | O => []
  | S n' => CallSemaUp sema0 :: CallSemaDown sema1 :: sema_self_test_loop sema0 sema1 n'
  end.

(** [sema_test_helper], the function of the thread that [sema_self_test]
    creates: [n] passes of [sema_down (&sema[0]); sema_up (&sema[1]);]. *)
Fixpoint sema_test_helper (sema0 sema1 : sema_ptr) (n : nat) : list call :=
  match n with
  | O => []
  | S n' => CallSemaDown sema0 :: CallSemaUp sema1 :: sema_test_helper sema0 sema1 n'
  end.

(** The number of passes of both loops. *)
Definition SELF_TEST_PASSES : nat := 10.

(** What a thread has left to do after its call [c] returned [r], [rest]
    being the calls that follow [c] in its program: a thread suspended inside
    [sema_down] goes on inside it. *)
Definition continue (c : call) (r : retval) (rest : list call) : list call :=
  match c, r with
  | CallSemaDown p, RetOutcome Blocked => CallSemaDownResume p :: rest
  | CallSemaDownResume p, RetOutcome Blocked => CallSemaDownResume p :: rest
  | _, _ => rest
  end.

(** Modelled from the spec: the scheduler is threads/thread.c, which is not
    part of the sources; the spec treats "the scheduler's run-queue selection
    and context switch" as an external collaborator.  Each thread runs the
    calls of its program in order.  [choices] is the sequence of threads that
    the scheduler picks; a thread that is blocked or has finished its program
    is passed over.  A failed assertion stops the kernel. *)
Fixpoint run_programs (choices : list tid) (progs : tid -> list call) (k : kernel)
  : res ((tid -> list call) * kernel) :=
  match choices with
  | [] => Ok (progs, k)
  | t :: rest =>
      match progs t, status (threads k t) with
      | c :: cs, THREAD_READY =>
          match step (by_thread t c) k with
          | Ok (r, k') => run_programs rest (upd progs t (continue c r cs)) k'
          | Fail f => Fail f
          end
      | _, _ => run_programs rest progs k
      end
  end.

(** The programs of the self-test: thread [m] runs the loop of
    [sema_self_test], thread [h] runs [sema_test_helper], the other threads
    make no call. *)
Definition self_test_programs (m h : tid) (sema0 sema1 : sema_ptr) (n : nat)
  : tid -> list call :=
  upd (upd (fun _ => []) m (sema_self_test_loop sema0 sema1 n)) h
      (sema_test_helper sema0 sema1 n).

(** The states of the self-test.  What the two threads have left to do, the
    two semaphores and the status of the two threads are related in one of
    twelve ways; [i] counts the passes that both threads have still to
    make in full. *)
Inductive ping_pong (m h : tid) (s0 s1 : sema_ptr)
  : list call -> list call -> semaphore -> semaphore
    -> thread_status -> thread_status -> Prop :=
| PpStart i :
    ping_pong m h s0 s1
      (sema_self_test_loop s0 s1 i) (sema_test_helper s0 s1 i)
      (mkSema 0 []) (mkSema 0 []) THREAD_READY THREAD_READY
| PpUpped i :
    ping_pong m h s0 s1
      (CallSemaDown s1 :: sema_self_test_loop s0 s1 i) (sema_test_helper s0 s1 (S i))
      (mkSema 1 []) (mkSema 0 []) THREAD_READY THREAD_READY
| PpHelperWaits i :
    ping_pong m h s0 s1
      (sema_self_test_loop s0 s1 (S i))
      (CallSemaDownResume s0 :: CallSemaUp s1 :: sema_test_helper s0 s1 i)
      (mkSema 0 [h]) (mkSema 0 []) THREAD_READY THREAD_BLOCKED
| PpHelperWoken i :
    ping_pong m h s0 s1
      (CallSemaDown s1 :: sema_self_test_loop s0 s1 i)
      (CallSemaDownResume s0 :: CallSemaUp s1 :: sema_test_helper s0 s1 i)
      (mkSema 1 []) (mkSema 0 []) THREAD_READY THREAD_READY
| PpMainWaitsEarly i :
    ping_pong m h s0 s1
      (CallSemaDownResume s1 :: sema_self_test_loop s0 s1 i) (sema_test_helper s0 s1 (S i))
      (mkSema 1 []) (mkSema 0 [m]) THREAD_BLOCKED THREAD_READY
| PpMainWaitsHelperWoken i :
    ping_pong m h s0 s1
      (CallSemaDownResume s1 :: sema_self_test_loop s0 s1 i)
      (CallSemaDownResume s0 :: CallSemaUp s1 :: sema_test_helper s0 s1 i)
      (mkSema 1 []) (mkSema 0 [m]) THREAD_BLOCKED THREAD_READY
| PpHelperDowned i :
    ping_pong m h s0 s1
      (CallSemaDown s1 :: sema_self_test_loop s0 s1 i)
      (CallSemaUp s1 :: sema_test_helper s0 s1 i)
      (mkSema 0 []) (mkSema 0 []) THREAD_READY THREAD_READY
| PpMainWaits i :
    ping_pong m h s0 s1
      (CallSemaDownResume s1 :: sema_self_test_loop s0 s1 i)
      (CallSemaUp s1 :: sema_test_helper s0 s1 i)
      (mkSema 0 []) (mkSema 0 [m]) THREAD_BLOCKED THREAD_READY
| PpAnswered i :
    ping_pong m h s0 s1
      (CallSemaDown s1 :: sema_self_test_loop s0 s1 i) (sema_test_helper s0 s1 i)
      (mkSema 0 []) (mkSema 1 []) THREAD_READY THREAD_READY
| PpMainWoken i :
    ping_pong m h s0 s1
      (CallSemaDownResume s1 :: sema_self_test_loop s0 s1 i) (sema_test_helper s0 s1 i)
      (mkSema 0 []) (mkSema 1 []) THREAD_READY THREAD_READY
| PpAnsweredHelperWaits i :
    ping_pong m h s0 s1
      (CallSemaDown s1 :: sema_self_test_loop s0 s1 (S i))
      (CallSemaDownResume s0 :: CallSemaUp s1 :: sema_test_helper s0 s1 i)
      (mkSema 0 [h]) (mkSema 1 []) THREAD_READY THREAD_BLOCKED
| PpMainWokenHelperWaits i :
    ping_pong m h s0 s1
      (CallSemaDownResume s1 :: sema_self_test_loop s0 s1 (S i))
      (CallSemaDownResume s0 :: CallSemaUp s1 :: sema_test_helper s0 s1 i)
      (mkSema 0 [h]) (mkSema 1 []) THREAD_READY THREAD_BLOCKED.

(** The state of the self-test in the kernel [k] with the programs [progs].
    The threads other than [m] and [h] make no call. *)
Definition self_test_inv (m h : tid) (s0 s1 : sema_ptr)
  (progs : tid -> list call) (k : kernel) : Prop :=
  ping_pong m h s0 s1 (progs m) (progs h) (get_sema k s0) (get_sema k s1)
            (status (threads k m)) (status (threads k h))
  /\ forall t, t <> m -> t <> h -> progs t = [].

(** The scheduler picks the two threads in turn, [n] times each. *)
Fixpoint alternate (m h : tid) (n : nat) : list tid :=
  match n with
  | O => []
  | S n' => m :: h :: alternate m h n'
  end.

(** What a program still costs: a [sema_down] counts twice, once for the
    suspension that it may cause and once for its return. *)
Fixpoint work (prog : list call) : nat :=
  match prog with
  | [] => 0
  | CallSemaDown _ :: rest => 2 + work rest
  | _ :: rest => 1 + work rest
  end.

(** The work left to the two threads of the self-test. *)
Definition remaining_work (m h : tid) (progs : tid -> list call) : nat :=
  (work (progs m) + work (progs h))%nat.

(** The first lines of [sema_self_test]:
    [sema_init (&sema[0], 0); sema_init (&sema[1], 0);]. *)
Definition sema_self_test_init (sema0 sema1 : sema_ptr) : M unit :=
  sema_init sema0 0 ;; sema_init sema1 0.

Arguments alternate (m h n)%_nat.
Arguments self_test_programs (m h)%_nat sema0 sema1 n%_nat.

(** * Properties *)

(** Inversion of an equation between two results. *)
Ltac inv_ok H := injection H; clear H; intros; subst.

(** ** Stores and unsigned arithmetic *)

Lemma upd_same {A} (f : nat -> A) i a : upd f i a i = a.
Proof. unfold upd. now rewrite Nat.eqb_refl. Qed.

Lemma upd_other {A} (f : nat -> A) i j a : j <> i -> upd f i a j = f j.
Proof.
  intros H. unfold upd. destruct (Nat.eqb_spec j i); [contradiction | reflexivity].
Qed.

Lemma UINT_MODULUS_pos : 0 < UINT_MODULUS.
Proof. reflexivity. Qed.

Lemma wrap32_range z : 0 <= wrap32 z < UINT_MODULUS.
Proof. unfold wrap32. apply Z.mod_pos_bound, UINT_MODULUS_pos. Qed.

Lemma wrap32_small z : 0 <= z < UINT_MODULUS -> wrap32 z = z.
Proof. intros H. unfold wrap32. now apply Z.mod_small. Qed.

Lemma get_set_sema_same p s k : get_sema (set_sema p s k) p = s.
Proof. destruct p; simpl; now rewrite upd_same. Qed.

Lemma get_set_sema_other p q s k : p <> q -> get_sema (set_sema p s k) q = get_sema k q.
Proof.
  intros H. destruct p, q; simpl; try reflexivity;
    rewrite upd_other; try reflexivity; congruence.
Qed.

(** ** The donation walk changes effective priorities only, and only upwards *)

Lemma same_but_priority_refl k : same_but_priority k k.
Proof. constructor; intros; try reflexivity; lia. Qed.

Lemma same_but_priority_trans k1 k2 k3 :
  same_but_priority k1 k2 -> same_but_priority k2 k3 -> same_but_priority k1 k3.
Proof.
  intros [] []. constructor; intros; try congruence.
  match goal with
  | H1 : forall t, priority (threads k1 t) <= _,
    H2 : forall t, priority (threads k2 t) <= _ |- _ =>
      specialize (H1 t); specialize (H2 t); lia
  end.
Qed.

Lemma raise_same_but_priority k h p :
  priority (threads k h) < p ->
  same_but_priority k (modify_thread h (set_priority p) k).
Proof.
  intros Hlt. constructor; simpl; try reflexivity; intros t;
    unfold upd; destruct (Nat.eqb_spec t h); subst; simpl; try reflexivity; lia.
Qed.

Lemma donate_along_same_but_priority fuel : forall p t k,
  same_but_priority k (donate_along fuel p t k).
Proof.
  induction fuel as [|fuel IH]; intros p t k; simpl.
  - apply same_but_priority_refl.
  - destruct (waiting_lock (threads k t)) as [l|]; [|apply same_but_priority_refl].
    destruct (holder (locks k l)) as [h|]; [|apply same_but_priority_refl].
    eapply same_but_priority_trans; [|apply IH].
    destruct (Z.ltb_spec (priority (threads k h)) p).
    + now apply raise_same_but_priority.
    + apply same_but_priority_refl.
Qed.

Lemma thread_try_donate_priority_ok k :
  exists k', thread_try_donate_priority k = Ok (tt, k') /\ same_but_priority k k'.
Proof.
  eexists. split; [reflexivity|]. apply donate_along_same_but_priority.
Qed.

Lemma same_but_priority_get_sema k k' p :
  same_but_priority k k' -> get_sema k' p = get_sema k p.
Proof. intros []. destruct p; simpl; congruence. Qed.

(** ** Maximum by priority *)

Lemma list_max_from_priority k l : forall m,
  exists w, list_max_from (priority_less_func k) m l = Ok w
            /\ In w (m :: l)
            /\ forall t, In t (m :: l) -> prio k t <= prio k w.
Proof.
  unfold prio.
  induction l as [|e l IH]; intros m; simpl.
  - exists m. split; [reflexivity|]. split; [now left|].
    intros t [->|[]]. lia.
  - destruct (Z.ltb_spec (priority (threads k m)) (priority (threads k e))) as [Hlt|Hge].
    + destruct (IH e) as (w & Hw & Hin & Hmax). exists w.
      split; [exact Hw|]. split; [now right|].
      intros t [->|Ht]; [|now apply Hmax].
      specialize (Hmax e (or_introl eq_refl)). lia.
    + destruct (IH m) as (w & Hw & Hin & Hmax). exists w.
      split; [exact Hw|]. split.
      * destruct Hin as [->|Hin]; [now left | now right; right].
      * intros t [->|[->|Ht]].
        -- apply Hmax. now left.
        -- specialize (Hmax m (or_introl eq_refl)). lia.
        -- apply Hmax. now right.
Qed.

Lemma list_max_priority k l :
  l <> [] ->
  exists w, list_max (priority_less_func k) l = Ok (Some w)
            /\ In w l
            /\ forall t, In t l -> prio k t <= prio k w.
Proof.
  destruct l as [|x l]; [congruence|]. intros _. simpl.
  destruct (list_max_from_priority k l x) as (w & -> & Hin & Hmax).
  now exists w.
Qed.

Lemma list_max_priority_only k k' l :
  (forall t, prio k' t = prio k t) ->
  list_max (priority_less_func k') l = list_max (priority_less_func k) l.
Proof.
  intros H. destruct l as [|x l]; [reflexivity|]. simpl.
  enough (E : forall m, list_max_from (priority_less_func k') m l
                        = list_max_from (priority_less_func k) m l) by now rewrite E.
  induction l as [|e l IH]; intros m; simpl; [reflexivity|].
  unfold prio in H. now rewrite !H, IH.
Qed.

(** ** Projections through the store updates *)

Lemma threads_set_sema p s k : threads (set_sema p s k) = threads k.
Proof. destruct p; reflexivity. Qed.
Lemma cur_set_sema p s k : cur (set_sema p s k) = cur k.
Proof. destruct p; reflexivity. Qed.
Lemma in_intr_set_sema p s k : in_intr (set_sema p s k) = in_intr k.
Proof. destruct p; reflexivity. Qed.
Lemma sched_set_sema p s k : sched (set_sema p s k) = sched k.
Proof. destruct p; reflexivity. Qed.
Lemma conds_set_sema p s k : conds (set_sema p s k) = conds k.
Proof. destruct p; reflexivity. Qed.
Lemma holder_set_sema p s k l : holder (locks (set_sema p s k) l) = holder (locks k l).
Proof.
  destruct p; simpl; try reflexivity.
  unfold upd. destruct (Nat.eqb_spec l l0); subst; reflexivity.
Qed.
Lemma get_sema_modify_thread t f k p : get_sema (modify_thread t f k) p = get_sema k p.
Proof. destruct p; reflexivity. Qed.
Lemma get_sema_with_sched s k p : get_sema (with_sched s k) p = get_sema k p.
Proof. destruct p; reflexivity. Qed.
Lemma get_sema_with_cur t k p : get_sema (with_cur t k) p = get_sema k p.
Proof. destruct p; reflexivity. Qed.
Lemma get_sema_with_in_intr b k p : get_sema (with_in_intr b k) p = get_sema k p.
Proof. destruct p; reflexivity. Qed.
Lemma get_sema_tick k p : get_sema (tick k) p = get_sema k p.
Proof. destruct p; reflexivity. Qed.
Lemma get_sema_set_holder l h k p : get_sema (set_holder l h k) p = get_sema k p.
Proof.
  destruct p; simpl; try reflexivity.
  unfold upd. destruct (Nat.eqb_spec l0 l); subst; reflexivity.
Qed.
Lemma get_sema_set_cond_waiters c ws k p : get_sema (set_cond_waiters c ws k) p = get_sema k p.
Proof. destruct p; reflexivity. Qed.
Lemma holder_set_holder l h k l' :
  holder (locks (set_holder l h k) l') = if Nat.eqb l' l then h else holder (locks k l').
Proof. simpl. unfold upd. destruct (Nat.eqb l' l); reflexivity. Qed.

Create Rewrite HintDb kern.
#[local] Hint Rewrite threads_set_sema cur_set_sema in_intr_set_sema sched_set_sema
  conds_set_sema holder_set_sema get_sema_modify_thread get_sema_with_sched
  get_sema_with_cur get_sema_with_in_intr get_sema_tick get_sema_set_holder
  get_sema_set_cond_waiters get_set_sema_same : kern.

(** ** What [sema_up] does *)

Lemma sema_up_ok p k :
  exists k', sema_up p k = Ok (tt, k') /\ sema_up_post p k (highest_waiter k p) k'.
Proof.
  unfold sema_up, highest_waiter, bind, gets.
  destruct (waiters (get_sema k p)) as [|x ws] eqn:Ews.
  - simpl. eexists. split; [reflexivity|].
    constructor; autorewrite with kern; try reflexivity.
    + intros q Hq. now apply get_set_sema_other.
    + intros l. now autorewrite with kern.
    + now rewrite app_nil_r.
  - destruct (list_max_priority k (x :: ws) ltac:(congruence)) as (w & Hw & Hin & Hmax).
    unfold lift. cbn [list_empty negb]. rewrite Hw.
    unfold thread_unblock, thread_yield, thread_current, bind, gets, modify, ret.
    cbn beta iota.
    set (k0 := set_sema p _ k).
    set (k1 := with_sched _ _).
    set (k2 := set_sema p _ k1).
    assert (Hths : forall t, threads k2 t = wake (Some w) k t).
    { intros t. subst k2 k1 k0. autorewrite with kern. simpl.
      autorewrite with kern. unfold upd.
      destruct (Nat.eqb_spec t w); subst; reflexivity. }
    assert (Hcur : cur k2 = cur k).
    { subst k2 k1 k0. autorewrite with kern. simpl. now autorewrite with kern. }
    assert (Hpc : priority (threads k2 (cur k2)) = prio k (cur k)).
    { rewrite Hths, Hcur. unfold prio, wake.
      destruct (Nat.eqb (cur k) w); reflexivity. }
    assert (Hph : priority (threads k2 w) = prio k w).
    { rewrite Hths. unfold prio, wake. now rewrite Nat.eqb_refl. }
    rewrite Hpc, Hph.
    assert (Hsema : get_sema k2 p = mkSema (wrap32 (value (get_sema k p) + 1))
                                          (list_remove w (x :: ws))).
    { subst k2 k1 k0. now autorewrite with kern. }
    assert (Hother : forall q, q <> p -> get_sema k2 q = get_sema k q).
    { intros q Hq. subst k2 k1 k0. rewrite get_set_sema_other by congruence.
      autorewrite with kern. now apply get_set_sema_other. }
    assert (Hholder : forall l, holder (locks k2 l) = holder (locks k l)).
    { intros l. subst k2 k1 k0. autorewrite with kern. simpl. now autorewrite with kern. }
    assert (Hconds : conds k2 = conds k).
    { subst k2 k1 k0. autorewrite with kern. simpl. now autorewrite with kern. }
    assert (Hintr : in_intr k2 = in_intr k).
    { subst k2 k1 k0. autorewrite with kern. simpl. now autorewrite with kern. }
    assert (Hsched : sched k2 = sched k ++ [EvUnblock w]).
    { subst k2 k1 k0. autorewrite with kern. simpl. now autorewrite with kern. }
    destruct (prio k (cur k) <? prio k w) eqn:Hlt; eexists; (split; [reflexivity|]);
      constructor; autorewrite with kern; simpl; auto;
      rewrite ?Hlt, ?Ews, ?Hsched, ?Hcur, <- ?app_assoc; auto.
Qed.

Lemma list_remove_length w l :
  In w l -> (length (list_remove w l) + 1 = length l)%nat.
Proof.
  induction l as [|x l IH]; simpl; [intros []|].
  intros Hin. destruct (Nat.eqb_spec x w) as [->|Hne].
  - lia.
  - destruct Hin as [->|Hin]; [congruence|]. simpl. rewrite <- (IH Hin). lia.
Qed.

(** ** Semaphores: [sema_up] and [sema_try_down] *)

(** C2.  When the waiter list of a semaphore is not empty, [sema_up] removes
    from it exactly one thread [w] whose priority is maximal among the
    waiters, unblocks [w] and no other thread, and then increments the value
    (as an [unsigned]).  The priority of the thread woken is the same for any
    other arrival order of the same waiters. *)
Theorem sema_up_wakes_highest_priority_waiter (p : sema_ptr) (k : kernel) :
  waiters (get_sema k p) <> [] ->
  exists w k',
    sema_up p k = Ok (tt, k') /\
    In w (waiters (get_sema k p)) /\
    (forall t, In t (waiters (get_sema k p)) -> prio k t <= prio k w) /\
    waiters (get_sema k' p) = list_remove w (waiters (get_sema k p)) /\
    (length (waiters (get_sema k' p)) + 1 = length (waiters (get_sema k p)))%nat /\
    value (get_sema k' p) = wrap32 (value (get_sema k p) + 1) /\
    (value (get_sema k p) + 1 < UINT_MODULUS -> 0 <= value (get_sema k p) ->
     value (get_sema k' p) = value (get_sema k p) + 1) /\
    status (threads k' w) = THREAD_READY /\
    (forall t, t <> w -> threads k' t = threads k t) /\
    sched k' = sched k ++ EvUnblock w ::
                 (if prio k (cur k) <? prio k w then [EvYield (cur k)] else []) /\
    (forall k2,
        (forall t, prio k2 t = prio k t) ->
        Permutation (waiters (get_sema k2 p)) (waiters (get_sema k p)) ->
        exists w2 k2',
          sema_up p k2 = Ok (tt, k2') /\
          waiters (get_sema k2' p) = list_remove w2 (waiters (get_sema k2 p)) /\
          status (threads k2' w2) = THREAD_READY /\
          prio k w2 = prio k w).
Proof.
  intros Hne.
  assert (Hw : forall k0, waiters (get_sema k0 p) <> [] ->
             exists w, highest_waiter k0 p = Some w /\ In w (waiters (get_sema k0 p))
                       /\ forall t, In t (waiters (get_sema k0 p)) -> prio k0 t <= prio k0 w).
  { intros k0 H0. unfold highest_waiter.
    destruct (list_max_priority k0 _ H0) as (w & -> & Hin & Hmax). now exists w. }
  destruct (Hw k Hne) as (w & Ew & Hin & Hmax).
  destruct (sema_up_ok p k) as (k' & Hrun & Hpost). rewrite Ew in Hpost.
  destruct Hpost as [Hsema _ _ _ _ _ Hths Hsched].
  exists w, k'. repeat split; auto.
  - now rewrite Hsema.
  - rewrite Hsema. simpl. now apply list_remove_length.
  - now rewrite Hsema.
  - intros Hlt Hge. rewrite Hsema. simpl. apply wrap32_small. lia.
  - rewrite Hths. simpl. now rewrite Nat.eqb_refl.
  - intros t Ht. rewrite Hths. simpl.
    destruct (Nat.eqb_spec t w); [contradiction | reflexivity].
  - intros k2 Hprio Hperm.
    assert (Hne2 : waiters (get_sema k2 p) <> []).
    { intros E. rewrite E in Hperm. apply Permutation_nil in Hperm. contradiction. }
    destruct (Hw k2 Hne2) as (w2 & Ew2 & Hin2 & Hmax2).
    destruct (sema_up_ok p k2) as (k2' & Hrun2 & Hpost2). rewrite Ew2 in Hpost2.
    destruct Hpost2 as [Hsema2 _ _ _ _ _ Hths2 _].
    exists w2, k2'. repeat split; auto.
    + now rewrite Hsema2.
    + rewrite Hths2. simpl. now rewrite Nat.eqb_refl.
    + assert (H1 : prio k w2 <= prio k w).
      { apply Hmax. eapply Permutation_in; eauto. }
      assert (H2 : prio k2 w <= prio k2 w2).
      { apply Hmax2. eapply Permutation_in; [apply Permutation_sym|]; eauto. }
      rewrite !Hprio in H2. lia.
Qed.

Lemma sema_up_wakes_highest_priority_waiter_witness :
  exists w k',
    sema_up (SemaAt 0) kernel_three_waiters = Ok (tt, k') /\
    prio kernel_three_waiters w = 30 /\
    waiters (get_sema k' (SemaAt 0)) = [0; 1]%nat.
Proof.
  destruct (sema_up_wakes_highest_priority_waiter (SemaAt 0) kernel_three_waiters)
    as (w & k' & Hrun & Hin & Hmax & Hws & _).
  - simpl. discriminate.
  - exists w, k'. split; [exact Hrun|].
    assert (Hw : w = 2%nat).
    { specialize (Hmax 2%nat (or_intror (or_introl eq_refl))).
      simpl in Hin. destruct Hin as [<-|[<-|[<-|[]]]]; try reflexivity;
        vm_compute in Hmax; exfalso; apply Hmax; reflexivity. }
    subst w. split; [reflexivity|]. rewrite Hws. reflexivity.
Defined.

(** C6.  [sema_try_down] returns true and decrements the value exactly when
    the value is positive; otherwise it runs the donation step, leaves the
    value as it is and returns false.  In both cases it returns a boolean (it
    never fails), the waiter list is unchanged, no thread changes status and
    the scheduler is not called: the caller is not suspended. *)
Theorem sema_try_down_spec (p : sema_ptr) (k : kernel) :
  sema_wf (get_sema k p) ->
  exists k',
    sema_try_down p k = Ok (0 <? value (get_sema k p), k') /\
    (if 0 <? value (get_sema k p)
     then value (get_sema k' p) = value (get_sema k p) - 1 /\ threads k' = threads k
     else thread_try_donate_priority k = Ok (tt, k') /\
          value (get_sema k' p) = value (get_sema k p)) /\
    waiters (get_sema k' p) = waiters (get_sema k p) /\
    (forall t, status (threads k' t) = status (threads k t)) /\
    sched k' = sched k.
Proof.
  intros [Hlo Hhi]. unfold sema_try_down, bind, gets.
  destruct (Z.ltb_spec 0 (value (get_sema k p))) as [Hpos|Hzero].
  - eexists. split; [reflexivity|]. unfold modify, ret.
    autorewrite with kern. simpl. repeat split; auto.
    apply wrap32_small. lia.
  - destruct (thread_try_donate_priority_ok k) as (k' & Hd & Hsame).
    exists k'. rewrite Hd. unfold ret.
    pose proof (same_but_priority_get_sema _ _ p Hsame) as Hs.
    destruct Hsame. repeat split; auto; now rewrite Hs.
Qed.

Lemma sema_try_down_spec_witness :
  (exists k', sema_try_down (LockSema 0) kernel_init = Ok (true, k')
              /\ value (get_sema k' (LockSema 0)) = 0)
  /\ (exists k', sema_try_down (SemaAt 0) kernel_init = Ok (false, k')
                 /\ value (get_sema k' (SemaAt 0)) = 0).
Proof.
  split.
  - destruct (sema_try_down_spec (LockSema 0) kernel_init) as (k' & Hrun & Hval & _).
    + unfold sema_wf. simpl. unfold UINT_MODULUS. lia.
    + exists k'. simpl in Hrun, Hval. split; [exact Hrun | apply Hval].
  - destruct (sema_try_down_spec (SemaAt 0) kernel_init) as (k' & Hrun & Hval & _).
    + unfold sema_wf. simpl. unfold UINT_MODULUS. lia.
    + exists k'. simpl in Hrun, Hval. split; [exact Hrun | apply Hval].
Defined.

(** ** [lock_release] *)

Lemma threads_modify_thread t f k u :
  threads (modify_thread t f k) u = if Nat.eqb u t then f (threads k t) else threads k u.
Proof. reflexivity. Qed.

Lemma purge_donations_ext k k' l es : forall ds,
  (forall t, waits_for k' l t = waits_for k l t) ->
  purge_donations k' l es ds = purge_donations k l es ds.
Proof.
  induction es as [|e es IH]; intros ds H; simpl; [reflexivity|].
  now rewrite H, IH.
Qed.

Lemma lock_release_ok l k :
  holder (locks k l) = Some (cur k) ->
  exists k1 k2,
    released_state l k k1 /\
    sema_up (LockSema l) k1 = Ok (tt, k2) /\
    lock_release l k =
    Ok (tt, if original_priority (threads k (cur k)) <? priority (threads k (cur k))
            then with_sched (sched k2 ++ [EvYield (cur k)]) k2
            else k2).
Proof.
  intros Hheld.
  unfold lock_release, lock_held_by_current_thread, thread_current, bind, gets.
  rewrite Hheld, Nat.eqb_refl. cbn [ASSERT ret modify].
  change (cur (set_holder l None k)) with (cur k).
  set (k1 := set_holder l None k).
  set (ds := donations (threads k1 (cur k))).
  assert (Hds : purge_donations k1 l ds ds = remaining_donors k l).
  { unfold remaining_donors. now apply purge_donations_ext. }
  rewrite Hds.
  set (k2 := modify_thread (cur k) (set_donations (remaining_donors k l)) k1).
  change (cur k2) with (cur k).
  assert (Hth2 : threads k2 (cur k) = set_donations (remaining_donors k l) (threads k (cur k))).
  { subst k2 k1. simpl. now rewrite upd_same. }
  rewrite Hth2. cbn [original_priority priority donations set_donations].
  set (base := original_priority (threads k (cur k))).
  set (k3 := modify_thread (cur k) (set_priority base) k2).
  assert (Hk3 : forall t, priority (threads k3 t)
                          = if Nat.eqb t (cur k) then base else prio k t).
  { intros t. subst k3 k2 k1. simpl. unfold upd, prio.
    destruct (Nat.eqb_spec t (cur k)); subst; reflexivity. }
  assert (Hfin : forall k4,
             (forall t, threads k4 t =
                        if Nat.eqb t (cur k)
                        then set_priority (released_priority k l) (threads k3 t)
                        else threads k3 t) ->
             locks k4 = locks k3 -> semas k4 = semas k3 -> conds k4 = conds k3 ->
             waiter_frames k4 = waiter_frames k3 -> cur k4 = cur k ->
             in_intr k4 = in_intr k -> sched k4 = sched k ->
             released_state l k k4).
  { intros k4 Hths Hl Hs Hc Hw Hcu Hi Hsc.
    constructor; auto.
    - intros t. rewrite Hths. subst k3 k2 k1. simpl. unfold upd.
      destruct (Nat.eqb_spec t (cur k)) as [E|E]; [rewrite E, Nat.eqb_refl|];
        reflexivity.
    - intros l'. rewrite Hl. subst k3 k2 k1. simpl. unfold upd.
      destruct (Nat.eqb l' l); reflexivity.
    - intros p. destruct p; simpl; rewrite ?Hl, ?Hs, ?Hw; subst k3 k2 k1; simpl;
        try reflexivity.
      unfold upd. destruct (Nat.eqb_spec l0 l); subst; reflexivity. }
  unfold released_priority in Hfin. fold base in Hfin.
  destruct (remaining_donors k l) as [|d rest] eqn:Erem; cbn [list_empty negb list_front] in *.
  - destruct (sema_up_ok (LockSema l) k3) as (k5 & Hup & Hpost).
    exists k3, k5. split; [|split; [exact Hup|]].
    + apply Hfin; try reflexivity.
      intros t. destruct (Nat.eqb_spec t (cur k)); [|reflexivity].
      subst t. subst k3. simpl. now rewrite upd_same.
    + unfold ret. rewrite Hup.
      destruct (base <? priority (threads k (cur k))); [|reflexivity].
      unfold thread_yield, thread_current, bind, gets, modify.
      now rewrite (sup_cur _ _ _ _ Hpost).
  - rewrite Hk3.
    destruct (base <? (if Nat.eqb d (cur k) then base else prio k d)) eqn:Hlt.
    + unfold modify at 1. cbn beta iota.
      set (k4 := modify_thread (cur k) (set_priority _) k3).
      destruct (sema_up_ok (LockSema l) k4) as (k5 & Hup & Hpost).
      exists k4, k5. split; [|split; [exact Hup|]].
      * apply Hfin; try reflexivity.
        intros t. subst k4. rewrite threads_modify_thread.
        destruct (Nat.eqb_spec t (cur k)) as [E|E]; [rewrite E|]; reflexivity.
      * unfold modify, ret. rewrite Hup.
        destruct (base <? priority (threads k (cur k))); [|reflexivity].
        unfold thread_yield, thread_current, bind, gets, modify.
        now rewrite (sup_cur _ _ _ _ Hpost).
    + destruct (sema_up_ok (LockSema l) k3) as (k5 & Hup & Hpost).
      exists k3, k5. split; [|split; [exact Hup|]].
      * apply Hfin; try reflexivity.
        intros t. destruct (Nat.eqb_spec t (cur k)); [|reflexivity].
        subst t. subst k3. simpl. now rewrite upd_same.
      * unfold ret. rewrite Hup.
        destruct (base <? priority (threads k (cur k))); [|reflexivity].
        unfold thread_yield, thread_current, bind, gets, modify.
        now rewrite (sup_cur _ _ _ _ Hpost).
Qed.

Lemma wake_fields woken k t :
  priority (wake woken k t) = priority (threads k t) /\
  original_priority (wake woken k t) = original_priority (threads k t) /\
  donations (wake woken k t) = donations (threads k t) /\
  waiting_lock (wake woken k t) = waiting_lock (threads k t).
Proof.
  unfold wake. destruct woken as [w|]; [destruct (Nat.eqb t w)|]; simpl; auto.
Qed.

(** What [lock_release] leaves in the thread structs. *)
Lemma lock_release_threads l k :
  holder (locks k l) = Some (cur k) ->
  exists k',
    lock_release l k = Ok (tt, k') /\
    holder (locks k' l) = None /\
    (forall l', l' <> l -> holder (locks k' l') = holder (locks k l')) /\
    priority (threads k' (cur k)) = released_priority k l /\
    donations (threads k' (cur k)) = remaining_donors k l /\
    (forall t, t <> cur k -> priority (threads k' t) = priority (threads k t)) /\
    (forall t, t <> cur k -> donations (threads k' t) = donations (threads k t)) /\
    (forall t, waiting_lock (threads k' t) = waiting_lock (threads k t)) /\
    (forall t, original_priority (threads k' t) = original_priority (threads k t)) /\
    cur k' = cur k /\ conds k' = conds k /\
    (forall p, p <> LockSema l -> get_sema k' p = get_sema k p).
Proof.
  intros Hheld.
  destruct (lock_release_ok l k Hheld) as (k1 & k2 & Hrs & Hup & Hrun).
  destruct (sema_up_ok (LockSema l) k1) as (k2' & Hup' & Hpost).
  rewrite Hup in Hup'. injection Hup' as <-.
  destruct Hrs as [Hths Hhold Hsema Hconds Hcur Hintr Hsched].
  destruct Hpost as [_ Hother Hhold2 Hconds2 Hcur2 _ Hths2 _].
  set (k' := if original_priority (threads k (cur k)) <? priority (threads k (cur k))
             then with_sched (sched k2 ++ [EvYield (cur k)]) k2 else k2) in *.
  assert (Hthreads : threads k' = threads k2) by (subst k'; now destruct (_ <? _)).
  assert (Hlocks : locks k' = locks k2) by (subst k'; now destruct (_ <? _)).
  assert (Hgs : forall p, get_sema k' p = get_sema k2 p).
  { intros p. subst k'. destruct (_ <? _); [apply get_sema_with_sched | reflexivity]. }
  exists k'. split; [exact Hrun|].
  assert (Hfield : forall t, threads k' t = wake (highest_waiter k1 (LockSema l)) k1 t).
  { intros t. now rewrite Hthreads, Hths2. }
  repeat split.
  - rewrite Hlocks, Hhold2, Hhold. now rewrite Nat.eqb_refl.
  - intros l' Hne. rewrite Hlocks, Hhold2, Hhold.
    destruct (Nat.eqb_spec l' l); [contradiction | reflexivity].
  - rewrite Hfield. destruct (wake_fields (highest_waiter k1 (LockSema l)) k1 (cur k))
      as (-> & _). rewrite Hths, Nat.eqb_refl. reflexivity.
  - rewrite Hfield. destruct (wake_fields (highest_waiter k1 (LockSema l)) k1 (cur k))
      as (_ & _ & -> & _). rewrite Hths, Nat.eqb_refl. reflexivity.
  - intros t Hne. rewrite Hfield.
    destruct (wake_fields (highest_waiter k1 (LockSema l)) k1 t) as (-> & _).
    rewrite Hths. destruct (Nat.eqb_spec t (cur k)); [contradiction | reflexivity].
  - intros t Hne. rewrite Hfield.
    destruct (wake_fields (highest_waiter k1 (LockSema l)) k1 t) as (_ & _ & -> & _).
    rewrite Hths. destruct (Nat.eqb_spec t (cur k)); [contradiction | reflexivity].
  - intros t. rewrite Hfield.
    destruct (wake_fields (highest_waiter k1 (LockSema l)) k1 t) as (_ & _ & _ & ->).
    rewrite Hths. destruct (Nat.eqb_spec t (cur k)); subst; reflexivity.
  - intros t. rewrite Hfield.
    destruct (wake_fields (highest_waiter k1 (LockSema l)) k1 t) as (_ & -> & _).
    rewrite Hths. destruct (Nat.eqb_spec t (cur k)); subst; reflexivity.
  - subst k'. destruct (_ <? _); simpl; congruence.
  - subst k'. destruct (_ <? _); simpl; congruence.
  - intros p Hp. rewrite Hgs, Hother by assumption. apply Hsema.
Qed.

(** The loop over the donation list is a filter. *)
Lemma list_remove_app_notin e kept r :
  ~ In e kept -> list_remove e (kept ++ e :: r) = kept ++ r.
Proof.
  induction kept as [|x kept IH]; simpl; intros Hnot.
  - now rewrite Nat.eqb_refl.
  - destruct (Nat.eqb_spec x e) as [->|Hne]; [tauto|].
    rewrite IH; tauto.
Qed.

Lemma purge_donations_filter k l es : forall kept,
  (forall x, In x kept -> waits_for k l x = false) ->
  purge_donations k l es (kept ++ es)
  = kept ++ filter (fun t => negb (waits_for k l t)) es.
Proof.
  induction es as [|e es IH]; intros kept Hkept; simpl; [reflexivity|].
  destruct (waits_for k l e) eqn:He; simpl.
  - rewrite list_remove_app_notin.
    + now apply IH.
    + intros Hin. apply Hkept in Hin. congruence.
  - change (kept ++ e :: es) with (kept ++ [e] ++ es). rewrite app_assoc.
    rewrite IH.
    + now rewrite <- app_assoc.
    + intros x Hx. apply in_app_or in Hx. destruct Hx as [Hx|[<-|[]]]; auto.
Qed.

Lemma remaining_donors_filter k l :
  remaining_donors k l
  = filter (fun t => negb (waits_for k l t)) (donations (threads k (cur k))).
Proof.
  unfold remaining_donors. apply (purge_donations_filter k l _ []). intros x [].
Qed.

Lemma waits_for_true k l t : waits_for k l t = true <-> waiting_lock (threads k t) = Some l.
Proof.
  unfold waits_for. destruct (waiting_lock (threads k t)) as [l'|].
  - destruct (Nat.eqb_spec l' l); split; intros H; try congruence.
  - split; intros H; discriminate.
Qed.

(** C7.  [lock_release] removes from the donation list of the releasing
    thread exactly the entries whose thread has [waiting_lock] equal to the
    lock released: what is left is the old list, in its order, without these
    entries.  The [waiting_lock] of every thread and the donation lists of the
    other threads are unchanged. *)
Theorem lock_release_purges_donors_of_this_lock (l : lock_id) (k : kernel) :
  holder (locks k l) = Some (cur k) ->
  exists k',
    lock_release l k = Ok (tt, k') /\
    donations (threads k' (cur k))
    = filter (fun t => negb (waits_for k l t)) (donations (threads k (cur k))) /\
    (forall t, In t (donations (threads k' (cur k))) <->
               In t (donations (threads k (cur k)))
               /\ waiting_lock (threads k t) <> Some l) /\
    (forall t, waiting_lock (threads k' t) = waiting_lock (threads k t)) /\
    (forall t, t <> cur k -> donations (threads k' t) = donations (threads k t)).
Proof.
  intros Hheld.
  destruct (lock_release_threads l k Hheld)
    as (k' & Hrun & _ & _ & _ & Hdon & _ & Hdon' & Hwl & _).
  exists k'. rewrite Hdon, remaining_donors_filter.
  repeat split; auto.
  - apply filter_In in H. tauto.
  - apply filter_In in H. destruct H as [_ H]. rewrite <- waits_for_true.
    destruct (waits_for k l t); [discriminate | congruence].
  - intros [Hin Hne]. apply filter_In. split; [exact Hin|].
    rewrite <- waits_for_true in Hne. now destruct (waits_for k l t).
Qed.

Lemma lock_release_purges_donors_of_this_lock_witness :
  exists k',
    lock_release 0 kernel_two_locks_two_donors = Ok (tt, k') /\
    donations (threads kernel_two_locks_two_donors 0%nat) = [2; 1]%nat /\
    donations (threads k' 0%nat) = [2]%nat.
Proof.
  destruct (lock_release_purges_donors_of_this_lock 0%nat kernel_two_locks_two_donors)
    as (k' & Hrun & Hdon & _).
  - reflexivity.
  - exists k'. split; [exact Hrun|]. split; [reflexivity|].
    change (cur kernel_two_locks_two_donors) with 0%nat in Hdon.
    rewrite Hdon. reflexivity.
Defined.

(** ** The priority left by [lock_release] *)

(** [lock_release] leaves the releasing thread at the priority computed from
    the front of the remaining donation list. *)
Lemma lock_release_sets_released_priority (l : lock_id) (k : kernel) :
  holder (locks k l) = Some (cur k) ->
  exists k',
    lock_release l k = Ok (tt, k') /\
    priority (threads k' (cur k)) = released_priority k l /\
    donations (threads k' (cur k)) = remaining_donors k l.
Proof.
  intros Hheld.
  destruct (lock_release_threads l k Hheld) as (k' & Hrun & _ & _ & Hp & Hd & _).
  now exists k'.
Qed.

Lemma fold_max_dominated (k : kernel) (ds : list tid) : forall m,
  (forall x, In x ds -> prio k x <= m) ->
  fold_left Z.max (map (prio k) ds) m = m.
Proof.
  induction ds as [|x ds IH]; intros m Hle; simpl; [reflexivity|].
  rewrite Z.max_l by (apply Hle; now left).
  apply IH. intros y Hy. apply Hle. now right.
Qed.

(** When the donor at the front of the remaining list is a highest donor, the
    priority left by [lock_release] is the base priority or, if higher, the
    highest remaining donor's priority. *)
Lemma released_priority_when_front_highest (k : kernel) (l : lock_id) d ds :
  remaining_donors k l = d :: ds ->
  d <> cur k ->
  (forall x, In x ds -> prio k x <= prio k d) ->
  highest_priority k (remaining_donors k l) = Some (prio k d) /\
  released_priority k l = Z.max (original_priority (threads k (cur k))) (prio k d).
Proof.
  intros Hrem Hne Hle. unfold released_priority. rewrite Hrem. cbn [list_front highest_priority].
  rewrite fold_max_dominated by exact Hle. split; [reflexivity|].
  destruct (Nat.eqb_spec d (cur k)); [contradiction|].
  destruct (Z.ltb_spec (original_priority (threads k (cur k))) (prio k d)); lia.
Qed.

(** When a donor behind the front of the remaining list has a priority above
    that of the front donor and above the base priority, [lock_release]
    leaves the releasing thread below the highest remaining donor. *)
Lemma released_priority_when_front_stale (k : kernel) (l : lock_id) d ds x :
  remaining_donors k l = d :: ds ->
  d <> cur k ->
  In x ds ->
  prio k d < prio k x ->
  original_priority (threads k (cur k)) < prio k x ->
  released_priority k l < prio k x.
Proof.
  intros Hrem Hne Hin Hd Hb. unfold released_priority. rewrite Hrem. cbn [list_front].
  destruct (Nat.eqb_spec d (cur k)); [contradiction|].
  destruct (Z.ltb_spec (original_priority (threads k (cur k))) (prio k d)); lia.
Qed.

(** C3 (evaluation at the failing input).  Thread 0 has base priority 10 and
    holds locks 0 and 1; threads 1, 2 and 3 are blocked in [lock_acquire] on
    lock 1 and are its donors, in the order 3 (priority 40), 2 (priority 30
    when it was inserted), 1 (priority 20).  Thread 4 (priority 50) has since
    blocked on lock 2, which thread 2 holds, so that thread 2 now has
    priority 50.  When thread 0 releases lock 0, the three donors remain and
    [lock_release] leaves thread 0 at priority 40, the priority of the donor
    at the front, although the highest remaining donor has priority 50.  With
    the donation list in the opposite order the front donor is thread 1 and
    [lock_release] leaves thread 0 at priority 20. *)
Theorem lock_release_front_donor_is_not_highest :
  map snd (fst (run nested_donation_scenario kernel_init))
  = [RetOutcome Done; RetOutcome Done; RetOutcome Done;
     RetOutcome Blocked; RetOutcome Blocked; RetOutcome Blocked; RetOutcome Blocked] /\
  holder (locks kernel_nested_donation 0%nat) = Some (cur kernel_nested_donation) /\
  (exists k',
      lock_release 0 kernel_nested_donation = Ok (tt, k') /\
      original_priority (threads k' 0%nat) = 10 /\
      donations (threads k' 0%nat) = [3; 2; 1]%nat /\
      holder (locks k' 1%nat) = Some 0%nat /\
      waiting_lock (threads k' 1%nat) = Some 1%nat /\
      waiting_lock (threads k' 2%nat) = Some 1%nat /\
      waiting_lock (threads k' 3%nat) = Some 1%nat /\
      map (prio k') [3; 2; 1]%nat = [40; 50; 20] /\
      highest_priority k' (donations (threads k' 0%nat)) = Some 50 /\
      priority (threads k' 0%nat) = 40) /\
  (exists k',
      lock_release 0 kernel_nested_donation_ascending = Ok (tt, k') /\
      donations (threads k' 0%nat) = [1; 2; 3]%nat /\
      highest_priority k' (donations (threads k' 0%nat)) = Some 50 /\
      priority (threads k' 0%nat) = 20).
Proof.
  split; [vm_compute; reflexivity|]. split; [vm_compute; reflexivity|].
  split.
  - eexists. split; [vm_compute; reflexivity|].
    repeat split; vm_compute; reflexivity.
  - eexists. split; [vm_compute; reflexivity|].
    repeat split; vm_compute; reflexivity.
Qed.

(** ** Assertions *)

Lemma lock_held_by_current_thread_eq l k :
  lock_held_by_current_thread l k
  = Ok (match holder (locks k l) with
        | Some t => Nat.eqb t (cur k)
        | None => false
        end, k).
Proof. reflexivity. Qed.

Lemma held_by_current_true k l :
  held_by_current k l = true <-> holder (locks k l) = Some (cur k).
Proof.
  unfold held_by_current. destruct (holder (locks k l)) as [t|].
  - destruct (Nat.eqb_spec t (cur k)); split; congruence.
  - split; discriminate.
Qed.

(** C9.  The violations of the stated preconditions stop the kernel with a
    failed assertion instead of returning: [lock_acquire] and
    [lock_try_acquire] on a lock that the caller holds, [lock_release] of a
    lock that the caller does not hold, [sema_down], [lock_acquire] and
    [cond_wait] inside an interrupt handler, and [cond_signal] (and
    [cond_wait]) without holding the lock. *)
Theorem precondition_violations_are_fatal
  (k : kernel) (p : sema_ptr) (l : lock_id) (c : cond_id) :
  (holder (locks k l) = Some (cur k) -> lock_acquire l k = Fail AssertFail) /\
  (holder (locks k l) = Some (cur k) -> lock_try_acquire l k = Fail AssertFail) /\
  (holder (locks k l) <> Some (cur k) -> lock_release l k = Fail AssertFail) /\
  (in_intr k = true -> sema_down p k = Fail AssertFail) /\
  (in_intr k = true -> lock_acquire l k = Fail AssertFail) /\
  (in_intr k = true -> cond_wait c l k = Fail AssertFail) /\
  (holder (locks k l) <> Some (cur k) -> cond_wait c l k = Fail AssertFail) /\
  (holder (locks k l) <> Some (cur k) -> cond_signal c l k = Fail AssertFail).
Proof.
  assert (Hnot : holder (locks k l) <> Some (cur k) -> held_by_current k l = false).
  { intros H. destruct (held_by_current k l) eqn:E; [|reflexivity].
    apply held_by_current_true in E. contradiction. }
  repeat split.
  - intros H. apply held_by_current_true in H.
    unfold lock_acquire, bind, intr_context, gets.
    destruct (in_intr k); [reflexivity|]. cbn [negb ASSERT ret].
    rewrite lock_held_by_current_thread_eq. fold (held_by_current k l).
    now rewrite H.
  - intros H. apply held_by_current_true in H.
    unfold lock_try_acquire, bind.
    rewrite lock_held_by_current_thread_eq. fold (held_by_current k l).
    now rewrite H.
  - intros H. apply Hnot in H. unfold lock_release, bind.
    rewrite lock_held_by_current_thread_eq. fold (held_by_current k l).
    now rewrite H.
  - intros H. unfold sema_down, bind, intr_context, gets. now rewrite H.
  - intros H. unfold lock_acquire, bind, intr_context, gets. now rewrite H.
  - intros H. unfold cond_wait, cond_wait_begin, bind, intr_context, gets.
    now rewrite H.
  - intros H. apply Hnot in H.
    unfold cond_wait, cond_wait_begin, bind, intr_context, gets.
    destruct (in_intr k); [reflexivity|]. cbn [negb ASSERT ret].
    rewrite lock_held_by_current_thread_eq. fold (held_by_current k l).
    now rewrite H.
  - intros H. apply Hnot in H.
    unfold cond_signal, bind, intr_context, gets.
    destruct (in_intr k); [reflexivity|]. cbn [negb ASSERT ret].
    rewrite lock_held_by_current_thread_eq. fold (held_by_current k l).
    now rewrite H.
Qed.

Lemma precondition_violations_are_fatal_witness :
  lock_acquire 0 kernel_one_lock_two_donors = Fail AssertFail /\
  lock_try_acquire 0 kernel_one_lock_two_donors = Fail AssertFail /\
  lock_release 0 kernel_init = Fail AssertFail /\
  sema_down (SemaAt 0) (with_in_intr true kernel_init) = Fail AssertFail /\
  lock_acquire 0 (with_in_intr true kernel_init) = Fail AssertFail /\
  cond_wait 0 0 (with_in_intr true kernel_one_lock_two_donors) = Fail AssertFail /\
  cond_wait 0 0 kernel_init = Fail AssertFail /\
  cond_signal 0 0 kernel_init = Fail AssertFail.
Proof.
  destruct (precondition_violations_are_fatal
              kernel_one_lock_two_donors (SemaAt 0) 0%nat 0%nat)
    as (H1 & H2 & _).
  destruct (precondition_violations_are_fatal kernel_init (SemaAt 0) 0%nat 0%nat)
    as (_ & _ & H3 & _ & _ & _ & H7 & H8).
  destruct (precondition_violations_are_fatal
              (with_in_intr true kernel_init) (SemaAt 0) 0%nat 0%nat)
    as (_ & _ & _ & H4 & H5 & _).
  destruct (precondition_violations_are_fatal
              (with_in_intr true kernel_one_lock_two_donors) (SemaAt 0) 0%nat 0%nat)
    as (_ & _ & _ & _ & _ & H6 & _).
  split; [apply H1; reflexivity|].
  split; [apply H2; reflexivity|].
  split; [apply H3; simpl; discriminate|].
  split; [apply H4; reflexivity|].
  split; [apply H5; reflexivity|].
  split; [apply H6; reflexivity|].
  split; [apply H7; simpl; discriminate|].
  apply H8; simpl; discriminate.
Defined.

(** [cond_broadcast] asserts nothing about the lock itself: with no waiter it
    returns whether or not the caller holds the lock. *)
Lemma cond_broadcast_no_waiters c l k :
  cond_waiters (conds k c) = [] -> cond_broadcast c l k = Ok (tt, k).
Proof.
  intros H. unfold cond_broadcast, bind, gets. rewrite H. simpl.
  unfold bind, gets. now rewrite H.
Qed.

(** ** The comparator of [cond_signal] *)

Lemma list_max_from_measure (less : nat -> nat -> res bool) (f : nat -> Z) l :
  forall m,
    (forall a b, In a (m :: l) -> In b (m :: l) -> less a b = Ok (f a <? f b)) ->
    exists w, list_max_from less m l = Ok w
              /\ In w (m :: l)
              /\ forall t, In t (m :: l) -> f t <= f w.
Proof.
  induction l as [|e l IH]; intros m Hless.
  - exists m. simpl. split; [reflexivity|]. split; [now left|].
    intros t [->|[]]. lia.
  - cbn [list_max_from]. rewrite Hless by (simpl; auto).
    destruct (Z.ltb_spec (f m) (f e)) as [Hlt|Hge].
    + destruct (IH e) as (w & Hw & Hin & Hmax).
      { intros a b Ha Hb. apply Hless; now right. }
      exists w. split; [exact Hw|]. split; [now right|].
      intros t [->|Ht]; [|now apply Hmax].
      specialize (Hmax e (or_introl eq_refl)). lia.
    + destruct (IH m) as (w & Hw & Hin & Hmax).
      { intros a b Ha Hb. apply Hless.
        - destruct Ha as [->|Ha]; [now left | now right; right].
        - destruct Hb as [->|Hb]; [now left | now right; right]. }
      exists w. split; [exact Hw|]. split.
      * destruct Hin as [->|Hin]; [now left | now right; right].
      * intros t [->|[->|Ht]].
        -- apply Hmax. now left.
        -- specialize (Hmax m (or_introl eq_refl)). lia.
        -- apply Hmax. now right.
Qed.

Lemma entry_thread_some k e :
  waiters (waiter_frames k e) <> [] ->
  exists t, entry_thread k e = Some t
            /\ list_max (priority_less_func k) (waiters (waiter_frames k e)) = Ok (Some t)
            /\ In t (waiters (waiter_frames k e))
            /\ forall t', In t' (waiters (waiter_frames k e)) -> prio k t' <= prio k t.
Proof.
  intros Hne. unfold entry_thread, highest_waiter. simpl.
  destruct (list_max_priority k _ Hne) as (t & Ht & Hin & Hmax).
  exists t. rewrite Ht. auto.
Qed.

Lemma entry_thread_none k e :
  waiters (waiter_frames k e) = [] -> entry_thread k e = None.
Proof. intros H. unfold entry_thread, highest_waiter. simpl. now rewrite H. Qed.

Lemma entry_thread_empty k e :
  entry_thread k e = None -> waiters (waiter_frames k e) = [].
Proof.
  intros H. destruct (waiters (waiter_frames k e)) as [|x l] eqn:E; [reflexivity|].
  destruct (entry_thread_some k e) as (t & Ht & _); congruence.
Qed.

(** The two reads of [sem_less_priority_func]: each goes to the thread that
    the element stands for, or through the sentinel when there is none. *)
Lemma sem_priorities_eq k e1 e2 :
  sem_priorities k e1 e2
  = Ok (entry_priority k e1 (entry_thread k e1), entry_priority k e2 (entry_thread k e2)).
Proof.
  assert (H : forall e, list_max (priority_less_func k) (waiters (waiter_frames k e))
                        = Ok (entry_thread k e)).
  { intros e. destruct (waiters (waiter_frames k e)) as [|x l] eqn:E.
    - rewrite (entry_thread_none k e E). reflexivity.
    - destruct (entry_thread_some k e) as (t & -> & Hmax & _); [congruence|].
      now rewrite <- E. }
  unfold sem_priorities. now rewrite !H.
Qed.

Lemma entry_priority_key k e : loaded_value (entry_priority k e (entry_thread k e)) = entry_key k e.
Proof. unfold entry_key. now destruct (entry_thread k e). Qed.

(** [sem_less_priority_func] always returns, and compares by [entry_key]. *)
Lemma sem_less_priority_func_key k e1 e2 :
  sem_less_priority_func k e1 e2 = Ok (entry_key k e1 <? entry_key k e2).
Proof.
  unfold sem_less_priority_func. rewrite sem_priorities_eq, !entry_priority_key. reflexivity.
Qed.

Lemma entry_key_prio k e :
  waiters (waiter_frames k e) <> [] -> entry_key k e = entry_prio k e.
Proof.
  intros H. unfold entry_key, entry_prio.
  destruct (entry_thread_some k e H) as (t & -> & _). reflexivity.
Qed.

Lemma sem_less_priority_func_defined k e1 e2 :
  waiters (waiter_frames k e1) <> [] ->
  waiters (waiter_frames k e2) <> [] ->
  sem_less_priority_func k e1 e2 = Ok (entry_prio k e1 <? entry_prio k e2).
Proof.
  intros H1 H2. rewrite sem_less_priority_func_key, !entry_key_prio by assumption.
  reflexivity.
Qed.

Lemma cond_list_max_key k ws :
  ws <> [] ->
  exists e, list_max (sem_less_priority_func k) ws = Ok (Some e)
            /\ In e ws
            /\ forall e', In e' ws -> entry_key k e' <= entry_key k e.
Proof.
  intros Hne. destruct ws as [|x ws]; [congruence|]. simpl.
  destruct (list_max_from_measure (sem_less_priority_func k) (entry_key k) ws x)
    as (e & -> & Hin & Hmax).
  - intros a b _ _. apply sem_less_priority_func_key.
  - now exists e.
Qed.

Lemma cond_list_max_ok k ws :
  ws <> [] ->
  (forall e, In e ws -> waiters (waiter_frames k e) <> []) ->
  exists e, list_max (sem_less_priority_func k) ws = Ok (Some e)
            /\ In e ws
            /\ forall e', In e' ws -> entry_prio k e' <= entry_prio k e.
Proof.
  intros Hne Hinv. destruct ws as [|x ws]; [congruence|]. simpl.
  destruct (list_max_from_measure (sem_less_priority_func k) (entry_prio k) ws x)
    as (e & -> & Hin & Hmax).
  - intros a b Ha Hb. apply sem_less_priority_func_defined; auto.
  - now exists e.
Qed.

Lemma highest_waiter_ext k k' p :
  (forall t, prio k' t = prio k t) ->
  get_sema k' p = get_sema k p ->
  highest_waiter k' p = highest_waiter k p.
Proof.
  intros Hp Hs. unfold highest_waiter. rewrite Hs.
  now rewrite (list_max_priority_only k k' _ Hp).
Qed.

(** [cond_signal] on a condition whose queued semaphores all have a waiter. *)
Lemma cond_signal_ok c l k :
  in_intr k = false ->
  holder (locks k l) = Some (cur k) ->
  cond_waiters (conds k c) <> [] ->
  waiters_blocked k c ->
  exists e t k',
    cond_signal c l k = Ok (tt, k') /\
    In e (cond_waiters (conds k c)) /\
    (forall e', In e' (cond_waiters (conds k c)) -> entry_prio k e' <= entry_prio k e) /\
    entry_thread k e = Some t /\
    In t (waiters (waiter_frames k e)) /\
    sema_up_post (WaiterSema e) (set_cond_waiters c (list_remove e (cond_waiters (conds k c))) k)
                 (Some t) k'.
Proof.
  intros Hintr Hheld Hne Hinv.
  destruct (cond_list_max_ok k _ Hne Hinv) as (e & Hmax & Hin & Hle).
  destruct (entry_thread_some k e (Hinv e Hin)) as (t & Ht & _ & Htin & _).
  set (k0 := set_cond_waiters c (list_remove e (cond_waiters (conds k c))) k).
  destruct (sema_up_ok (WaiterSema e) k0) as (k' & Hup & Hpost).
  assert (Hhw : highest_waiter k0 (WaiterSema e) = Some t).
  { rewrite <- Ht. unfold entry_thread. apply highest_waiter_ext; reflexivity. }
  rewrite Hhw in Hpost.
  exists e, t, k'. repeat split; auto; try apply Hpost.
  unfold cond_signal, bind, intr_context, gets. rewrite Hintr. cbn [negb ASSERT ret].
  rewrite lock_held_by_current_thread_eq, Hheld, Nat.eqb_refl. cbn [ASSERT ret].
  destruct (cond_waiters (conds k c)) as [|x ws] eqn:Ews; [congruence|].
  cbn [list_empty negb]. unfold lift. rewrite Hmax. unfold modify.
  fold k0. exact Hup.
Qed.

(** [cond_signal] by the holder of the lock outside an interrupt handler
    returns, whatever the queued semaphores hold: it removes an element of
    the greatest [entry_key] and ups its semaphore. *)
Lemma cond_signal_returns c l k :
  in_intr k = false ->
  holder (locks k l) = Some (cur k) ->
  cond_waiters (conds k c) <> [] ->
  exists e k',
    cond_signal c l k = Ok (tt, k') /\
    In e (cond_waiters (conds k c)) /\
    (forall e', In e' (cond_waiters (conds k c)) -> entry_key k e' <= entry_key k e) /\
    sema_up_post (WaiterSema e) (set_cond_waiters c (list_remove e (cond_waiters (conds k c))) k)
                 (entry_thread k e) k'.
Proof.
  intros Hintr Hheld Hne.
  destruct (cond_list_max_key k _ Hne) as (e & Hmax & Hin & Hle).
  set (k0 := set_cond_waiters c (list_remove e (cond_waiters (conds k c))) k).
  destruct (sema_up_ok (WaiterSema e) k0) as (k' & Hup & Hpost).
  assert (Hhw : highest_waiter k0 (WaiterSema e) = entry_thread k e).
  { unfold entry_thread. apply highest_waiter_ext; reflexivity. }
  rewrite Hhw in Hpost.
  exists e, k'. repeat split; auto; try apply Hpost.
  unfold cond_signal, bind, intr_context, gets. rewrite Hintr. cbn [negb ASSERT ret].
  rewrite lock_held_by_current_thread_eq, Hheld, Nat.eqb_refl. cbn [ASSERT ret].
  destruct (cond_waiters (conds k c)) as [|x ws] eqn:Ews; [congruence|].
  cbn [list_empty negb]. unfold lift. rewrite Hmax. unfold modify.
  fold k0. exact Hup.
Qed.

(** C10.  [sem_less_priority_func] reads a priority through [list_entry] of
    the maximum of the waiter list of each of the two semaphores.  A read
    goes through the list sentinel, outside any thread struct, exactly when
    the waiter list of its semaphore is empty.  When every semaphore queued
    on the condition has a waiter, every comparison of queued elements reads
    the priorities of two waiting threads, so that no read of [cond_signal]
    goes through a sentinel; its [list_max] returns an element and
    [cond_signal] returns. *)
Theorem sem_less_priority_func_defined_when_waiters_blocked
  (k : kernel) (c : cond_id) (l : lock_id) :
  (forall e1 e2,
      exists x1 x2,
        sem_priorities k e1 e2 = Ok (x1, x2) /\
        (from_sentinel x1 = true <-> waiters (waiter_frames k e1) = []) /\
        (from_sentinel x2 = true <-> waiters (waiter_frames k e2) = [])) /\
  (waiters_blocked k c ->
   (forall e1 e2,
       In e1 (cond_waiters (conds k c)) -> In e2 (cond_waiters (conds k c)) ->
       exists t1 t2,
         In t1 (waiters (waiter_frames k e1)) /\
         In t2 (waiters (waiter_frames k e2)) /\
         sem_priorities k e1 e2 = Ok (FromThread (prio k t1), FromThread (prio k t2)) /\
         sem_less_priority_func k e1 e2 = Ok (prio k t1 <? prio k t2)) /\
   (cond_waiters (conds k c) <> [] ->
    exists e, list_max (sem_less_priority_func k) (cond_waiters (conds k c)) = Ok (Some e)) /\
   (in_intr k = false -> holder (locks k l) = Some (cur k) ->
    exists k', cond_signal c l k = Ok (tt, k'))).
Proof.
  assert (Hread : forall e,
             from_sentinel (entry_priority k e (entry_thread k e)) = true
             <-> waiters (waiter_frames k e) = []).
  { intros e. split.
    - intros H. apply entry_thread_empty. now destruct (entry_thread k e).
    - intros H. now rewrite (entry_thread_none k e H). }
  split.
  - intros e1 e2. eexists. eexists. split; [apply sem_priorities_eq|].
    split; apply Hread.
  - intros Hinv. split; [|split].
    + intros e1 e2 H1 H2.
      destruct (entry_thread_some k e1 (Hinv e1 H1)) as (t1 & Ht1 & _ & Hin1 & _).
      destruct (entry_thread_some k e2 (Hinv e2 H2)) as (t2 & Ht2 & _ & Hin2 & _).
      exists t1, t2. split; [exact Hin1|]. split; [exact Hin2|].
      unfold sem_less_priority_func. rewrite sem_priorities_eq, Ht1, Ht2.
      split; reflexivity.
    + intros Hne. destruct (cond_list_max_key k _ Hne) as (e & He & _). now exists e.
    + intros Hintr Hheld.
      destruct (cond_waiters (conds k c)) as [|x ws] eqn:Ews.
      * exists k. unfold cond_signal, bind, intr_context, gets.
        rewrite Hintr. cbn [negb ASSERT ret].
        rewrite lock_held_by_current_thread_eq, Hheld, Nat.eqb_refl. cbn [ASSERT ret].
        now rewrite Ews.
      * destruct (cond_signal_returns c l k Hintr Hheld) as (e & k' & Hrun & _).
        -- congruence.
        -- now exists k'.
Qed.

Lemma kernel_two_cond_waiters_blocked : waiters_blocked kernel_two_cond_waiters 0%nat.
Proof.
  intros e He. vm_compute in He.
  destruct He as [<-|[<-|[]]]; vm_compute; discriminate.
Qed.

Lemma sem_less_priority_func_defined_when_waiters_blocked_witness :
  (exists x1 x2,
      sem_priorities kernel_signal_race 2%nat 0%nat = Ok (x1, x2) /\
      from_sentinel x1 = false /\ from_sentinel x2 = true) /\
  (exists t1 t2,
      sem_priorities kernel_two_cond_waiters 1%nat 2%nat
      = Ok (FromThread (prio kernel_two_cond_waiters t1),
            FromThread (prio kernel_two_cond_waiters t2))) /\
  (exists k', cond_signal 0 0 kernel_two_cond_waiters = Ok (tt, k')).
Proof.
  split.
  - destruct (sem_less_priority_func_defined_when_waiters_blocked
                kernel_signal_race 0%nat 0%nat) as (H & _).
    destruct (H 2%nat 0%nat) as (x1 & x2 & Hrun & H1 & H2).
    exists x1, x2. split; [exact Hrun|]. split.
    + destruct (from_sentinel x1); [|reflexivity].
      assert (E : waiters (waiter_frames kernel_signal_race 2%nat) = [])
        by (apply H1; reflexivity).
      vm_compute in E. discriminate.
    + apply H2. vm_compute. reflexivity.
  - destruct (sem_less_priority_func_defined_when_waiters_blocked
                kernel_two_cond_waiters 0%nat 0%nat) as (_ & H).
    destruct (H kernel_two_cond_waiters_blocked) as (Hcmp & _ & Hsig).
    split.
    + destruct (Hcmp 1%nat 2%nat) as (t1 & t2 & _ & _ & Hrun & _);
        [vm_compute; auto | vm_compute; auto |].
      exists t1, t2. exact Hrun.
    + apply Hsig; vm_compute; reflexivity.
Defined.

(** ** [sema_down] and the value of a semaphore *)

Lemma sema_ptr_eqb_eq p q : sema_ptr_eqb p q = true <-> p = q.
Proof.
  destruct p, q; simpl; try (split; [discriminate | congruence]);
    rewrite Nat.eqb_eq; split; congruence.
Qed.

Lemma sema_down_loop_ok p k :
  (value (get_sema k p) = 0 /\
   exists k', sema_down_loop p k = Ok (Blocked, k') /\ sema_down_blocked p k k')
  \/
  (value (get_sema k p) <> 0 /\
   sema_down_loop p k
   = Ok (Done, set_sema p (mkSema (wrap32 (value (get_sema k p) - 1))
                                 (waiters (get_sema k p))) k)).
Proof.
  unfold sema_down_loop, bind, gets.
  destruct (Z.eqb_spec (value (get_sema k p)) 0) as [Hz|Hnz].
  - left. split; [exact Hz|].
    destruct (thread_try_donate_priority_ok k) as (k1 & Hd & Hsame).
    rewrite Hd. unfold thread_current, thread_block, bind, gets, modify, ret.
    cbn beta iota.
    pose proof (same_but_priority_get_sema _ _ p Hsame) as Hs.
    destruct Hsame as [Hsemas Hlocks Hconds Hframes Hcur Hintr Hsched
                       Hstatus Hdon Hwait Horig Hprio].
    eexists. split; [reflexivity|].
    constructor; autorewrite with kern; cbn [threads cur sched conds in_intr
      modify_thread with_threads with_sched]; autorewrite with kern;
      rewrite ?Hs, ?Hcur; auto.
    + intros q Hq. autorewrite with kern. rewrite get_set_sema_other by congruence.
      destruct q; simpl; congruence.
    + intros l. cbn [locks with_sched modify_thread with_threads].
      autorewrite with kern. now rewrite Hlocks.
    + now rewrite Hsched.
    + intros t. unfold upd. destruct (Nat.eqb t (cur k)); [reflexivity|apply Hstatus].
    + intros t. unfold upd. destruct (Nat.eqb_spec t (cur k)); subst; simpl; apply Hdon.
    + intros t. unfold upd. destruct (Nat.eqb_spec t (cur k)); subst; simpl; apply Hwait.
    + intros t. unfold upd. destruct (Nat.eqb_spec t (cur k)); subst; simpl; apply Horig.
    + intros t. unfold upd. destruct (Nat.eqb_spec t (cur k)); subst; simpl; apply Hprio.
  - right. split; [exact Hnz | reflexivity].
Qed.

Lemma sema_try_down_inv p k b k' :
  sema_try_down p k = Ok (b, k') ->
  (b = true /\ 0 < value (get_sema k p) /\
   k' = set_sema p (mkSema (wrap32 (value (get_sema k p) - 1)) (waiters (get_sema k p))) k)
  \/ (b = false /\ value (get_sema k p) <= 0 /\ same_but_priority k k').
Proof.
  unfold sema_try_down, bind, gets.
  destruct (Z.ltb_spec 0 (value (get_sema k p))) as [Hpos|Hle].
  - intros H. injection H as <- <-. left. auto.
  - destruct (thread_try_donate_priority_ok k) as (k1 & -> & Hsame).
    intros H. injection H as <- <-. right. auto.
Qed.

Lemma step_eq a k :
  step a k
  = exec (act_call a) (with_in_intr (act_intr a) (with_cur (act_thread a) (tick k))).
Proof. reflexivity. Qed.

Lemma sema_step_value p a k r k' :
  is_sema_op p a = true ->
  sema_wf (get_sema k p) ->
  step a k = Ok (r, k') ->
  sema_wf (get_sema k' p) /\
  sema_value k' p + (if is_down (a, r) then 1 else 0)
  <= sema_value k p + (if is_up (a, r) then 1 else 0) /\
  (is_down (a, r) = true ->
   0 < sema_value k p /\ sema_value k' p = sema_value k p - 1).
Proof.
  intros Hop Hwf. rewrite step_eq.
  set (k0 := with_in_intr (act_intr a) (with_cur (act_thread a) (tick k))).
  assert (Hk0 : get_sema k0 p = get_sema k p).
  { subst k0. now rewrite get_sema_with_in_intr, get_sema_with_cur, get_sema_tick. }
  rewrite <- Hk0 in Hwf. unfold sema_value. rewrite <- Hk0.
  unfold is_sema_op in Hop. unfold is_down, is_up. cbn [fst snd].
  assert (Hloop : forall o k1, sema_down_loop p k0 = Ok (o, k1) ->
            sema_wf (get_sema k1 p) /\
            value (get_sema k1 p) + (match o with Done => 1 | Blocked => 0 end)
            <= value (get_sema k0 p) /\
            (o = Done ->
             0 < value (get_sema k0 p)
             /\ value (get_sema k1 p) = value (get_sema k0 p) - 1)).
  { intros o k1 Hrun. unfold sema_wf in *.
    destruct (sema_down_loop_ok p k0) as [(Hz & k2 & Hrun2 & Hpost)|(Hnz & Hrun2)];
      rewrite Hrun2 in Hrun; injection Hrun as <- <-.
    - rewrite (sdb_sema _ _ _ Hpost). simpl.
      split; [lia|]. split; [lia|]. discriminate.
    - rewrite get_set_sema_same. simpl.
      rewrite wrap32_small by lia. split; [lia|]. split; [lia|]. intros _. lia. }
  destruct (act_call a) eqn:Ecall; try discriminate;
    apply sema_ptr_eqb_eq in Hop; subst p0; cbn [exec]; unfold bind.
  - (* sema_down *)
    unfold sema_down, bind, intr_context, gets.
    destruct (in_intr k0); cbn [negb ASSERT ret fail]; [discriminate|].
    destruct (sema_down_loop p k0) as [[o k1]|] eqn:Hrun; [|discriminate].
    intros H. injection H as <- <-.
    destruct (Hloop o k1 eq_refl) as (H1 & H2 & H3).
    split; [exact H1|]. split.
    + destruct o; lia.
    + destruct o; [auto | discriminate].
  - (* sema_down_resume *)
    unfold sema_down_resume.
    destruct (sema_down_loop p k0) as [[o k1]|] eqn:Hrun; [|discriminate].
    intros H. injection H as <- <-.
    destruct (Hloop o k1 eq_refl) as (H1 & H2 & H3).
    split; [exact H1|]. split.
    + destruct o; lia.
    + destruct o; [auto | discriminate].
  - (* sema_try_down *)
    destruct (sema_try_down p k0) as [[b k1]|] eqn:Htry; [|discriminate].
    intros H. injection H as <- <-. unfold sema_wf in *.
    destruct (sema_try_down_inv _ _ _ _ Htry) as [(-> & Hpos & ->)|(-> & Hle & Hs)].
    + rewrite get_set_sema_same. cbn [value]. rewrite wrap32_small by lia.
      split; [lia|]. split; [lia|]. intros _. lia.
    + rewrite (same_but_priority_get_sema _ _ p Hs).
      split; [lia|]. split; [lia|]. discriminate.
  - (* sema_up: [value++] is reduced modulo 2^32 *)
    destruct (sema_up_ok p k0) as (k1 & -> & Hpost).
    intros H. injection H as <- <-. unfold sema_wf in *.
    rewrite (sup_sema _ _ _ _ Hpost). cbn [value].
    pose proof (wrap32_range (value (get_sema k0 p) + 1)) as Hr.
    split; [exact Hr|]. split; [|discriminate].
    destruct (Z.eq_dec (value (get_sema k0 p) + 1) UINT_MODULUS) as [E|E].
    + unfold wrap32. rewrite E, Z.mod_same by (unfold UINT_MODULUS; lia). lia.
    + rewrite wrap32_small by lia. lia.
Qed.

Lemma run_cons a rest k :
  run (a :: rest) k
  = match step a k with
    | Ok (r, k') => ((a, r) :: fst (run rest k'), snd (run rest k'))
    | Fail _ => ([], k)
    end.
Proof.
  simpl. destruct (step a k) as [[r k']|]; [|reflexivity].
  now destruct (run rest k').
Qed.

Lemma sema_run_value p acts : forall k,
  forallb (is_sema_op p) acts = true ->
  sema_wf (get_sema k p) ->
  sema_wf (get_sema (snd (run acts k)) p) /\
  sema_value (snd (run acts k)) p + completed_downs (fst (run acts k))
  <= sema_value k p + completed_ups (fst (run acts k)).
Proof.
  unfold completed_downs, completed_ups.
  induction acts as [|a rest IH]; intros k Hops Hwf.
  - simpl. split; [exact Hwf | lia].
  - simpl in Hops. apply andb_true_iff in Hops. destruct Hops as [Hop Hrest].
    rewrite run_cons. destruct (step a k) as [[r k1]|] eqn:Hstep.
    + destruct (sema_step_value p a k r k1 Hop Hwf Hstep) as (Hwf1 & Hle & _).
      destruct (IH k1 Hrest Hwf1) as (Hwf2 & Hle2).
      cbn [fst snd filter]. split; [exact Hwf2|].
      destruct (is_down (a, r)), (is_up (a, r)); cbn [length]; lia.
    + simpl. split; [exact Hwf | lia].
Qed.

(** C4.  Start from [sema_init (p, v)] and run any sequence of [sema_down]
    (calls and resumptions), [sema_try_down] and [sema_up] on [p], by any
    threads.  Every prefix of such a sequence is such a sequence, so what
    follows holds at every point of the execution: the value is a
    non-negative [unsigned]; the number of completed downs is at most the
    number of completed ups plus the initial value; and a step that completes
    a down starts from a positive value and decrements it by one. *)
Theorem sema_value_never_negative
  (p : sema_ptr) (v : Z) (k : kernel) (acts : list action) :
  forallb (is_sema_op p) acts = true ->
  forall k0, sema_init p v k = Ok (tt, k0) ->
  sema_value k0 p = wrap32 v /\
  0 <= sema_value (snd (run acts k0)) p /\
  completed_downs (fst (run acts k0)) <= completed_ups (fst (run acts k0)) + wrap32 v /\
  (forall a r k1 k2,
      is_sema_op p a = true -> sema_wf (get_sema k1 p) ->
      step a k1 = Ok (r, k2) -> is_down (a, r) = true ->
      0 < sema_value k1 p /\ sema_value k2 p = sema_value k1 p - 1).
Proof.
  intros Hops k0 Hinit. unfold sema_init, modify in Hinit. injection Hinit as <-.
  assert (Hv : sema_value (set_sema p (mkSema (wrap32 v) []) k) p = wrap32 v).
  { unfold sema_value. now rewrite get_set_sema_same. }
  assert (Hwf : sema_wf (get_sema (set_sema p (mkSema (wrap32 v) []) k) p)).
  { unfold sema_wf. rewrite get_set_sema_same. apply wrap32_range. }
  destruct (sema_run_value p acts _ Hops Hwf) as ((Hlo & _) & Hle).
  rewrite Hv in Hle. unfold sema_value in *.
  split; [exact Hv|]. split; [exact Hlo|]. split; [lia|].
  intros a r k1 k2 Hop Hwf1 Hstep Hdown.
  destruct (sema_step_value p a k1 r k2 Hop Hwf1 Hstep) as (_ & _ & H). auto.
Qed.

Lemma sema_value_never_negative_witness :
  map snd (fst (run sema_scenario (set_sema (SemaAt 0) (mkSema 1 []) kernel_init)))
  = [RetOutcome Done; RetOutcome Blocked; RetBool false; RetUnit; RetOutcome Done] /\
  0 <= sema_value (snd (run sema_scenario (set_sema (SemaAt 0) (mkSema 1 []) kernel_init)))
                  (SemaAt 0) /\
  completed_downs (fst (run sema_scenario (set_sema (SemaAt 0) (mkSema 1 []) kernel_init)))
  <= completed_ups (fst (run sema_scenario (set_sema (SemaAt 0) (mkSema 1 []) kernel_init)))
     + wrap32 1.
Proof.
  split; [vm_compute; reflexivity|].
  destruct (sema_value_never_negative (SemaAt 0) 1 kernel_init sema_scenario eq_refl
              (set_sema (SemaAt 0) (mkSema 1 []) kernel_init) eq_refl)
    as (_ & H1 & H2 & _).
  split; [exact H1 | exact H2].
Defined.

(** ** [lock_acquire] and [lock_try_acquire] *)

Lemma list_insert_ordered_priority_ok k ds e :
  exists r, list_insert_ordered (priority_less_func k) ds e = Ok r.
Proof.
  induction ds as [|d ds [r IH]]; simpl.
  - now eexists.
  - destruct (priority (threads k d) <? priority (threads k e)).
    + now eexists.
    + rewrite IH. now eexists.
Qed.

Lemma same_but_threads_get_sema k k' p :
  same_but_threads k k' -> get_sema k' p = get_sema k p.
Proof. intros []. destruct p; simpl; congruence. Qed.

Lemma lock_acquire_resume_inv l k o k' :
  lock_acquire_resume l k = Ok (o, k') ->
  (o = Blocked /\ value (get_sema k (LockSema l)) = 0
   /\ sema_down_blocked (LockSema l) k k')
  \/
  (o = Done /\ value (get_sema k (LockSema l)) <> 0 /\
   k' = set_holder l (Some (cur k))
          (modify_thread (cur k) (set_waiting_lock None)
             (set_sema (LockSema l)
                (mkSema (wrap32 (value (get_sema k (LockSema l)) - 1))
                        (waiters (get_sema k (LockSema l)))) k))).
Proof.
  unfold lock_acquire_resume, sema_down_resume, bind.
  destruct (sema_down_loop_ok (LockSema l) k) as [(Hz & k1 & -> & Hpost)|(Hnz & ->)].
  - intros H. injection H as <- <-. left. auto.
  - intros H. injection H as <- <-. right. auto.
Qed.

Lemma lock_acquire_inv l k o k' :
  lock_acquire l k = Ok (o, k') ->
  in_intr k = false /\ holder (locks k l) <> Some (cur k) /\
  exists kb, same_but_threads k kb /\ lock_acquire_resume l kb = Ok (o, k').
Proof.
  unfold lock_acquire, bind, intr_context, gets.
  destruct (in_intr k) eqn:Hintr; cbn [negb ASSERT ret fail]; [discriminate|].
  rewrite lock_held_by_current_thread_eq. fold (held_by_current k l).
  destruct (held_by_current k l) eqn:Hheld; cbn [negb ASSERT ret fail]; [discriminate|].
  unfold thread_current, gets.
  assert (Hnot : holder (locks k l) <> Some (cur k)).
  { intros H. apply held_by_current_true in H. congruence. }
  assert (Hfin : forall kb, same_but_threads k kb ->
            match sema_down (LockSema l) kb with
            | Ok (a, k'0) =>
                match a with
                | Done => lock_acquire_finish l;; ret Done
                | Blocked => ret Blocked
                end k'0
            | Fail e => Fail e
            end = Ok (o, k') ->
            false = false /\ holder (locks k l) <> Some (cur k) /\
            exists kb, same_but_threads k kb /\ lock_acquire_resume l kb = Ok (o, k')).
  { intros kb Hsame H. split; [reflexivity|]. split; [exact Hnot|].
    exists kb. split; [exact Hsame|].
    unfold sema_down, bind, intr_context, gets in H.
    rewrite (sbt_intr _ _ Hsame), Hintr in H. cbn [negb ASSERT ret] in H.
    exact H. }
  destruct (holder (locks k l)) as [hd|] eqn:Hh.
  - unfold modify, lift. cbn beta iota.
    set (k1 := modify_thread (cur k) (set_waiting_lock (Some l)) k).
    destruct (list_insert_ordered_priority_ok k1 (donations (threads k1 hd)) (cur k))
      as (r & ->).
    apply Hfin. constructor; reflexivity.
  - unfold ret. apply Hfin. constructor; reflexivity.
Qed.

Lemma lock_try_acquire_inv l k b k' :
  lock_try_acquire l k = Ok (b, k') ->
  holder (locks k l) <> Some (cur k) /\
  ((b = true /\ 0 < value (get_sema k (LockSema l)) /\
    k' = set_holder l (Some (cur k))
           (modify_thread (cur k) (set_waiting_lock None)
              (set_sema (LockSema l)
                 (mkSema (wrap32 (value (get_sema k (LockSema l)) - 1))
                         (waiters (get_sema k (LockSema l)))) k)))
   \/ (b = false /\ value (get_sema k (LockSema l)) <= 0 /\ same_but_priority k k')).
Proof.
  unfold lock_try_acquire, bind.
  rewrite lock_held_by_current_thread_eq. fold (held_by_current k l).
  destruct (held_by_current k l) eqn:Hheld; cbn [negb ASSERT ret fail]; [discriminate|].
  assert (Hnot : holder (locks k l) <> Some (cur k)).
  { intros H. apply held_by_current_true in H. congruence. }
  destruct (sema_try_down (LockSema l) k) as [[b0 k1]|] eqn:Htry; [|discriminate].
  destruct (sema_try_down_inv _ _ _ _ Htry) as [(-> & Hpos & ->)|(-> & Hz & Hsame)].
  - intros H. injection H as <- <-. split; [exact Hnot|]. left. auto.
  - intros H. injection H as <- <-. split; [exact Hnot|]. right. auto.
Qed.

Lemma lock_release_inv l k u k' :
  lock_release l k = Ok (u, k') -> holder (locks k l) = Some (cur k).
Proof.
  unfold lock_release, bind.
  rewrite lock_held_by_current_thread_eq. fold (held_by_current k l).
  destruct (held_by_current k l) eqn:Hheld; cbn [ASSERT ret fail]; [|discriminate].
  intros _. now apply held_by_current_true.
Qed.

Lemma list_max_from_in (less : nat -> nat -> res bool) l : forall m w,
  list_max_from less m l = Ok w -> In w (m :: l).
Proof.
  induction l as [|e l IH]; intros m w; simpl.
  - intros H. injection H as <-. now left.
  - destruct (less m e) as [[|]|]; [| |discriminate]; intros H; apply IH in H.
    + now right.
    + destruct H as [->|H]; [now left | now right; right].
Qed.

Lemma cond_signal_inv c l k u k' :
  cond_signal c l k = Ok (u, k') ->
  in_intr k = false /\ holder (locks k l) = Some (cur k) /\
  ((cond_waiters (conds k c) = [] /\ k' = k) \/
   (exists e, In e (cond_waiters (conds k c)) /\
              list_max (sem_less_priority_func k) (cond_waiters (conds k c)) = Ok (Some e) /\
              sema_up (WaiterSema e)
                (set_cond_waiters c (list_remove e (cond_waiters (conds k c))) k)
              = Ok (tt, k'))).
Proof.
  unfold cond_signal, bind, intr_context, gets.
  destruct (in_intr k) eqn:Hintr; cbn [negb ASSERT ret fail]; [discriminate|].
  rewrite lock_held_by_current_thread_eq. fold (held_by_current k l).
  destruct (held_by_current k l) eqn:Hheld; cbn [negb ASSERT ret fail]; [|discriminate].
  apply held_by_current_true in Hheld.
  destruct (cond_waiters (conds k c)) as [|x ws] eqn:Ews; cbn [list_empty negb].
  - intros H. inv_ok H. auto.
  - unfold lift.
    destruct (list_max (sem_less_priority_func k) (x :: ws)) as [[e|]|] eqn:Hmax;
      try discriminate.
    unfold modify. intros H. split; [reflexivity|]. split; [exact Hheld|]. right.
    exists e. split; [|split; [reflexivity|]].
    + simpl in Hmax.
      destruct (list_max_from (sem_less_priority_func k) x ws) eqn:Hfrom; [|discriminate].
      injection Hmax as ->. eapply list_max_from_in; eauto.
    + destruct u. exact H.
Qed.

(** ** The owner of a lock along an execution *)

Lemma sema_up_same_holders p k u k' :
  sema_up p k = Ok (u, k') -> same_holders k k' /\ cur k' = cur k /\ in_intr k' = in_intr k.
Proof.
  destruct (sema_up_ok p k) as (k1 & -> & Hpost). intros H. inv_ok H.
  split; [|split]; [intros l|..]; apply Hpost.
Qed.

Lemma cond_signal_same_holders c l k u k' :
  cond_signal c l k = Ok (u, k') ->
  same_holders k k' /\ cur k' = cur k /\ in_intr k' = in_intr k.
Proof.
  intros H. destruct (cond_signal_inv _ _ _ _ _ H) as (_ & _ & [(_ & ->)|(e & _ & _ & Hup)]).
  - split; [intros l0; reflexivity | auto].
  - apply sema_up_same_holders in Hup. exact Hup.
Qed.

Lemma cond_broadcast_loop_same_holders fuel c l : forall k u k',
  cond_broadcast_loop fuel c l k = Ok (u, k') ->
  same_holders k k' /\ cur k' = cur k /\ in_intr k' = in_intr k.
Proof.
  induction fuel as [|fuel IH]; intros k u k'; simpl; unfold bind, gets;
    destruct (cond_waiters (conds k c)) as [|x ws] eqn:Ews; cbn [list_empty negb].
  - intros H. inv_ok H. split; [intros l0; reflexivity | auto].
  - discriminate.
  - intros H. inv_ok H. split; [intros l0; reflexivity | auto].
  - destruct (cond_signal c l k) as [[u1 k1]|] eqn:Hsig; [|discriminate].
    intros H. apply IH in H. apply cond_signal_same_holders in Hsig.
    destruct H as (H1 & H2 & H3), Hsig as (S1 & S2 & S3).
    split; [|split]; [intros l0; rewrite H1; apply S1 | congruence..].
Qed.

Lemma sema_down_loop_same_holders p k o k' :
  sema_down_loop p k = Ok (o, k') -> same_holders k k' /\ cur k' = cur k.
Proof.
  destruct (sema_down_loop_ok p k) as [(_ & k1 & -> & Hpost)|(_ & ->)];
    intros H; injection H as <- <-.
  - split; [intros l; apply Hpost | apply Hpost].
  - split; [intros l; apply holder_set_sema | apply cur_set_sema].
Qed.

Lemma lock_acquire_resume_holder l' k o k' :
  lock_acquire_resume l' k = Ok (o, k') ->
  match o with
  | Done => takes_lock l' (cur k) k k'
  | Blocked => same_holders k k'
  end.
Proof.
  intros H. destruct (lock_acquire_resume_inv _ _ _ _ H)
    as [(-> & _ & Hpost)|(-> & Hnz & ->)].
  - intros l. apply Hpost.
  - unfold takes_lock. split; [|split; [|split]].
    + rewrite holder_set_holder. now rewrite Nat.eqb_refl.
    + intros l Hne. rewrite holder_set_holder.
      destruct (Nat.eqb_spec l l'); [contradiction|].
      cbn [locks modify_thread with_threads]. apply holder_set_sema.
    + exact Hnz.
    + rewrite get_sema_set_holder, get_sema_modify_thread, get_set_sema_same.
      reflexivity.
Qed.

Lemma lock_acquire_holder l' k o k' :
  lock_acquire l' k = Ok (o, k') ->
  match o with
  | Done => takes_lock l' (cur k) k k'
  | Blocked => same_holders k k'
  end.
Proof.
  intros H. destruct (lock_acquire_inv _ _ _ _ H) as (_ & _ & kb & Hsame & Hres).
  apply lock_acquire_resume_holder in Hres.
  pose proof (same_but_threads_get_sema _ _ (LockSema l') Hsame) as Hs.
  destruct Hsame as [_ Hl _ _ Hc _ _].
  destruct o.
  - destruct Hres as (H1 & H2 & H3 & H4). unfold takes_lock.
    rewrite <- Hc, <- Hs. split; [exact H1|]. split; [|auto].
    intros l Hne. rewrite (H2 l Hne). now rewrite Hl.
  - intros l. rewrite (Hres l). now rewrite Hl.
Qed.

Lemma lock_try_acquire_holder l' k b k' :
  lock_try_acquire l' k = Ok (b, k') ->
  if b then takes_lock l' (cur k) k k' else same_holders k k'.
Proof.
  intros H. destruct (lock_try_acquire_inv _ _ _ _ H)
    as (_ & [(-> & Hpos & ->)|(-> & _ & Hsame)]).
  - unfold takes_lock. split; [|split; [|split]].
    + rewrite holder_set_holder. now rewrite Nat.eqb_refl.
    + intros l Hne. rewrite holder_set_holder.
      destruct (Nat.eqb_spec l l'); [contradiction|].
      cbn [locks modify_thread with_threads]. apply holder_set_sema.
    + lia.
    + rewrite get_sema_set_holder, get_sema_modify_thread, get_set_sema_same.
      reflexivity.
  - intros l. now rewrite (sbp_locks _ _ Hsame).
Qed.

Lemma lock_release_holder l' k u k' :
  lock_release l' k = Ok (u, k') -> drops_lock l' k k'.
Proof.
  intros H. pose proof (lock_release_inv _ _ _ _ H) as Hheld.
  destruct (lock_release_threads l' k Hheld) as (k2 & Hrun & Hnone & Hothers & _).
  rewrite Hrun in H. inv_ok H. split; assumption.
Qed.

Lemma cond_wait_holder c l' k pc k' :
  cond_wait c l' k = Ok (pc, k') -> pc = CW_DOWN /\ drops_lock l' k k'.
Proof.
  unfold cond_wait, cond_wait_begin, bind, intr_context, gets.
  destruct (in_intr k); cbn [negb ASSERT ret fail]; [discriminate|].
  rewrite lock_held_by_current_thread_eq.
  destruct (match holder (locks k l') with Some t => Nat.eqb t (cur k) | None => false end);
    cbn [ASSERT ret fail]; [|discriminate].
  unfold thread_current, sema_init, gets, modify.
  set (k0 := set_cond_waiters _ _ _).
  destruct (lock_release l' k0) as [[u k1]|] eqn:Hrel; [|discriminate].
  intros H. inv_ok H. split; [reflexivity|].
  apply lock_release_holder in Hrel. exact Hrel.
Qed.

Lemma cond_wait_step_holder l' pc k r k' :
  cond_wait_step l' pc k = Ok (r, k') ->
  match r with
  | None => (pc = CW_ACQUIRE \/ pc = CW_ACQUIRE_BLOCKED) /\ takes_lock l' (cur k) k k'
  | Some _ => same_holders k k'
  end.
Proof.
  unfold cond_wait_step, bind, thread_current, gets.
  destruct pc.
  - unfold sema_down, bind, intr_context, gets.
    destruct (in_intr k); cbn [negb ASSERT ret fail]; [discriminate|].
    destruct (sema_down_loop (WaiterSema (cur k)) k) as [[o k1]|] eqn:Hd; [|discriminate].
    intros H. inv_ok H. now apply sema_down_loop_same_holders in Hd.
  - unfold sema_down_resume.
    destruct (sema_down_loop (WaiterSema (cur k)) k) as [[o k1]|] eqn:Hd; [|discriminate].
    intros H. inv_ok H. now apply sema_down_loop_same_holders in Hd.
  - destruct (lock_acquire l' k) as [[o k1]|] eqn:Ha; [|discriminate].
    intros H. inv_ok H. apply lock_acquire_holder in Ha. destruct o; auto.
  - destruct (lock_acquire_resume l' k) as [[o k1]|] eqn:Ha; [|discriminate].
    intros H. inv_ok H. apply lock_acquire_resume_holder in Ha. destruct o; auto.
Qed.

Lemma step_holder l a k r k1 :
  step a k = Ok (r, k1) ->
  if acquires l (a, r)
  then takes_lock l (act_thread a) k k1
  else holder (locks k1 l) = holder (locks k l) \/ holder (locks k1 l) = None.
Proof.
  rewrite step_eq.
  set (k0 := with_in_intr (act_intr a) (with_cur (act_thread a) (tick k))).
  change (holder (locks k l)) with (holder (locks k0 l)).
  change (takes_lock l (act_thread a) k k1) with (takes_lock l (cur k0) k0 k1).
  unfold acquires. cbn [fst snd].
  assert (Htake : forall l', takes_lock l' (cur k0) k0 k1 ->
            if Nat.eqb l' l then takes_lock l (cur k0) k0 k1
            else holder (locks k1 l) = holder (locks k0 l) \/ holder (locks k1 l) = None).
  { intros l' Ht. destruct (Nat.eqb_spec l' l) as [->|Hne]; [exact Ht|].
    left. apply Ht. congruence. }
  assert (Hdrop : forall l', drops_lock l' k0 k1 ->
            holder (locks k1 l) = holder (locks k0 l) \/ holder (locks k1 l) = None).
  { intros l' [Hn Ho]. destruct (Nat.eq_dec l l') as [->|Hne]; [now right|].
    left. now apply Ho. }
  destruct (act_call a); cbn [exec]; unfold bind.
  - unfold sema_init, modify. intros H. inv_ok H. left. apply holder_set_sema.
  - unfold sema_down, bind, intr_context, gets.
    destruct (in_intr k0); cbn [negb ASSERT ret fail]; [discriminate|].
    destruct (sema_down_loop p k0) as [[o k']|] eqn:Hd; [|discriminate].
    intros H. inv_ok H. apply sema_down_loop_same_holders in Hd.
    destruct o; left; apply Hd.
  - unfold sema_down_resume.
    destruct (sema_down_loop p k0) as [[o k']|] eqn:Hd; [|discriminate].
    intros H. inv_ok H. apply sema_down_loop_same_holders in Hd.
    destruct o; left; apply Hd.
  - destruct (sema_try_down p k0) as [[b k']|] eqn:Hd; [|discriminate].
    intros H. inv_ok H.
    destruct (sema_try_down_inv _ _ _ _ Hd) as [(-> & _ & ->)|(-> & _ & Hs)]; left.
    + apply holder_set_sema.
    + now rewrite (sbp_locks _ _ Hs).
  - destruct (sema_up p k0) as [[u k']|] eqn:Hd; [|discriminate].
    intros H. inv_ok H. apply sema_up_same_holders in Hd. left. apply Hd.
  - unfold lock_init, sema_init, bind, modify. intros H. inv_ok H.
    cbn [locks with_locks]. unfold upd. rewrite ?Nat.eqb_refl.
    destruct (Nat.eqb l l0); cbn [holder]; auto.
  - destruct (lock_acquire l0 k0) as [[o k']|] eqn:Hd; [|discriminate].
    intros H. inv_ok H. apply lock_acquire_holder in Hd.
    destruct o; [now apply Htake | left; apply Hd].
  - destruct (lock_acquire_resume l0 k0) as [[o k']|] eqn:Hd; [|discriminate].
    intros H. inv_ok H. apply lock_acquire_resume_holder in Hd.
    destruct o; [now apply Htake | left; apply Hd].
  - destruct (lock_try_acquire l0 k0) as [[b k']|] eqn:Hd; [|discriminate].
    intros H. inv_ok H. apply lock_try_acquire_holder in Hd.
    destruct b; [now apply Htake | left; apply Hd].
  - destruct (lock_release l0 k0) as [[u k']|] eqn:Hd; [|discriminate].
    intros H. inv_ok H. apply lock_release_holder in Hd. eauto.
  - unfold cond_init, modify. intros H. inv_ok H. now left.
  - destruct (cond_wait c l0 k0) as [[pc k']|] eqn:Hd; [|discriminate].
    intros H. inv_ok H. apply cond_wait_holder in Hd. destruct Hd as [_ Hd]. eauto.
  - destruct (cond_wait_step l0 pc k0) as [[pc' k']|] eqn:Hd; [|discriminate].
    intros H. inv_ok H. apply cond_wait_step_holder in Hd.
    destruct pc' as [pc'|].
    + destruct pc; left; apply Hd.
    + destruct Hd as ([->| ->] & Ht); now apply Htake.
  - destruct (cond_signal c l0 k0) as [[u k']|] eqn:Hd; [|discriminate].
    intros H. inv_ok H. apply cond_signal_same_holders in Hd. left. apply Hd.
  - unfold cond_broadcast, bind, gets.
    destruct (cond_broadcast_loop _ c l0 k0) as [[u k']|] eqn:Hd; [|discriminate].
    intros H. inv_ok H. apply cond_broadcast_loop_same_holders in Hd. left. apply Hd.
Qed.

Lemma run_last_acquirer l acts : forall k t,
  holder (locks (snd (run acts k)) l) = Some t ->
  last_acquirer l (fst (run acts k)) = Some t
  \/ (last_acquirer l (fst (run acts k)) = None /\ holder (locks k l) = Some t).
Proof.
  induction acts as [|a rest IH]; intros k t.
  - simpl. auto.
  - rewrite run_cons. destruct (step a k) as [[r k1]|] eqn:Hstep.
    + cbn [fst snd last_acquirer]. intros Hh.
      destruct (IH k1 t Hh) as [->|[-> Hk1]]; [now left|].
      pose proof (step_holder l a k r k1 Hstep) as Hs.
      destruct (acquires l (a, r)).
      * left. destruct Hs as [Hs _]. cbn [fst]. congruence.
      * right. split; [reflexivity|]. destruct Hs as [Hs|Hs]; congruence.
    + simpl. auto.
Qed.

(** C1.  Initialise lock [l] and run any sequence of calls of synch.c, by
    any threads.  In the state reached (and so, every prefix being such a
    sequence, at every point of the execution): the owner, when there is one,
    is the thread of the last completed acquisition of [l], and a completed
    acquisition is a decrement of the semaphore of [l] from a non-zero value;
    [lock_held_by_current_thread] changes nothing and returns true exactly
    when the calling thread is the recorded owner; two threads for which it
    returns true are the same thread. *)
Theorem lock_owner_is_last_acquirer
  (l : lock_id) (k : kernel) (acts : list action) :
  forall k0, lock_init l k = Ok (tt, k0) ->
  let h := fst (run acts k0) in
  let k' := snd (run acts k0) in
  (forall t, holder (locks k' l) = Some t -> last_acquirer l h = Some t) /\
  (forall a r k1 k2,
      step a k1 = Ok (r, k2) -> acquires l (a, r) = true ->
      holder (locks k2 l) = Some (act_thread a) /\
      value (get_sema k1 (LockSema l)) <> 0 /\
      value (get_sema k2 (LockSema l)) = wrap32 (value (get_sema k1 (LockSema l)) - 1)) /\
  (forall t, exists b,
        lock_held_by_current_thread l (with_cur t k') = Ok (b, with_cur t k') /\
        (b = true <-> holder (locks k' l) = Some t)) /\
  (forall t1 t2,
      lock_held_by_current_thread l (with_cur t1 k') = Ok (true, with_cur t1 k') ->
      lock_held_by_current_thread l (with_cur t2 k') = Ok (true, with_cur t2 k') ->
      t1 = t2).
Proof.
  intros k0 Hinit h k'. subst h k'.
  assert (Hnone : holder (locks k0 l) = None).
  { unfold lock_init, sema_init, bind, modify in Hinit. inv_ok Hinit.
    cbn [locks with_locks]. unfold upd. now rewrite !Nat.eqb_refl. }
  assert (Hheld : forall t k1,
             lock_held_by_current_thread l (with_cur t k1)
             = Ok (held_by_current (with_cur t k1) l, with_cur t k1)).
  { intros. apply lock_held_by_current_thread_eq. }
  assert (Hiff : forall t k1, held_by_current (with_cur t k1) l = true
                              <-> holder (locks k1 l) = Some t).
  { intros t k1. apply (held_by_current_true (with_cur t k1) l). }
  split; [|split; [|split]].
  - intros t Ht. destruct (run_last_acquirer l acts k0 t Ht) as [H|[_ H]]; [exact H|].
    congruence.
  - intros a r k1 k2 Hstep Hacq. pose proof (step_holder l a k1 r k2 Hstep) as Hs.
    rewrite Hacq in Hs. destruct Hs as (H1 & _ & H3 & H4). auto.
  - intros t. eexists. split; [apply Hheld | apply Hiff].
  - intros t1 t2 H1 H2. rewrite Hheld in H1, H2. inv_ok H1. inv_ok H2.
    match goal with
    | A : held_by_current (with_cur t1 _) l = true,
      B : held_by_current (with_cur t2 _) l = true |- _ =>
        apply Hiff in A; apply Hiff in B; congruence
    end.
Qed.

Lemma lock_owner_is_last_acquirer_witness :
  map snd (fst (run handover_scenario kernel_lock_initialised))
  = [RetOutcome Done; RetOutcome Blocked; RetUnit; RetOutcome Done] /\
  holder (locks (snd (run handover_scenario kernel_lock_initialised)) 0%nat) = Some 2%nat /\
  last_acquirer 0%nat (fst (run handover_scenario kernel_lock_initialised)) = Some 2%nat.
Proof.
  split; [vm_compute; reflexivity|].
  split; [vm_compute; reflexivity|].
  destruct (lock_owner_is_last_acquirer 0%nat kernel_init handover_scenario
              kernel_lock_initialised eq_refl) as (H & _).
  apply H. vm_compute. reflexivity.
Defined.

(** ** [cond_wait] *)

Lemma lock_release_sched l k :
  holder (locks k l) = Some (cur k) ->
  exists k' evs,
    lock_release l k = Ok (tt, k') /\
    sched k' = sched k ++ evs /\
    (forall t, ~ In (EvBlock t) evs) /\
    (forall t, status (threads k' t) = status (threads k t)
               \/ status (threads k' t) = THREAD_READY).
Proof.
  intros Hheld.
  destruct (lock_release_ok l k Hheld) as (k1 & k2 & Hrs & Hup & Hrun).
  destruct (sema_up_ok (LockSema l) k1) as (k2' & Hup' & Hpost).
  rewrite Hup in Hup'. inv_ok Hup'.
  destruct Hrs as [Hths _ _ _ Hcur _ Hsched].
  destruct Hpost as [_ _ _ _ _ _ Hths2 Hsched2].
  rewrite Hsched in Hsched2.
  set (w := highest_waiter k1 (LockSema l)) in *.
  assert (Hst : forall t, status (threads k2' t) = status (threads k t)
                          \/ status (threads k2' t) = THREAD_READY).
  { intros t. rewrite Hths2. unfold wake.
    assert (E : status (threads k1 t) = status (threads k t)).
    { rewrite Hths. destruct (Nat.eqb_spec t (cur k)); subst; reflexivity. }
    destruct w as [w0|]; [destruct (Nat.eqb t w0)|]; simpl; auto. }
  destruct (original_priority (threads k (cur k)) <? priority (threads k (cur k)));
    eexists; eexists; (split; [exact Hrun|]).
  - cbn [sched with_sched threads]. rewrite Hsched2, <- app_assoc.
    split; [reflexivity|]. split; [|exact Hst].
    intros t Hin. apply in_app_or in Hin.
    destruct w as [w0|]; [destruct (prio k1 (cur k1) <? prio k1 w0)|];
      simpl in Hin; intuition discriminate.
  - rewrite Hsched2. split; [reflexivity|]. split; [|exact Hst].
    intros t Hin.
    destruct w as [w0|]; [destruct (prio k1 (cur k1) <? prio k1 w0)|];
      simpl in Hin; intuition discriminate.
Qed.

Lemma cond_wait_ok c l k :
  in_intr k = false ->
  holder (locks k l) = Some (cur k) ->
  exists k1 evs,
    cond_wait c l k = Ok (CW_DOWN, k1) /\
    cond_waiters (conds k1 c) = cond_waiters (conds k c) ++ [cur k] /\
    waiter_frames k1 (cur k) = mkSema 0 [] /\
    holder (locks k1 l) = None /\
    cur k1 = cur k /\
    sched k1 = sched k ++ evs /\
    (forall t, ~ In (EvBlock t) evs) /\
    (status (threads k1 (cur k)) = status (threads k (cur k))
     \/ status (threads k1 (cur k)) = THREAD_READY).
Proof.
  intros Hintr Hheld.
  unfold cond_wait, cond_wait_begin, bind, intr_context, gets.
  rewrite Hintr. cbn [negb ASSERT ret].
  rewrite lock_held_by_current_thread_eq, Hheld, Nat.eqb_refl. cbn [ASSERT ret].
  unfold thread_current, sema_init, gets, modify.
  set (k0 := set_cond_waiters c _ _).
  assert (Hheld0 : holder (locks k0 l) = Some (cur k0)) by exact Hheld.
  destruct (lock_release_threads l k0 Hheld0)
    as (k1 & Hrun & Hnone & _ & _ & _ & _ & _ & _ & _ & Hcur & Hconds & Hsema).
  destruct (lock_release_sched l k0 Hheld0) as (k1' & evs & Hrun' & Hsched & Hnb & Hst).
  rewrite Hrun in Hrun'. inv_ok Hrun'.
  exists k1', evs. rewrite Hrun. split; [reflexivity|].
  split; [|split; [|split; [|split; [|split; [|split]]]]].
  - rewrite Hconds. subst k0. simpl. rewrite upd_same. reflexivity.
  - specialize (Hsema (WaiterSema (cur k)) ltac:(discriminate)).
    simpl in Hsema. rewrite Hsema. now rewrite upd_same.
  - exact Hnone.
  - exact Hcur.
  - exact Hsched.
  - exact Hnb.
  - apply Hst.
Qed.




(** ** [cond_signal] and [cond_broadcast] when every waiter has blocked *)

Lemma unblocked_app a b : unblocked (a ++ b) = unblocked a ++ unblocked b.
Proof. unfold unblocked. apply flat_map_app. Qed.

Lemma list_remove_in e x l : In x (list_remove e l) -> In x l.
Proof.
  induction l as [|y l IH]; simpl; [tauto|].
  destruct (Nat.eqb y e); simpl; tauto.
Qed.

Lemma list_remove_NoDup e l : NoDup l -> NoDup (list_remove e l) /\ ~ In e (list_remove e l).
Proof.
  induction 1 as [|y l Hy Hnd IH]; simpl.
  - split; [constructor | tauto].
  - destruct (Nat.eqb_spec y e) as [->|Hne].
    + auto.
    + destruct IH as [IH1 IH2]. split.
      * constructor; [|exact IH1]. intros Hin. apply Hy. eapply list_remove_in; eauto.
      * simpl. intros [E|Hin]; [congruence | contradiction].
Qed.

Lemma list_remove_perm e l : In e l -> Permutation l (e :: list_remove e l).
Proof.
  induction l as [|y l IH]; simpl; [tauto|].
  destruct (Nat.eqb_spec y e) as [->|Hne].
  - intros _. apply Permutation_refl.
  - intros [E|Hin]; [congruence|].
    eapply Permutation_trans; [apply perm_skip, IH, Hin | apply perm_swap].
Qed.

(** One [cond_signal] on a condition all of whose waiters have blocked. *)
Lemma cond_signal_step c l k :
  in_intr k = false ->
  holder (locks k l) = Some (cur k) ->
  cond_waiters (conds k c) <> [] ->
  waiters_blocked k c ->
  exists e t k',
    cond_signal c l k = Ok (tt, k') /\
    In e (cond_waiters (conds k c)) /\
    entry_thread k e = Some t /\
    In t (waiters (waiter_frames k e)) /\
    (forall e', In e' (cond_waiters (conds k c)) -> entry_prio k e' <= prio k t) /\
    cond_waiters (conds k' c) = list_remove e (cond_waiters (conds k c)) /\
    waiter_frames k' e
    = mkSema (wrap32 (value (waiter_frames k e) + 1))
             (list_remove t (waiters (waiter_frames k e))) /\
    (forall e', e' <> e -> waiter_frames k' e' = waiter_frames k e') /\
    (forall u, prio k' u = prio k u) /\
    status (threads k' t) = THREAD_READY /\
    (forall u, status (threads k' u) = THREAD_READY
               \/ status (threads k' u) = status (threads k u)) /\
    unblocked (sched k') = unblocked (sched k) ++ [t] /\
    in_intr k' = false /\ holder (locks k' l) = Some (cur k').
Proof.
  intros Hintr Hheld Hne Hinv.
  destruct (cond_signal_ok c l k Hintr Hheld Hne Hinv)
    as (e & t & k' & Hrun & Hin & Hmax & Het & Htin & Hpost).
  destruct Hpost as [Hsema Hother Hhold Hconds Hcur Hintr' Hths Hsched].
  exists e, t, k'. split; [exact Hrun|]. split; [exact Hin|]. split; [exact Het|].
  split; [exact Htin|].
  assert (Hep : entry_prio k e = prio k t) by (unfold entry_prio; now rewrite Het).
  split; [intros e' He'; rewrite <- Hep; now apply Hmax|].
  split; [rewrite Hconds; simpl; now rewrite upd_same|].
  split; [exact Hsema|].
  split.
  { intros e' Hne'. apply (Hother (WaiterSema e')). congruence. }
  split.
  { intros u. unfold prio. rewrite Hths.
    now destruct (wake_fields (Some t) (set_cond_waiters c
                    (list_remove e (cond_waiters (conds k c))) k) u) as (-> & _). }
  split.
  { rewrite Hths. simpl. now rewrite Nat.eqb_refl. }
  split.
  { intros u. rewrite Hths. simpl. destruct (Nat.eqb u t); simpl; auto. }
  split.
  { rewrite Hsched, unblocked_app. f_equal. simpl.
    destruct (_ <? _); reflexivity. }
  split; [rewrite Hintr'; exact Hintr|].
  rewrite Hhold, Hcur. exact Hheld.
Qed.

Lemma cond_broadcast_loop_ok c l : forall n k,
  length (cond_waiters (conds k c)) = n ->
  in_intr k = false ->
  holder (locks k l) = Some (cur k) ->
  NoDup (cond_waiters (conds k c)) ->
  waiters_blocked k c ->
  exists k' ts,
    cond_broadcast_loop n c l k = Ok (tt, k') /\
    cond_waiters (conds k' c) = [] /\
    unblocked (sched k') = unblocked (sched k) ++ ts /\
    Permutation (map Some ts) (map (entry_thread k) (cond_waiters (conds k c))) /\
    StronglySorted (fun a b => prio k b <= prio k a) ts /\
    (forall u, prio k' u = prio k u) /\
    (forall u, status (threads k' u) = THREAD_READY
               \/ status (threads k' u) = status (threads k u)) /\
    (forall t, In t ts -> status (threads k' t) = THREAD_READY).
Proof.
  induction n as [|n IH]; intros k Hlen Hintr Hheld Hnd Hinv.
  - destruct (cond_waiters (conds k c)) as [|x ws] eqn:Ews; [|discriminate].
    exists k, []. simpl. unfold bind, gets. rewrite Ews. simpl.
    rewrite app_nil_r. repeat split; auto; [constructor | intros t []].
  - destruct (cond_waiters (conds k c)) as [|x ws] eqn:Ews; [discriminate|].
    destruct (cond_signal_step c l k Hintr Hheld) as
      (e & t & k1 & Hrun & Hin & Het & _ & Hmax & Hws1 & _ & Hframes & Hprio & Hready
       & Hstatus & Hunb & Hintr1 & Hheld1); [rewrite Ews; discriminate | exact Hinv |].
    rewrite Ews in *.
    destruct (list_remove_NoDup e _ Hnd) as [Hnd1 Hnotin].
    assert (Hlen1 : length (cond_waiters (conds k1 c)) = n).
    { rewrite Hws1. pose proof (list_remove_length e _ Hin) as H.
      cbn [length] in H, Hlen. unfold tid in *. lia. }
    assert (Hinv1 : waiters_blocked k1 c).
    { intros e' He'. rewrite Hws1 in He'.
      rewrite Hframes by (intros ->; contradiction).
      apply Hinv. rewrite Ews. eapply list_remove_in; eauto. }
    assert (Hentry : forall e', In e' (list_remove e (x :: ws)) ->
                                entry_thread k1 e' = entry_thread k e').
    { intros e' He'. unfold entry_thread. apply highest_waiter_ext; [exact Hprio|].
      simpl. apply Hframes. intros ->. contradiction. }
    rewrite <- Hws1 in Hnd1.
    destruct (IH k1 Hlen1 Hintr1 Hheld1 Hnd1 Hinv1)
      as (k' & ts & Hloop & Hempty & Hunb' & Hperm & Hsorted & Hprio' & Hstatus' & Hready').
    exists k', (t :: ts).
    split.
    { cbn [cond_broadcast_loop]. unfold bind at 1, gets. rewrite Ews.
      cbn [list_empty negb]. unfold bind. rewrite Hrun. exact Hloop. }
    split; [exact Hempty|].
    split; [rewrite Hunb', Hunb, <- app_assoc; reflexivity|].
    rewrite Hws1 in Hperm.
    assert (Hperm2 : Permutation (map Some ts) (map (entry_thread k) (list_remove e (x :: ws)))).
    { assert (E : map (entry_thread k1) (list_remove e (x :: ws))
                  = map (entry_thread k) (list_remove e (x :: ws)))
        by (apply map_ext_in; exact Hentry).
      now rewrite <- E. }
    split.
    { change (map Some (t :: ts)) with (Some t :: map Some ts). rewrite <- Het.
      eapply Permutation_trans; [apply perm_skip, Hperm2|].
      change (entry_thread k e :: map (entry_thread k) (list_remove e (x :: ws)))
        with (map (entry_thread k) (e :: list_remove e (x :: ws))).
      apply Permutation_sym, Permutation_map, list_remove_perm, Hin. }
    split.
    { constructor.
      - clear -Hsorted Hprio.
        induction Hsorted as [|a ts0 Hs IHs Hall]; constructor; auto.
        + rewrite Forall_forall in *. intros b Hb. rewrite <- !Hprio. now apply Hall.
      - rewrite Forall_forall. intros t1 Ht1.
        assert (Hsome : In (Some t1) (map (entry_thread k) (list_remove e (x :: ws)))).
        { eapply Permutation_in; [exact Hperm2|]. now apply in_map. }
        apply in_map_iff in Hsome. destruct Hsome as (e1 & He1 & Hin1).
        specialize (Hmax e1 (list_remove_in _ _ _ Hin1)).
        unfold entry_prio in Hmax. now rewrite He1 in Hmax. }
    split; [intros u; now rewrite Hprio', Hprio|].
    split.
    { intros u. destruct (Hstatus' u) as [H|H]; [now left|].
      rewrite H. apply Hstatus. }
    intros t0 [<-|Ht0]; [|now apply Hready'].
    destruct (Hstatus' t) as [H|H]; [exact H | now rewrite H].
Qed.

(** X1.  When every queued semaphore has its waiter, [cond_signal] removes the
    element whose thread has the highest priority and wakes that thread, and
    [cond_broadcast] empties the waiter list, waking the threads of all its
    elements in order of decreasing priority. *)
Lemma cond_signal_and_broadcast_when_waiters_blocked c l k :
  in_intr k = false ->
  holder (locks k l) = Some (cur k) ->
  NoDup (cond_waiters (conds k c)) ->
  waiters_blocked k c ->
  (cond_waiters (conds k c) <> [] ->
   exists e t k',
     cond_signal c l k = Ok (tt, k') /\
     In e (cond_waiters (conds k c)) /\
     entry_thread k e = Some t /\
     (forall e' t', In e' (cond_waiters (conds k c)) ->
                    In t' (waiters (waiter_frames k e')) -> prio k t' <= prio k t) /\
     cond_waiters (conds k' c) = list_remove e (cond_waiters (conds k c)) /\
     value (waiter_frames k' e) = wrap32 (value (waiter_frames k e) + 1) /\
     status (threads k' t) = THREAD_READY /\
     unblocked (sched k') = unblocked (sched k) ++ [t]) /\
  (exists k' ts,
      cond_broadcast c l k = Ok (tt, k') /\
      cond_waiters (conds k' c) = [] /\
      unblocked (sched k') = unblocked (sched k) ++ ts /\
      Permutation (map Some ts) (map (entry_thread k) (cond_waiters (conds k c))) /\
      StronglySorted (fun a b => prio k b <= prio k a) ts /\
      (forall t, In t ts -> status (threads k' t) = THREAD_READY)).
Proof.
  intros Hintr Hheld Hnd Hinv. split.
  - intros Hne.
    destruct (cond_signal_step c l k Hintr Hheld Hne Hinv) as
      (e & t & k1 & Hrun & Hin & Het & _ & Hmax & Hws1 & Hframe & _ & _ & Hready
       & _ & Hunb & _).
    exists e, t, k1. repeat (split; [assumption|]).
    split.
    { intros e' t' He' Ht'. specialize (Hmax e' He').
      destruct (entry_thread_some k e') as (tm & Hem & _ & _ & Hle).
      - intros E. rewrite E in Ht'. contradiction.
      - unfold entry_prio in Hmax. rewrite Hem in Hmax. specialize (Hle t' Ht'). lia. }
    split; [exact Hws1|]. split; [now rewrite Hframe|]. split; assumption.
  - destruct (cond_broadcast_loop_ok c l _ k eq_refl Hintr Hheld Hnd Hinv)
      as (k' & ts & Hloop & Hempty & Hunb & Hperm & Hsorted & _ & _ & Hready).
    exists k', ts. unfold cond_broadcast, bind, gets. rewrite Hloop.
    repeat split; assumption.
Qed.

Lemma cond_signal_and_broadcast_when_waiters_blocked_witness :
  exists k' ts,
    cond_broadcast 0 0 kernel_two_cond_waiters = Ok (tt, k') /\
    cond_waiters (conds k' 0%nat) = [] /\
    unblocked (sched k') = unblocked (sched kernel_two_cond_waiters) ++ ts.
Proof.
  destruct (cond_signal_and_broadcast_when_waiters_blocked 0%nat 0%nat kernel_two_cond_waiters)
    as (_ & k' & ts & Hrun & Hempty & Hunb & _).
  - vm_compute. reflexivity.
  - vm_compute. reflexivity.
  - vm_compute. repeat constructor; simpl; intuition discriminate.
  - exact kernel_two_cond_waiters_blocked.
  - exists k', ts. split; [exact Hrun|]. split; [exact Hempty | exact Hunb].
Defined.

(** ** [cond_signal] and [cond_broadcast] whatever the queued semaphores hold *)

Lemma entry_threads_ext k k' ws :
  (forall e, In e ws -> entry_thread k' e = entry_thread k e) ->
  entry_threads k' ws = entry_threads k ws.
Proof.
  induction ws as [|e ws IH]; intros H; [reflexivity|].
  unfold entry_threads in *. cbn [flat_map].
  rewrite (H e (or_introl eq_refl)), IH; [reflexivity|].
  intros e' He'. apply H. now right.
Qed.

Lemma entry_threads_in k ws t :
  In t (entry_threads k ws) <-> exists e, In e ws /\ entry_thread k e = Some t.
Proof.
  unfold entry_threads. rewrite in_flat_map. split.
  - intros (e & He & Ht). exists e. split; [exact He|].
    destruct (entry_thread k e) as [t0|]; simpl in Ht; [|contradiction].
    destruct Ht as [->|[]]. reflexivity.
  - intros (e & He & Ht). exists e. split; [exact He|]. rewrite Ht. now left.
Qed.

Lemma entry_threads_perm k ws ws' :
  Permutation ws ws' -> Permutation (entry_threads k ws) (entry_threads k ws').
Proof.
  unfold entry_threads. induction 1; cbn [flat_map].
  - constructor.
  - now apply Permutation_app_head.
  - rewrite !app_assoc. apply Permutation_app_tail, Permutation_app_comm.
  - eapply Permutation_trans; eauto.
Qed.

(** One [cond_signal], with or without a waiter on each queued semaphore. *)
Lemma cond_signal_key_step c l k :
  in_intr k = false ->
  holder (locks k l) = Some (cur k) ->
  cond_waiters (conds k c) <> [] ->
  exists e k',
    cond_signal c l k = Ok (tt, k') /\
    In e (cond_waiters (conds k c)) /\
    (forall e', In e' (cond_waiters (conds k c)) -> entry_key k e' <= entry_key k e) /\
    cond_waiters (conds k' c) = list_remove e (cond_waiters (conds k c)) /\
    value (waiter_frames k' e) = wrap32 (value (waiter_frames k e) + 1) /\
    (forall e', e' <> e -> waiter_frames k' e' = waiter_frames k e') /\
    (forall u, prio k' u = prio k u) /\
    (forall t, entry_thread k e = Some t -> status (threads k' t) = THREAD_READY) /\
    (forall u, status (threads k' u) = THREAD_READY
               \/ status (threads k' u) = status (threads k u)) /\
    unblocked (sched k') = unblocked (sched k) ++ entry_threads k [e] /\
    in_intr k' = false /\ holder (locks k' l) = Some (cur k').
Proof.
  intros Hintr Hheld Hne.
  destruct (cond_signal_returns c l k Hintr Hheld Hne) as (e & k' & Hrun & Hin & Hmax & Hpost).
  destruct Hpost as [Hsema Hother Hhold Hconds Hcur Hintr' Hths Hsched].
  exists e, k'. split; [exact Hrun|]. split; [exact Hin|]. split; [exact Hmax|].
  split; [rewrite Hconds; simpl; now rewrite upd_same|].
  split; [apply (f_equal value) in Hsema; exact Hsema|].
  split.
  { intros e' Hne'. apply (Hother (WaiterSema e')). congruence. }
  split.
  { intros u. unfold prio. rewrite Hths.
    now destruct (wake_fields (entry_thread k e) (set_cond_waiters c
                    (list_remove e (cond_waiters (conds k c))) k) u) as (-> & _). }
  split.
  { intros t Ht. rewrite Hths, Ht. simpl. now rewrite Nat.eqb_refl. }
  split.
  { intros u. rewrite Hths. unfold wake.
    destruct (entry_thread k e) as [t|]; [|now right].
    simpl. destruct (Nat.eqb u t); simpl; auto. }
  split.
  { rewrite Hsched, unblocked_app. f_equal. unfold entry_threads. cbn [flat_map].
    destruct (entry_thread k e) as [t|]; [|reflexivity].
    simpl. destruct (_ <? _); reflexivity. }
  split; [rewrite Hintr'; exact Hintr|].
  rewrite Hhold, Hcur. exact Hheld.
Qed.

(** The loop of [cond_broadcast]: it ends with an empty waiter list after
    one [cond_signal] for each element, and has woken the threads that the
    elements stood for, highest priority first. *)
Lemma cond_broadcast_loop_keys c l : forall n k,
  length (cond_waiters (conds k c)) = n ->
  in_intr k = false ->
  holder (locks k l) = Some (cur k) ->
  NoDup (cond_waiters (conds k c)) ->
  exists k' ts,
    cond_broadcast_loop n c l k = Ok (tt, k') /\
    cond_waiters (conds k' c) = [] /\
    unblocked (sched k') = unblocked (sched k) ++ ts /\
    Permutation ts (entry_threads k (cond_waiters (conds k c))) /\
    StronglySorted (fun a b => prio k b <= prio k a) ts /\
    (forall u, prio k' u = prio k u) /\
    (forall u, status (threads k' u) = THREAD_READY
               \/ status (threads k' u) = status (threads k u)) /\
    (forall t, In t ts -> status (threads k' t) = THREAD_READY).
Proof.
  induction n as [|n IH]; intros k Hlen Hintr Hheld Hnd.
  - destruct (cond_waiters (conds k c)) as [|x ws] eqn:Ews; [|discriminate].
    exists k, []. simpl. unfold bind, gets. rewrite Ews. simpl.
    rewrite app_nil_r. repeat split; auto; [constructor | intros t []].
  - destruct (cond_waiters (conds k c)) as [|x ws] eqn:Ews; [discriminate|].
    destruct (cond_signal_key_step c l k Hintr Hheld) as
      (e & k1 & Hrun & Hin & Hmax & Hws1 & _ & Hframes & Hprio & Hready
       & Hstatus & Hunb & Hintr1 & Hheld1); [rewrite Ews; discriminate |].
    rewrite Ews in *.
    destruct (list_remove_NoDup e _ Hnd) as [Hnd1 Hnotin].
    assert (Hlen1 : length (cond_waiters (conds k1 c)) = n).
    { rewrite Hws1. pose proof (list_remove_length e _ Hin) as H.
      cbn [length] in H, Hlen. unfold tid in *. lia. }
    assert (Hentry : forall e', In e' (list_remove e (x :: ws)) ->
                                entry_thread k1 e' = entry_thread k e').
    { intros e' He'. unfold entry_thread. apply highest_waiter_ext; [exact Hprio|].
      simpl. apply Hframes. intros ->. contradiction. }
    rewrite <- Hws1 in Hnd1.
    destruct (IH k1 Hlen1 Hintr1 Hheld1 Hnd1)
      as (k' & ts & Hloop & Hempty & Hunb' & Hperm & Hsorted & Hprio' & Hstatus' & Hready').
    rewrite Hws1, (entry_threads_ext k k1 _ Hentry) in Hperm.
    assert (Hsorted1 : StronglySorted (fun a b => prio k b <= prio k a) ts).
    { clear -Hsorted Hprio.
      induction Hsorted as [|a ts0 Hs IHs Hall]; constructor; auto.
      rewrite Forall_forall in *. intros b Hb. rewrite <- !Hprio. now apply Hall. }
    assert (Hall : entry_threads k (e :: list_remove e (x :: ws))
                   = entry_threads k [e] ++ entry_threads k (list_remove e (x :: ws))).
    { unfold entry_threads. cbn [flat_map]. now rewrite app_nil_r. }
    exists k', (entry_threads k [e] ++ ts).
    split.
    { cbn [cond_broadcast_loop]. unfold bind at 1, gets. rewrite Ews.
      cbn [list_empty negb]. unfold bind. rewrite Hrun. exact Hloop. }
    split; [exact Hempty|].
    split; [rewrite Hunb', Hunb, <- app_assoc; reflexivity|].
    split.
    { eapply Permutation_trans;
        [apply Permutation_app_head, Hperm|].
      rewrite <- Hall. apply Permutation_sym, entry_threads_perm, list_remove_perm, Hin. }
    split.
    { unfold entry_threads at 1. cbn [flat_map]. rewrite app_nil_r.
      destruct (entry_thread k e) as [t|] eqn:Het; [|exact Hsorted1].
      cbn [app]. constructor; [exact Hsorted1|].
      rewrite Forall_forall. intros t1 Ht1.
      assert (Hin1 : In t1 (entry_threads k (list_remove e (x :: ws))))
        by (eapply Permutation_in; eauto).
      apply entry_threads_in in Hin1. destruct Hin1 as (e1 & He1 & Hsome).
      specialize (Hmax e1 (list_remove_in _ _ _ He1)).
      unfold entry_key in Hmax. now rewrite Hsome, Het in Hmax. }
    split; [intros u; now rewrite Hprio', Hprio|].
    split.
    { intros u. destruct (Hstatus' u) as [H|H]; [now left|].
      rewrite H. apply Hstatus. }
    intros t0 Ht0. apply in_app_or in Ht0. destruct Ht0 as [Ht0|Ht0]; [|now apply Hready'].
    apply entry_threads_in in Ht0. destruct Ht0 as (e0 & [<-|[]] & Ht0).
    destruct (Hstatus' t0) as [H|H]; [exact H | rewrite H; now apply Hready].
Qed.

(** X20.  Called by the holder of the lock outside an interrupt handler on a
    condition with a waiter, [cond_signal] returns: it removes an element
    that [sem_less_priority_func] ranks highest and ups its semaphore.  When
    each queued semaphore that has no waiter yet is read as a word below the
    priority of some blocked waiter, the removed element is the one whose
    blocked thread has the highest priority, and that thread is woken.
    [cond_broadcast] returns with an empty waiter list whatever the words
    are, and has woken the blocked thread of every element, highest priority
    first. *)
Theorem cond_signal_and_broadcast_wake_by_priority (c : cond_id) (l : lock_id) (k : kernel) :
  in_intr k = false ->
  holder (locks k l) = Some (cur k) ->
  NoDup (cond_waiters (conds k c)) ->
  (cond_waiters (conds k c) <> [] ->
   exists e k',
     cond_signal c l k = Ok (tt, k') /\
     In e (cond_waiters (conds k c)) /\
     (forall e', In e' (cond_waiters (conds k c)) -> entry_key k e' <= entry_key k e) /\
     cond_waiters (conds k' c) = list_remove e (cond_waiters (conds k c)) /\
     value (waiter_frames k' e) = wrap32 (value (waiter_frames k e) + 1) /\
     unblocked (sched k') = unblocked (sched k) ++ entry_threads k [e] /\
     (words_below_waiters k c ->
      exists t,
        entry_thread k e = Some t /\
        In t (waiters (waiter_frames k e)) /\
        (forall e' t', In e' (cond_waiters (conds k c)) ->
                       In t' (waiters (waiter_frames k e')) -> prio k t' <= prio k t) /\
        status (threads k' t) = THREAD_READY /\
        unblocked (sched k') = unblocked (sched k) ++ [t])) /\
  (exists k' ts,
      cond_broadcast c l k = Ok (tt, k') /\
      cond_waiters (conds k' c) = [] /\
      unblocked (sched k') = unblocked (sched k) ++ ts /\
      Permutation ts (entry_threads k (cond_waiters (conds k c))) /\
      StronglySorted (fun a b => prio k b <= prio k a) ts /\
      (forall t, In t ts -> status (threads k' t) = THREAD_READY)).
Proof.
  intros Hintr Hheld Hnd. split.
  - intros Hne.
    destruct (cond_signal_key_step c l k Hintr Hheld Hne) as
      (e & k1 & Hrun & Hin & Hmax & Hws1 & Hvalue & _ & _ & Hready & _ & Hunb & _).
    exists e, k1. do 5 (split; [assumption|]). split; [exact Hunb|].
    intros Hwords.
    assert (Hle : forall e' t', In e' (cond_waiters (conds k c)) ->
                                In t' (waiters (waiter_frames k e')) ->
                                prio k t' <= entry_key k e).
    { intros e' t' He' Ht'. specialize (Hmax e' He').
      destruct (entry_thread_some k e') as (tm & Hem & _ & _ & Hle).
      - intros E. rewrite E in Ht'. contradiction.
      - unfold entry_key in Hmax at 1. rewrite Hem in Hmax. specialize (Hle t' Ht'). lia. }
    destruct (entry_thread k e) as [t|] eqn:Het.
    + exists t. split; [reflexivity|].
      assert (Hkey : entry_key k e = prio k t) by (unfold entry_key; now rewrite Het).
      split.
      { destruct (entry_thread_some k e) as (t0 & Ht0 & _ & Hin0 & _).
        - intros E. apply entry_thread_none in E. congruence.
        - congruence. }
      split; [intros e' t' He' Ht'; rewrite <- Hkey; eauto|].
      split; [now apply Hready|].
      rewrite Hunb. unfold entry_threads. cbn [flat_map]. now rewrite Het.
    + exfalso.
      destruct (Hwords e Hin (entry_thread_empty k e Het)) as (e' & t' & He' & Ht' & Hlt).
      specialize (Hle e' t' He' Ht'). unfold entry_key in Hle. rewrite Het in Hle. lia.
  - destruct (cond_broadcast_loop_keys c l _ k eq_refl Hintr Hheld Hnd)
      as (k' & ts & Hloop & Hempty & Hunb & Hperm & Hsorted & _ & _ & Hready).
    exists k', ts. unfold cond_broadcast, bind, gets. rewrite Hloop.
    repeat split; assumption.
Qed.

Lemma kernel_signal_race_words_below : words_below_waiters kernel_signal_race 0%nat.
Proof.
  assert (Ews : cond_waiters (conds kernel_signal_race 0%nat) = [2; 0]%nat)
    by (vm_compute; reflexivity).
  assert (E2 : waiters (waiter_frames kernel_signal_race 2%nat) = [2]%nat)
    by (vm_compute; reflexivity).
  unfold words_below_waiters. rewrite Ews.
  intros e [<-|[<-|[]]] Hw; [rewrite E2 in Hw; discriminate|].
  exists 2%nat, 2%nat. split; [now left|]. split; [rewrite E2; now left|].
  vm_compute. reflexivity.
Qed.

Lemma cond_signal_and_broadcast_wake_by_priority_witness :
  (exists e t k',
      cond_signal 0 0 kernel_signal_race = Ok (tt, k') /\
      waiters (waiter_frames kernel_signal_race 0%nat) = [] /\
      entry_thread kernel_signal_race e = Some t /\
      unblocked (sched k') = unblocked (sched kernel_signal_race) ++ [t]) /\
  (exists k' ts,
      cond_broadcast 0 0 kernel_early_waiter = Ok (tt, k') /\
      cond_waiters (conds k' 0%nat) = [] /\
      Permutation ts [2%nat] /\
      unblocked (sched k') = unblocked (sched kernel_early_waiter) ++ ts).
Proof.
  split.
  - destruct (cond_signal_and_broadcast_wake_by_priority 0%nat 0%nat kernel_signal_race)
      as (H & _).
    + vm_compute. reflexivity.
    + vm_compute. reflexivity.
    + vm_compute. repeat constructor; simpl; intuition discriminate.
    + destruct H as (e & k' & Hrun & _ & _ & _ & _ & _ & H); [vm_compute; discriminate|].
      destruct (H kernel_signal_race_words_below) as (t & Het & _ & _ & _ & Hunb).
      exists e, t, k'. split; [exact Hrun|]. split; [vm_compute; reflexivity|].
      split; [exact Het | exact Hunb].
  - destruct (cond_signal_and_broadcast_wake_by_priority 0%nat 0%nat kernel_early_waiter)
      as (_ & k' & ts & Hrun & Hempty & Hunb & Hperm & _).
    + vm_compute. reflexivity.
    + vm_compute. reflexivity.
    + vm_compute. repeat constructor; simpl; intuition discriminate.
    + exists k', ts. split; [exact Hrun|]. split; [exact Hempty|]. split; [|exact Hunb].
      assert (E : entry_threads kernel_early_waiter
                    (cond_waiters (conds kernel_early_waiter 0%nat)) = [2%nat])
        by (vm_compute; reflexivity).
      now rewrite <- E.
Defined.

(** ** [cond_signal] while a waiter has not yet blocked *)

Lemma list_max_from_front (less : nat -> nat -> res bool) l : forall m,
  (forall b, In b l -> less m b = Ok false) -> list_max_from less m l = Ok m.
Proof.
  induction l as [|e l IH]; intros m H; [reflexivity|].
  cbn [list_max_from]. rewrite (H e (or_introl eq_refl)).
  apply IH. intros b Hb. apply H. now right.
Qed.

(** [cond_signal] once [list_max] has selected the element [e]. *)
Lemma cond_signal_selects c l k e :
  in_intr k = false ->
  holder (locks k l) = Some (cur k) ->
  list_max (sem_less_priority_func k) (cond_waiters (conds k c)) = Ok (Some e) ->
  exists k',
    cond_signal c l k = Ok (tt, k') /\
    sema_up_post (WaiterSema e) (set_cond_waiters c (list_remove e (cond_waiters (conds k c))) k)
                 (entry_thread k e) k'.
Proof.
  intros Hintr Hheld Hmax.
  set (k0 := set_cond_waiters c (list_remove e (cond_waiters (conds k c))) k).
  destruct (sema_up_ok (WaiterSema e) k0) as (k' & Hup & Hpost).
  assert (Hhw : highest_waiter k0 (WaiterSema e) = entry_thread k e).
  { unfold entry_thread. apply highest_waiter_ext; reflexivity. }
  rewrite Hhw in Hpost.
  exists k'. split; [|exact Hpost].
  unfold cond_signal, bind, intr_context, gets. rewrite Hintr. cbn [negb ASSERT ret].
  rewrite lock_held_by_current_thread_eq, Hheld, Nat.eqb_refl. cbn [ASSERT ret].
  destruct (cond_waiters (conds k c)) as [|x ws] eqn:Ews; [discriminate|].
  cbn [list_empty negb]. unfold lift. rewrite Hmax. unfold modify.
  fold k0. exact Hup.
Qed.

(** When the first element of the waiter list has no waiter on its
    semaphore and the word read for it is not below the key of any other
    element, [cond_signal] removes that element and wakes no thread. *)
Lemma cond_signal_front_without_waiter c l k e rest :
  in_intr k = false ->
  holder (locks k l) = Some (cur k) ->
  cond_waiters (conds k c) = e :: rest ->
  ~ In e rest ->
  waiters (waiter_frames k e) = [] ->
  (forall e', In e' rest -> entry_key k e' <= stray k (clock k) e) ->
  exists k',
    cond_signal c l k = Ok (tt, k') /\
    cond_waiters (conds k' c) = rest /\
    waiter_frames k' e = mkSema (wrap32 (value (waiter_frames k e) + 1)) [] /\
    (forall e', e' <> e -> waiter_frames k' e' = waiter_frames k e') /\
    (forall t, threads k' t = threads k t) /\
    sched k' = sched k.
Proof.
  intros Hintr Hheld Hws Hnotin Hnone Hle.
  assert (Hnot : entry_thread k e = None) by now apply entry_thread_none.
  assert (Hkey : entry_key k e = stray k (clock k) e)
    by (unfold entry_key; now rewrite Hnot).
  destruct (cond_signal_selects c l k e Hintr Hheld) as (k' & Hrun & Hpost).
  { rewrite Hws. cbn [list_max]. rewrite list_max_from_front; [reflexivity|].
    intros b Hb. rewrite sem_less_priority_func_key, Hkey. f_equal.
    apply Z.ltb_ge. now apply Hle. }
  rewrite Hnot in Hpost.
  destruct Hpost as [Hsema Hother Hhold Hconds Hcur Hintr' Hths Hsched].
  exists k'. split; [exact Hrun|].
  split.
  { rewrite Hconds. simpl. rewrite upd_same. simpl. rewrite Hws. simpl.
    now rewrite Nat.eqb_refl. }
  split.
  { etransitivity; [exact Hsema|]. simpl. now rewrite Hnone. }
  split.
  { intros e' Hne'. apply (Hother (WaiterSema e')). congruence. }
  split; [intros t; now rewrite Hths|].
  rewrite Hsched. simpl. now rewrite app_nil_r.
Qed.

(** [cond_signal] once the last of two elements is the only one of the
    greatest key: it removes that element. *)
Lemma cond_signal_back_without_waiter c l k e1 e2 :
  in_intr k = false ->
  holder (locks k l) = Some (cur k) ->
  cond_waiters (conds k c) = [e1; e2] ->
  e1 <> e2 ->
  waiters (waiter_frames k e2) = [] ->
  entry_key k e1 < stray k (clock k) e2 ->
  exists k',
    cond_signal c l k = Ok (tt, k') /\
    cond_waiters (conds k' c) = [e1] /\
    waiter_frames k' e2 = mkSema (wrap32 (value (waiter_frames k e2) + 1)) [] /\
    (forall e', e' <> e2 -> waiter_frames k' e' = waiter_frames k e') /\
    (forall t, threads k' t = threads k t) /\
    sched k' = sched k.
Proof.
  intros Hintr Hheld Hws Hne Hnone Hlt.
  assert (Hnot : entry_thread k e2 = None) by now apply entry_thread_none.
  assert (Hkey : entry_key k e2 = stray k (clock k) e2)
    by (unfold entry_key; now rewrite Hnot).
  destruct (cond_signal_selects c l k e2 Hintr Hheld) as (k' & Hrun & Hpost).
  { rewrite Hws. cbn [list_max list_max_from]. rewrite sem_less_priority_func_key, Hkey.
    apply Z.ltb_lt in Hlt. now rewrite Hlt. }
  rewrite Hnot in Hpost.
  destruct Hpost as [Hsema Hother Hhold Hconds Hcur Hintr' Hths Hsched].
  exists k'. split; [exact Hrun|].
  split.
  { rewrite Hconds. simpl. rewrite upd_same. simpl. rewrite Hws. simpl.
    apply Nat.eqb_neq in Hne. rewrite Hne. now rewrite Nat.eqb_refl. }
  split.
  { etransitivity; [exact Hsema|]. simpl. now rewrite Hnone. }
  split.
  { intros e' Hne'. apply (Hother (WaiterSema e')). congruence. }
  split; [intros t; now rewrite Hths|].
  rewrite Hsched. simpl. now rewrite app_nil_r.
Qed.

(** C8 (evaluation at the failing input).  In the state reached by
    [early_waiter_scenario] the condition has two queued semaphores: first
    the one of thread 0, which has released the lock inside [cond_wait] and
    has not yet called [sema_down], then the one of thread 2, which is
    blocked on it with priority 0.  Thread 1 holds the lock and is not in an
    interrupt handler.  Its [cond_signal] compares the two elements; the
    comparator reads the priority of the first through the sentinel of its
    empty waiter list.  Whenever the word read there is not negative (it is 0
    in [kernel_init]), [cond_signal] removes the element of thread 0 and ups
    its semaphore, which wakes no thread: the element of thread 2, the only
    one with a blocked thread, stays queued and thread 2 stays blocked.  In
    the state reached by [signal_race_scenario], where the blocked thread 2
    has priority 30 and is queued first, the same happens for every word
    above 30. *)
Theorem cond_signal_passes_over_blocked_waiter :
  map snd (fst (run early_waiter_scenario kernel_init_low_waiter))
  = [RetOutcome Done; RetPc (Some CW_DOWN); RetOutcome Done; RetPc (Some CW_DOWN);
     RetPc (Some CW_DOWN_BLOCKED); RetOutcome Done] /\
  cond_waiters (conds kernel_early_waiter 0%nat) = [0; 2]%nat /\
  waiters (waiter_frames kernel_early_waiter 0%nat) = [] /\
  waiters (waiter_frames kernel_early_waiter 2%nat) = [2]%nat /\
  status (threads kernel_early_waiter 2%nat) = THREAD_BLOCKED /\
  prio kernel_early_waiter 2%nat = 0 /\
  holder (locks kernel_early_waiter 0%nat) = Some (cur kernel_early_waiter) /\
  in_intr kernel_early_waiter = false /\
  sem_priorities kernel_early_waiter 0%nat 2%nat = Ok (FromSentinel 0, FromThread 0) /\
  (exists k',
      cond_signal 0 0 kernel_early_waiter = Ok (tt, k') /\
      cond_waiters (conds k' 0%nat) = [2]%nat /\
      waiter_frames k' 0%nat = mkSema 1 [] /\
      waiter_frames k' 2%nat = mkSema 0 [2]%nat /\
      status (threads k' 2%nat) = THREAD_BLOCKED /\
      unblocked (sched k') = unblocked (sched kernel_early_waiter)) /\
  (forall w, 0 <= w ->
     sem_priorities (with_word w kernel_early_waiter) 0%nat 2%nat
     = Ok (FromSentinel w, FromThread 0) /\
     exists k',
       cond_signal 0 0 (with_word w kernel_early_waiter) = Ok (tt, k') /\
       cond_waiters (conds k' 0%nat) = [2]%nat /\
       waiter_frames k' 0%nat = mkSema 1 [] /\
       waiter_frames k' 2%nat = mkSema 0 [2]%nat /\
       status (threads k' 2%nat) = THREAD_BLOCKED /\
       unblocked (sched k') = unblocked (sched kernel_early_waiter)) /\
  cond_waiters (conds kernel_signal_race 0%nat) = [2; 0]%nat /\
  waiters (waiter_frames kernel_signal_race 2%nat) = [2]%nat /\
  waiters (waiter_frames kernel_signal_race 0%nat) = [] /\
  status (threads kernel_signal_race 2%nat) = THREAD_BLOCKED /\
  prio kernel_signal_race 2%nat = 30 /\
  (forall w, 30 < w ->
     sem_priorities (with_word w kernel_signal_race) 2%nat 0%nat
     = Ok (FromThread 30, FromSentinel w) /\
     exists k',
       cond_signal 0 0 (with_word w kernel_signal_race) = Ok (tt, k') /\
       cond_waiters (conds k' 0%nat) = [2]%nat /\
       waiter_frames k' 0%nat = mkSema 1 [] /\
       waiter_frames k' 2%nat = mkSema 0 [2]%nat /\
       status (threads k' 2%nat) = THREAD_BLOCKED /\
       unblocked (sched k') = unblocked (sched kernel_signal_race)).
Proof.
  do 9 (split; [vm_compute; reflexivity|]).
  split.
  { eexists. split; [vm_compute; reflexivity|].
    repeat split; vm_compute; reflexivity. }
  split.
  { intros w Hw. split; [vm_compute; reflexivity|].
    destruct (cond_signal_front_without_waiter 0%nat 0%nat (with_word w kernel_early_waiter)
                0%nat [2%nat])
      as (k' & Hrun & Hws & Hf0 & Hother & Hths & Hsched).
    - vm_compute. reflexivity.
    - vm_compute. reflexivity.
    - vm_compute. reflexivity.
    - vm_compute. intuition discriminate.
    - vm_compute. reflexivity.
    - intros e' [<-|[]].
      change (stray (with_word w kernel_early_waiter)
                (clock (with_word w kernel_early_waiter)) 0%nat) with w.
      assert (E : entry_key (with_word w kernel_early_waiter) 2%nat = 0)
        by (vm_compute; reflexivity).
      rewrite E. exact Hw.
    - exists k'. split; [exact Hrun|]. split; [exact Hws|].
      split; [rewrite Hf0; vm_compute; reflexivity|].
      split; [rewrite Hother by discriminate; vm_compute; reflexivity|].
      split; [rewrite Hths; vm_compute; reflexivity|].
      rewrite Hsched. vm_compute. reflexivity. }
  do 5 (split; [vm_compute; reflexivity|]).
  intros w Hw. split; [vm_compute; reflexivity|].
  destruct (cond_signal_back_without_waiter 0%nat 0%nat (with_word w kernel_signal_race)
              2%nat 0%nat)
    as (k' & Hrun & Hws & Hf0 & Hother & Hths & Hsched).
  - vm_compute. reflexivity.
  - vm_compute. reflexivity.
  - vm_compute. reflexivity.
  - discriminate.
  - vm_compute. reflexivity.
  - change (stray (with_word w kernel_signal_race)
              (clock (with_word w kernel_signal_race)) 0%nat) with w.
    assert (E : entry_key (with_word w kernel_signal_race) 2%nat = 30)
      by (vm_compute; reflexivity).
    rewrite E. exact Hw.
  - exists k'. split; [exact Hrun|]. split; [exact Hws|].
    split; [rewrite Hf0; vm_compute; reflexivity|].
    split; [rewrite Hother by discriminate; vm_compute; reflexivity|].
    split; [rewrite Hths; vm_compute; reflexivity|].
    rewrite Hsched. vm_compute. reflexivity.
Qed.

(** ** Mutual exclusion

    As long as the semaphore of a lock is reached through the lock only, the
    lock is free with value 1 or owned with value 0, and an acquisition
    completes only on a free lock. *)

Lemma lock_untouched_refl l k : lock_untouched l k k.
Proof. split; reflexivity. Qed.

Lemma lock_untouched_trans l k1 k2 k3 :
  lock_untouched l k1 k2 -> lock_untouched l k2 k3 -> lock_untouched l k1 k3.
Proof. intros [A B] [C D]. split; congruence. Qed.

Lemma lock_untouched_set_sema l p s k :
  p <> LockSema l -> lock_untouched l k (set_sema p s k).
Proof.
  intros Hp. split; [apply holder_set_sema|].
  unfold lock_value. now rewrite get_set_sema_other.
Qed.

Lemma lock_untouched_same_but_priority l k k' :
  same_but_priority k k' -> lock_untouched l k k'.
Proof.
  intros H. split; [now rewrite (sbp_locks _ _ H)|].
  unfold lock_value. now rewrite (same_but_priority_get_sema _ _ _ H).
Qed.

Lemma lock_untouched_same_but_threads l k k' :
  same_but_threads k k' -> lock_untouched l k k'.
Proof.
  intros H. split; [now rewrite (sbt_locks _ _ H)|].
  unfold lock_value. now rewrite (same_but_threads_get_sema _ _ _ H).
Qed.

Lemma sema_down_blocked_untouched l p k k' :
  sema_down_blocked p k k' -> lock_untouched l k k'.
Proof.
  intros H. split; [apply H|]. unfold lock_value.
  destruct (sema_ptr_eqb p (LockSema l)) eqn:E.
  - apply sema_ptr_eqb_eq in E. subst p. now rewrite (sdb_sema _ _ _ H).
  - rewrite (sdb_other _ _ _ H); [reflexivity|].
    intros Heq. rewrite <- Heq in E. simpl in E. rewrite Nat.eqb_refl in E.
    discriminate.
Qed.

Lemma sema_down_loop_untouched l p k o k' :
  p <> LockSema l -> sema_down_loop p k = Ok (o, k') -> lock_untouched l k k'.
Proof.
  intros Hp. destruct (sema_down_loop_ok p k) as [(_ & k1 & -> & Hpost)|(_ & ->)];
    intros H; inv_ok H.
  - eapply sema_down_blocked_untouched; eauto.
  - now apply lock_untouched_set_sema.
Qed.

Lemma sema_up_untouched l p k u k' :
  p <> LockSema l -> sema_up p k = Ok (u, k') -> lock_untouched l k k'.
Proof.
  intros Hp. destruct (sema_up_ok p k) as (k1 & -> & Hpost). intros H. inv_ok H.
  split; [apply Hpost|]. unfold lock_value. rewrite (sup_other _ _ _ _ Hpost); congruence.
Qed.

Lemma sema_try_down_untouched l p k b k' :
  p <> LockSema l -> sema_try_down p k = Ok (b, k') -> lock_untouched l k k'.
Proof.
  intros Hp H. destruct (sema_try_down_inv _ _ _ _ H) as [(_ & _ & ->)|(_ & _ & Hs)].
  - now apply lock_untouched_set_sema.
  - now apply lock_untouched_same_but_priority.
Qed.

Lemma lock_acquired_state_untouched l l' k s :
  l' <> l ->
  lock_untouched l k
    (set_holder l' (Some (cur k))
       (modify_thread (cur k) (set_waiting_lock None) (set_sema (LockSema l') s k))).
Proof.
  intros Hne. split.
  - rewrite holder_set_holder. destruct (Nat.eqb_spec l l'); [congruence|].
    cbn [locks modify_thread with_threads]. apply holder_set_sema.
  - unfold lock_value.
    rewrite get_sema_set_holder, get_sema_modify_thread, get_set_sema_other;
      [reflexivity | congruence].
Qed.

Lemma lock_acquire_resume_step l l' k o k' :
  lock_acquire_resume l' k = Ok (o, k') -> lock_step l (cur k) k k'.
Proof.
  intros H. pose proof (lock_acquire_resume_holder _ _ _ _ H) as Hh.
  destruct (lock_acquire_resume_inv _ _ _ _ H) as [(-> & _ & Hpost)|(-> & Hnz & ->)].
  - apply LsUntouched. eapply sema_down_blocked_untouched; eauto.
  - destruct (Nat.eq_dec l' l) as [->|Hne].
    + destruct Hh as (H1 & _ & H3 & H4). now apply LsTaken.
    + apply LsUntouched. now apply lock_acquired_state_untouched.
Qed.

Lemma lock_acquire_step l l' k o k' :
  lock_acquire l' k = Ok (o, k') -> lock_step l (cur k) k k'.
Proof.
  intros H. destruct (lock_acquire_inv _ _ _ _ H) as (_ & _ & kb & Hsame & Hres).
  pose proof (lock_untouched_same_but_threads l _ _ Hsame) as [Hu1 Hu2].
  apply (lock_acquire_resume_step l) in Hres. rewrite (sbt_cur _ _ Hsame) in Hres.
  destruct Hres as [[A B]|A B|A B C|A B C].
  - apply LsUntouched. split; congruence.
  - now apply LsInit.
  - apply LsTaken; congruence.
  - apply LsDropped; congruence.
Qed.

Lemma lock_try_acquire_step l l' k b k' :
  lock_try_acquire l' k = Ok (b, k') -> lock_step l (cur k) k k'.
Proof.
  intros H. pose proof (lock_try_acquire_holder _ _ _ _ H) as Hh.
  destruct (lock_try_acquire_inv _ _ _ _ H) as (_ & [(-> & Hpos & ->)|(-> & _ & Hs)]).
  - destruct (Nat.eq_dec l' l) as [->|Hne].
    + destruct Hh as (H1 & _ & H3 & H4). now apply LsTaken.
    + apply LsUntouched. now apply lock_acquired_state_untouched.
  - apply LsUntouched. now apply lock_untouched_same_but_priority.
Qed.

Lemma lock_release_step l l' k u k' :
  lock_release l' k = Ok (u, k') -> lock_step l (cur k) k k'.
Proof.
  intros H. pose proof (lock_release_inv _ _ _ _ H) as Hheld.
  destruct (lock_release_ok l' k Hheld) as (k1 & k2 & Hrs & Hup & Hrun).
  rewrite Hrun in H. inv_ok H.
  destruct (sema_up_ok (LockSema l') k1) as (k2' & Hup' & Hpost).
  rewrite Hup in Hup'. inv_ok Hup'.
  set (kf := if _ <? _ then _ else k2').
  assert (Hf : holder (locks kf l) = holder (locks k2' l)
               /\ lock_value kf l = lock_value k2' l).
  { subst kf. destruct (_ <? _); split; reflexivity. }
  destruct Hf as [Hf1 Hf2].
  destruct (Nat.eq_dec l' l) as [->|Hne].
  - apply LsDropped; [exact Hheld| |].
    + rewrite Hf1, (sup_holder _ _ _ _ Hpost), (rs_holder _ _ _ Hrs).
      now rewrite Nat.eqb_refl.
    + rewrite Hf2. unfold lock_value.
      rewrite (sup_sema _ _ _ _ Hpost). cbn [value]. now rewrite (rs_sema _ _ _ Hrs).
  - apply LsUntouched. split.
    + rewrite Hf1, (sup_holder _ _ _ _ Hpost), (rs_holder _ _ _ Hrs).
      destruct (Nat.eqb_spec l l'); [congruence | reflexivity].
    + rewrite Hf2. unfold lock_value.
      rewrite (sup_other _ _ _ _ Hpost) by congruence.
      now rewrite (rs_sema _ _ _ Hrs).
Qed.

Lemma cond_signal_untouched l c l' k u k' :
  cond_signal c l' k = Ok (u, k') -> lock_untouched l k k'.
Proof.
  intros H. destruct (cond_signal_inv _ _ _ _ _ H) as (_ & _ & [(_ & ->)|(e & _ & _ & Hup)]).
  - apply lock_untouched_refl.
  - apply (sema_up_untouched l) in Hup; [exact Hup | discriminate].
Qed.

Lemma cond_broadcast_loop_untouched l fuel c l' : forall k u k',
  cond_broadcast_loop fuel c l' k = Ok (u, k') -> lock_untouched l k k'.
Proof.
  induction fuel as [|fuel IH]; intros k u k'; simpl; unfold bind, gets;
    destruct (cond_waiters (conds k c)) as [|x ws] eqn:Ews; cbn [list_empty negb].
  - intros H. inv_ok H. apply lock_untouched_refl.
  - discriminate.
  - intros H. inv_ok H. apply lock_untouched_refl.
  - destruct (cond_signal c l' k) as [[u1 k1]|] eqn:Hsig; [|discriminate].
    intros H. apply IH in H. apply (cond_signal_untouched l) in Hsig.
    eapply lock_untouched_trans; eauto.
Qed.

Lemma lock_step_from l t k k0 k1 :
  lock_untouched l k k0 -> lock_step l t k0 k1 -> lock_step l t k k1.
Proof.
  intros [Hh Hv] [[A B]|A B|A B C|A B C].
  - apply LsUntouched. split; congruence.
  - now apply LsInit.
  - apply LsTaken; congruence.
  - apply LsDropped; congruence.
Qed.

Lemma sema_ptr_neq l p : negb (sema_ptr_eqb p (LockSema l)) = true -> p <> LockSema l.
Proof.
  intros H Heq. apply sema_ptr_eqb_eq in Heq. rewrite Heq in H. discriminate.
Qed.

Lemma step_lock_step l a k r k1 :
  through_lock_interface l a = true ->
  step a k = Ok (r, k1) ->
  lock_step l (act_thread a) k k1.
Proof.
  intros Hvia. rewrite step_eq.
  set (k0 := with_in_intr (act_intr a) (with_cur (act_thread a) (tick k))).
  intros Hstep. apply (lock_step_from l _ k k0); [split; reflexivity|].
  change (act_thread a) with (cur k0).
  unfold through_lock_interface in Hvia.
  destruct (act_call a); cbn [exec] in Hstep; unfold bind in Hstep;
    try apply sema_ptr_neq in Hvia.
  - unfold sema_init, modify in Hstep. inv_ok Hstep.
    apply LsUntouched. now apply lock_untouched_set_sema.
  - unfold sema_down, bind, intr_context, gets in Hstep.
    destruct (in_intr k0); cbn [negb ASSERT ret fail] in Hstep; [discriminate|].
    destruct (sema_down_loop p k0) as [[o k']|] eqn:Hd; [|discriminate].
    inv_ok Hstep. apply LsUntouched. eapply sema_down_loop_untouched; eauto.
  - unfold sema_down_resume in Hstep.
    destruct (sema_down_loop p k0) as [[o k']|] eqn:Hd; [|discriminate].
    inv_ok Hstep. apply LsUntouched. eapply sema_down_loop_untouched; eauto.
  - destruct (sema_try_down p k0) as [[b k']|] eqn:Hd; [|discriminate].
    inv_ok Hstep. apply LsUntouched. eapply sema_try_down_untouched; eauto.
  - destruct (sema_up p k0) as [[u k']|] eqn:Hd; [|discriminate].
    inv_ok Hstep. apply LsUntouched. eapply sema_up_untouched; eauto.
  - unfold lock_init, sema_init, bind, modify in Hstep. inv_ok Hstep.
    destruct (Nat.eq_dec l0 l) as [->|Hne].
    + apply LsInit.
      * cbn [locks with_locks]. unfold upd. now rewrite !Nat.eqb_refl.
      * unfold lock_value. cbn [get_sema locks with_locks]. unfold upd.
        now rewrite !Nat.eqb_refl.
    + apply LsUntouched. split.
      * cbn [locks with_locks]. unfold upd.
        destruct (Nat.eqb_spec l l0); [congruence | reflexivity].
      * unfold lock_value. cbn [get_sema locks with_locks]. unfold upd.
        destruct (Nat.eqb_spec l l0); [congruence | reflexivity].
  - destruct (lock_acquire l0 k0) as [[o k']|] eqn:Hd; [|discriminate].
    inv_ok Hstep. eapply lock_acquire_step; eauto.
  - destruct (lock_acquire_resume l0 k0) as [[o k']|] eqn:Hd; [|discriminate].
    inv_ok Hstep. eapply lock_acquire_resume_step; eauto.
  - destruct (lock_try_acquire l0 k0) as [[b k']|] eqn:Hd; [|discriminate].
    inv_ok Hstep. eapply lock_try_acquire_step; eauto.
  - destruct (lock_release l0 k0) as [[u k']|] eqn:Hd; [|discriminate].
    inv_ok Hstep. eapply lock_release_step; eauto.
  - unfold cond_init, modify in Hstep. inv_ok Hstep.
    apply LsUntouched. split; reflexivity.
  - unfold cond_wait, cond_wait_begin, bind, intr_context, gets in Hstep.
    destruct (in_intr k0); cbn [negb ASSERT ret fail] in Hstep; [discriminate|].
    rewrite lock_held_by_current_thread_eq in Hstep.
    destruct (match holder (locks k0 l0) with Some t => Nat.eqb t (cur k0) | None => false end);
      cbn [ASSERT ret fail] in Hstep; [|discriminate].
    unfold thread_current, sema_init, gets, modify in Hstep.
    set (kq := set_cond_waiters _ _ _) in Hstep.
    destruct (lock_release l0 kq) as [[u k']|] eqn:Hd; [|discriminate].
    inv_ok Hstep. apply (lock_step_from l _ k0 kq).
    + subst kq. split; [reflexivity|]. unfold lock_value.
      now rewrite get_sema_set_cond_waiters, get_set_sema_other by discriminate.
    + exact (lock_release_step l l0 kq u k1 Hd).
  - unfold cond_wait_step, bind, thread_current, gets in Hstep.
    destruct pc.
    + unfold sema_down, bind, intr_context, gets in Hstep.
      destruct (in_intr k0); cbn [negb ASSERT ret fail] in Hstep; [discriminate|].
      destruct (sema_down_loop _ k0) as [[o k']|] eqn:Hd; [|discriminate].
      inv_ok Hstep. apply LsUntouched.
      eapply sema_down_loop_untouched; [|eauto]. discriminate.
    + unfold sema_down_resume in Hstep.
      destruct (sema_down_loop _ k0) as [[o k']|] eqn:Hd; [|discriminate].
      inv_ok Hstep. apply LsUntouched.
      eapply sema_down_loop_untouched; [|eauto]. discriminate.
    + destruct (lock_acquire l0 k0) as [[o k']|] eqn:Hd; [|discriminate].
      inv_ok Hstep. eapply lock_acquire_step; eauto.
    + destruct (lock_acquire_resume l0 k0) as [[o k']|] eqn:Hd; [|discriminate].
      inv_ok Hstep. eapply lock_acquire_resume_step; eauto.
  - destruct (cond_signal c l0 k0) as [[u k']|] eqn:Hd; [|discriminate].
    inv_ok Hstep. apply LsUntouched. eapply cond_signal_untouched; eauto.
  - unfold cond_broadcast, bind, gets in Hstep.
    destruct (cond_broadcast_loop _ c l0 k0) as [[u k']|] eqn:Hd; [|discriminate].
    inv_ok Hstep. apply LsUntouched. eapply cond_broadcast_loop_untouched; eauto.
Qed.

Lemma lock_step_consistent l t k k1 :
  lock_consistent k l -> lock_step l t k k1 -> lock_consistent k1 l.
Proof.
  unfold lock_consistent.
  intros Hc [[A B]|A B|A B C|A B C].
  - rewrite A, B. exact Hc.
  - now left.
  - right. exists t. split; [exact A|].
    destruct Hc as [[_ Hv]|(t' & _ & Hv)]; [|congruence].
    rewrite C, Hv. reflexivity.
  - left. split; [exact B|].
    destruct Hc as [[Hn _]|(t' & _ & Hv)]; [congruence|].
    rewrite C, Hv. reflexivity.
Qed.

Lemma lock_init_consistent l k k0 :
  lock_init l k = Ok (tt, k0) -> lock_consistent k0 l.
Proof.
  unfold lock_init, sema_init, bind, modify. intros H. inv_ok H. left.
  unfold lock_value. cbn [get_sema locks with_locks]. unfold upd.
  rewrite !Nat.eqb_refl. split; reflexivity.
Qed.

(** X2.  Mutual exclusion.  From [lock_init], along any execution that reaches the
    semaphore of [l] through the lock only, the lock is free with value 1 or
    owned with value 0; a step that completes an acquisition of [l] starts
    from a state in which [l] has no owner. *)
Lemma lock_mutual_exclusion (l : lock_id) (acts : list action) : forall k,
  forallb (through_lock_interface l) acts = true ->
  lock_consistent k l ->
  lock_consistent (snd (run acts k)) l /\
  (forall a r k2,
      through_lock_interface l a = true ->
      step a (snd (run acts k)) = Ok (r, k2) ->
      acquires l (a, r) = true ->
      holder (locks (snd (run acts k)) l) = None
      /\ holder (locks k2 l) = Some (act_thread a)).
Proof.
  induction acts as [|a rest IH]; intros k Hvia Hc.
  - cbn [run snd]. split; [exact Hc|].
    intros a r k2 Ha Hstep Hacq.
    pose proof (step_holder l a k r k2 Hstep) as Hs. rewrite Hacq in Hs.
    destruct Hs as (H1 & _ & H3 & _). split; [|exact H1].
    destruct Hc as [[Hn _]|(t & _ & Hv)]; [exact Hn|].
    unfold lock_value in Hv. congruence.
  - simpl in Hvia. apply andb_true_iff in Hvia. destruct Hvia as [Ha Hrest].
    rewrite run_cons. destruct (step a k) as [[r k1]|] eqn:Hstep.
    + cbn [snd]. apply IH; [exact Hrest|].
      eapply lock_step_consistent; [exact Hc|]. eapply step_lock_step; eauto.
    + cbn [snd]. apply (IH k) in Hrest; [|exact Hc].
      clear IH. split; [exact Hc|].
      intros a0 r k2 Ha0 Hstep0 Hacq.
      pose proof (step_holder l a0 k r k2 Hstep0) as Hs. rewrite Hacq in Hs.
      destruct Hs as (H1 & _ & H3 & _). split; [|exact H1].
      destruct Hc as [[Hn _]|(t & _ & Hv)]; [exact Hn|].
      unfold lock_value in Hv. congruence.
Qed.

Lemma lock_mutual_exclusion_witness :
  lock_consistent (snd (run handover_scenario kernel_lock_initialised)) 0%nat.
Proof.
  apply (lock_mutual_exclusion 0%nat handover_scenario kernel_lock_initialised).
  - vm_compute. reflexivity.
  - left. split; vm_compute; reflexivity.
Defined.


(** ** The bound on the loop of [cond_broadcast] is never reached *)

Lemma cond_signal_shortens c l k u k' :
  cond_signal c l k = Ok (u, k') ->
  cond_waiters (conds k c) <> [] ->
  (length (cond_waiters (conds k' c)) + 1 = length (cond_waiters (conds k c)))%nat.
Proof.
  intros H Hne.
  destruct (cond_signal_inv _ _ _ _ _ H) as (_ & _ & [(Hnil & _)|(e & Hin & _ & Hup)]);
    [contradiction|].
  destruct (sema_up_ok (WaiterSema e)
              (set_cond_waiters c (list_remove e (cond_waiters (conds k c))) k))
    as (k1 & Hup1 & Hpost).
  rewrite Hup in Hup1. inv_ok Hup1.
  rewrite (sup_conds _ _ _ _ Hpost). simpl. rewrite upd_same. simpl.
  now apply list_remove_length.
Qed.

Lemma cond_broadcast_loop_enough_fuel c l : forall n k,
  (length (cond_waiters (conds k c)) <= n)%nat ->
  cond_broadcast_loop n c l k <> Fail LoopBound.
Proof.
  induction n as [|n IH]; intros k Hlen; simpl; unfold bind, gets;
    destruct (cond_waiters (conds k c)) as [|x ws] eqn:Ews; cbn [list_empty negb];
    try discriminate.
  - simpl in Hlen. lia.
  - destruct (cond_signal c l k) as [[u k1]|f] eqn:Hsig.
    + apply IH. pose proof (cond_signal_shortens _ _ _ _ _ Hsig) as Hs.
      rewrite Ews in Hs. specialize (Hs ltac:(discriminate)).
      simpl in Hs, Hlen. unfold tid in *. lia.
    + intros Hf. injection Hf as Hf. subst f.
      unfold cond_signal, bind, intr_context, gets in Hsig.
      destruct (in_intr k); cbn [negb ASSERT ret fail] in Hsig; [discriminate|].
      rewrite lock_held_by_current_thread_eq in Hsig.
      destruct (match holder (locks k l) with Some t => Nat.eqb t (cur k) | None => false end);
        cbn [ASSERT ret fail] in Hsig; [|discriminate].
      rewrite Ews in Hsig. cbn [list_empty negb] in Hsig. unfold lift in Hsig.
      destruct (cond_list_max_key k (x :: ws) ltac:(discriminate)) as (e & Hmax & _).
      rewrite Hmax in Hsig. unfold modify in Hsig.
      destruct (sema_up_ok (WaiterSema e) (set_cond_waiters c (list_remove e (x :: ws)) k))
        as (k1 & Hup & _).
      rewrite Hup in Hsig. discriminate.
Qed.

(** The model of [cond_broadcast] never stops at its iteration bound: the
    call returns or fails as the C loop does. *)
Lemma cond_broadcast_enough_fuel c l k : cond_broadcast c l k <> Fail LoopBound.
Proof.
  unfold cond_broadcast, bind, gets. apply cond_broadcast_loop_enough_fuel. lia.
Qed.

(** ** Every call returns or fails an assertion

    The only loop of the model that is cut off by a bound is the one of
    [cond_broadcast], and its bound is never reached: a call stops the
    kernel only at a failed [ASSERT], and an execution goes on until
    then. *)

Lemma asserts_only_ret A (a : A) : asserts_only (ret a).
Proof. intros k. discriminate. Qed.

Lemma asserts_only_gets A (f : kernel -> A) : asserts_only (gets f).
Proof. intros k. discriminate. Qed.

Lemma asserts_only_modify f : asserts_only (modify f).
Proof. intros k. discriminate. Qed.

Lemma asserts_only_fail A : asserts_only (@fail A AssertFail).
Proof. intros k. discriminate. Qed.

Lemma asserts_only_ASSERT b : asserts_only (ASSERT b).
Proof. intros k. destruct b; discriminate. Qed.

Lemma asserts_only_bind A B (m : M A) (f : A -> M B) :
  asserts_only m -> (forall a, asserts_only (f a)) -> asserts_only (bind m f).
Proof.
  intros Hm Hf k. unfold bind. specialize (Hm k).
  destruct (m k) as [[a k1]|e]; [apply Hf|].
  intros H. apply Hm. congruence.
Qed.

Lemma asserts_only_lift A (r : kernel -> res A) :
  (forall k, r k <> Fail LoopBound) -> asserts_only (lift r).
Proof.
  intros Hr k. unfold lift. specialize (Hr k).
  destruct (r k); [discriminate|]. intros H. apply Hr. congruence.
Qed.

Lemma list_max_from_total (less : nat -> nat -> res bool) l :
  (forall a b, exists r, less a b = Ok r) ->
  forall m, exists w, list_max_from less m l = Ok w.
Proof.
  intros Hless. induction l as [|e l IH]; intros m; cbn [list_max_from]; [now exists m|].
  destruct (Hless m e) as (r & ->). apply IH.
Qed.

Lemma list_max_total (less : nat -> nat -> res bool) l :
  (forall a b, exists r, less a b = Ok r) ->
  exists w, list_max less l = Ok w.
Proof.
  intros Hless. destruct l as [|x l]; cbn [list_max]; [now exists None|].
  destruct (list_max_from_total less l Hless x) as (w & ->). now exists (Some w).
Qed.

Lemma list_insert_ordered_total (less : nat -> nat -> res bool) elem l :
  (forall a b, exists r, less a b = Ok r) ->
  exists r, list_insert_ordered less l elem = Ok r.
Proof.
  intros Hless. induction l as [|e l IH]; cbn [list_insert_ordered]; [now eexists|].
  destruct (Hless e elem) as ([|] & ->); [now eexists|].
  destruct IH as (r & ->). now eexists.
Qed.

Lemma priority_less_func_total k a b : exists r, priority_less_func k a b = Ok r.
Proof. now eexists. Qed.

Lemma sem_less_priority_func_total k a b : exists r, sem_less_priority_func k a b = Ok r.
Proof. rewrite sem_less_priority_func_key. now eexists. Qed.

Ltac asserts_only_step :=
  first
    [ apply asserts_only_bind; [|intro]
    | apply asserts_only_ret
    | apply asserts_only_gets
    | apply asserts_only_modify
    | apply asserts_only_fail
    | apply asserts_only_ASSERT
    | match goal with
      | |- asserts_only (lift (fun k => list_max (priority_less_func k) ?l)) =>
          apply asserts_only_lift; intros k0 Hk0;
          destruct (list_max_total (priority_less_func k0) l (priority_less_func_total k0));
          congruence
      | |- asserts_only (lift (fun k => list_max (sem_less_priority_func k) ?l)) =>
          apply asserts_only_lift; intros k0 Hk0;
          destruct (list_max_total (sem_less_priority_func k0) l
                      (sem_less_priority_func_total k0));
          congruence
      | |- asserts_only (lift (fun k => list_insert_ordered (priority_less_func k) ?l ?e)) =>
          apply asserts_only_lift; intros k0 Hk0;
          destruct (list_insert_ordered_total (priority_less_func k0) e l
                      (priority_less_func_total k0));
          congruence
      | |- asserts_only (match ?x with _ => _ end) => destruct x
      end ].

Ltac asserts_only_auto := repeat asserts_only_step.

Lemma asserts_only_sema_down_loop p : asserts_only (sema_down_loop p).
Proof. unfold sema_down_loop. asserts_only_auto. Qed.

Lemma asserts_only_sema_up p : asserts_only (sema_up p).
Proof. unfold sema_up. asserts_only_auto. Qed.

Lemma asserts_only_sema_try_down p : asserts_only (sema_try_down p).
Proof. unfold sema_try_down. asserts_only_auto. Qed.

Lemma asserts_only_lock_release l : asserts_only (lock_release l).
Proof.
  unfold lock_release.
  repeat first [apply asserts_only_sema_up | asserts_only_step].
Qed.

Lemma asserts_only_lock_acquire_resume l : asserts_only (lock_acquire_resume l).
Proof.
  unfold lock_acquire_resume, sema_down_resume.
  repeat first [apply asserts_only_sema_down_loop | asserts_only_step].
Qed.

Lemma asserts_only_lock_acquire l : asserts_only (lock_acquire l).
Proof.
  unfold lock_acquire, sema_down.
  repeat first [apply asserts_only_sema_down_loop | asserts_only_step].
Qed.

Lemma asserts_only_cond_signal c l : asserts_only (cond_signal c l).
Proof.
  unfold cond_signal.
  repeat first [apply asserts_only_sema_up | asserts_only_step].
Qed.

(** A call returns or stops the kernel at a failed assertion. *)
Lemma exec_returns_or_asserts c k :
  exec c k = Fail AssertFail \/ exists r k', exec c k = Ok (r, k').
Proof.
  assert (H : asserts_only (exec c)).
  { destruct c; cbn [exec]; (apply asserts_only_bind; [|intro; apply asserts_only_ret]).
    - unfold sema_init. asserts_only_auto.
    - unfold sema_down.
      repeat first [apply asserts_only_sema_down_loop | asserts_only_step].
    - apply asserts_only_sema_down_loop.
    - apply asserts_only_sema_try_down.
    - apply asserts_only_sema_up.
    - unfold lock_init, sema_init. asserts_only_auto.
    - apply asserts_only_lock_acquire.
    - apply asserts_only_lock_acquire_resume.
    - unfold lock_try_acquire.
      repeat first [apply asserts_only_sema_try_down | asserts_only_step].
    - apply asserts_only_lock_release.
    - unfold cond_init. asserts_only_auto.
    - unfold cond_wait, cond_wait_begin.
      repeat first [apply asserts_only_lock_release | asserts_only_step].
    - unfold cond_wait_step, sema_down, sema_down_resume.
      repeat first [ apply asserts_only_sema_down_loop | apply asserts_only_lock_acquire
                   | apply asserts_only_lock_acquire_resume | asserts_only_step ].
    - apply asserts_only_cond_signal.
    - intros k0. apply cond_broadcast_enough_fuel. }
  specialize (H k). destruct (exec c k) as [[r k']|[|]]; [right; eauto | now left |].
  now contradiction H.
Qed.

Lemma step_returns_or_asserts a k :
  step a k = Fail AssertFail \/ exists r k', step a k = Ok (r, k').
Proof. rewrite step_eq. apply exec_returns_or_asserts. Qed.

(** X21.  Every call of synch.c, made from any state by any thread, inside
    or outside an interrupt handler, returns (possibly with its caller
    suspended) or stops the kernel at a failed assertion.  An execution
    therefore completes all its actions, or completes those before the first
    action that fails an assertion and stops there. *)
Theorem calls_return_or_fail_an_assertion :
  (forall a k, step a k = Fail AssertFail \/ exists r k', step a k = Ok (r, k')) /\
  (forall acts k,
      map fst (fst (run acts k)) = acts
      \/ exists done a rest,
           acts = done ++ a :: rest /\
           map fst (fst (run acts k)) = done /\
           run acts k = run done k /\
           step a (snd (run done k)) = Fail AssertFail).
Proof.
  split; [exact step_returns_or_asserts|].
  induction acts as [|a rest IH]; intros k; [now left|].
  rewrite run_cons.
  destruct (step_returns_or_asserts a k) as [Hfail|(r & k1 & Hstep)].
  - right. exists [], a, rest. rewrite Hfail. repeat split. exact Hfail.
  - rewrite Hstep. cbn [fst snd map].
    destruct (IH k1) as [Hall|(done & a' & rest' & Hacts & Hdone & Hrun & Hfail)].
    + left. now rewrite Hall.
    + right. exists (a :: done), a', rest'.
      split; [now rewrite Hacts|]. split; [now rewrite Hdone|].
      rewrite (run_cons a done k), Hstep. cbn [snd]. rewrite Hrun.
      split; [reflexivity | exact Hfail].
Qed.

(** * Further properties of the code *)

(** ** Semaphores: suspension, wake-up and the range of the value *)

Lemma sema_down_thread_context p k :
  in_intr k = false -> sema_down p k = sema_down_loop p k.
Proof.
  intros H. unfold sema_down, bind, intr_context, gets, ASSERT. now rewrite H.
Qed.

Lemma highest_waiter_single k p t :
  waiters (get_sema k p) = [t] -> highest_waiter k p = Some t.
Proof. intros H. unfold highest_waiter. now rewrite H. Qed.

Lemma highest_waiter_none k p :
  waiters (get_sema k p) = [] -> highest_waiter k p = None.
Proof. intros H. unfold highest_waiter. now rewrite H. Qed.

Lemma list_remove_single t : list_remove t [t] = [].
Proof. simpl. now rewrite Nat.eqb_refl. Qed.

Lemma wrap32_one : wrap32 (0 + 1) = 1.
Proof. reflexivity. Qed.

(** X3.  A down and an up hand over through the semaphore.  On a semaphore
    of value 0 without waiters, [sema_down] by [t] suspends [t] at the back of
    the waiter list; [sema_up] by [u] then takes [t] off the list, makes it
    ready with one [thread_unblock] and sets the value to 1; [t], going on in
    the loop of [sema_down], takes that unit and returns.  The semaphore is
    back at value 0 without waiters. *)
Theorem sema_down_up_resume_handoff (p : sema_ptr) (t u : tid) (k : kernel) :
  get_sema k p = mkSema 0 [] ->
  map snd (fst (run (handoff_scenario p t u) k))
  = [RetOutcome Blocked; RetUnit; RetOutcome Done] /\
  status (threads (snd (run (firstn 1 (handoff_scenario p t u)) k)) t) = THREAD_BLOCKED /\
  get_sema (snd (run (firstn 1 (handoff_scenario p t u)) k)) p = mkSema 0 [t] /\
  get_sema (snd (run (firstn 2 (handoff_scenario p t u)) k)) p = mkSema 1 [] /\
  get_sema (snd (run (handoff_scenario p t u) k)) p = mkSema 0 [] /\
  status (threads (snd (run (handoff_scenario p t u) k)) t) = THREAD_READY /\
  unblocked (sched (snd (run (handoff_scenario p t u) k))) = unblocked (sched k) ++ [t].
Proof.
  intros Hs. unfold handoff_scenario.
  (* the down *)
  set (k0 := with_in_intr false (with_cur t (tick k))).
  assert (H0 : get_sema k0 p = mkSema 0 []) by (unfold k0; now autorewrite with kern).
  destruct (sema_down_loop_ok p k0) as [(_ & k1 & Hd & Hb)|(Hv & _)];
    [|rewrite H0 in Hv; now elim Hv].
  assert (E1 : step (by_thread t (CallSemaDown p)) k = Ok (RetOutcome Blocked, k1)).
  { rewrite step_eq. cbn [act_call act_thread act_intr by_thread exec]. fold k0.
    unfold bind. rewrite sema_down_thread_context by reflexivity. now rewrite Hd. }
  destruct Hb as [Hsema1 _ _ _ _ _ Hsched1 Hstat1 _ _ _ _].
  rewrite H0 in Hsema1. cbn [value waiters app] in Hsema1.
  change (cur k0) with t in *.
  (* the up *)
  set (k1u := with_in_intr false (with_cur u (tick k1))).
  assert (H1 : get_sema k1u p = mkSema 0 [t]) by (unfold k1u; now autorewrite with kern).
  destruct (sema_up_ok p k1u) as (k2 & Hu & Hpost).
  rewrite (highest_waiter_single k1u p t) in Hpost by now rewrite H1.
  assert (E2 : step (by_thread u (CallSemaUp p)) k1 = Ok (RetUnit, k2)).
  { rewrite step_eq. cbn [act_call act_thread act_intr by_thread exec]. fold k1u.
    unfold bind. now rewrite Hu. }
  destruct Hpost as [Hsema2 _ _ _ _ _ Hthr2 Hsched2].
  rewrite H1 in Hsema2. cbn [value waiters] in Hsema2.
  rewrite list_remove_single, wrap32_one in Hsema2.
  (* the resumption *)
  set (k2t := with_in_intr false (with_cur t (tick k2))).
  assert (H2 : get_sema k2t p = mkSema 1 []) by (unfold k2t; now autorewrite with kern).
  destruct (sema_down_loop_ok p k2t) as [(Hv & _)|(_ & Hr)];
    [rewrite H2 in Hv; discriminate|].
  rewrite H2 in Hr. cbn [value waiters] in Hr.
  assert (E3 : step (by_thread t (CallSemaDownResume p)) k2
               = Ok (RetOutcome Done, set_sema p (mkSema (wrap32 (1 - 1)) []) k2t)).
  { rewrite step_eq. cbn [act_call act_thread act_intr by_thread exec]. fold k2t.
    unfold bind, sema_down_resume. now rewrite Hr. }
  cbn [firstn]. rewrite !run_cons, E1, !run_cons, E2, !run_cons, E3.
  cbn [run fst snd map].
  split; [reflexivity|].
  split; [rewrite Hstat1; now rewrite Nat.eqb_refl|].
  split; [exact Hsema1|]. split; [exact Hsema2|].
  split; [now rewrite get_set_sema_same|].
  rewrite threads_set_sema, sched_set_sema. unfold k2t. cbn [threads sched with_in_intr with_cur tick].
  split.
  - rewrite Hthr2. unfold wake. now rewrite Nat.eqb_refl.
  - rewrite Hsched2. unfold k1u. cbn [sched with_in_intr with_cur tick].
    rewrite Hsched1. unfold k0. cbn [sched with_in_intr with_cur tick].
    rewrite !unblocked_app. cbn. destruct (_ <? _); cbn; now rewrite app_nil_r.
Qed.

Lemma sema_down_up_resume_handoff_witness :
  map snd (fst (run (handoff_scenario (SemaAt 0) 1%nat 0%nat) kernel_init))
  = [RetOutcome Blocked; RetUnit; RetOutcome Done] /\
  get_sema (snd (run (handoff_scenario (SemaAt 0) 1%nat 0%nat) kernel_init)) (SemaAt 0)
  = mkSema 0 [].
Proof.
  destruct (sema_down_up_resume_handoff (SemaAt 0) 1%nat 0%nat kernel_init eq_refl)
    as (H1 & _ & _ & _ & H2 & _).
  split; [exact H1 | exact H2].
Defined.

(** X4.  The value is an [unsigned] and [sema_up] does not test it: an up of
    a semaphore that holds the largest value wraps to 0, so the units counted
    so far are lost, a following [sema_try_down] fails and a following
    [sema_down] suspends its caller. *)
Theorem sema_up_wraps_at_the_largest_value (p : sema_ptr) (k : kernel) :
  value (get_sema k p) = UINT_MODULUS - 1 ->
  exists k',
    sema_up p k = Ok (tt, k') /\
    value (get_sema k' p) = 0 /\
    (exists k2, sema_try_down p k' = Ok (false, k2)) /\
    (in_intr k = false -> exists k2, sema_down p k' = Ok (Blocked, k2)).
Proof.
  intros Hv. destruct (sema_up_ok p k) as (k' & Hu & Hpost).
  exists k'. split; [exact Hu|].
  assert (Hz : value (get_sema k' p) = 0).
  { rewrite (sup_sema _ _ _ _ Hpost). cbn [value]. rewrite Hv. reflexivity. }
  split; [exact Hz|]. split.
  - destruct (thread_try_donate_priority_ok k') as (k2 & Hd & _).
    exists k2. unfold sema_try_down, bind, gets. cbv beta iota. rewrite Hz.
    change (0 <? 0) with false. cbv beta iota. now rewrite Hd.
  - intros Hi. rewrite sema_down_thread_context
      by (rewrite (sup_intr _ _ _ _ Hpost); exact Hi).
    destruct (sema_down_loop_ok p k') as [(_ & k2 & Hd & _)|(Hne & _)];
      [now exists k2 | contradiction].
Qed.

Lemma sema_up_wraps_at_the_largest_value_witness :
  exists k',
    sema_up (SemaAt 0) (set_sema (SemaAt 0) (mkSema (UINT_MODULUS - 1) []) kernel_init)
    = Ok (tt, k') /\
    value (get_sema k' (SemaAt 0)) = 0.
Proof.
  destruct (sema_up_wraps_at_the_largest_value (SemaAt 0)
              (set_sema (SemaAt 0) (mkSema (UINT_MODULUS - 1) []) kernel_init) eq_refl)
    as (k' & H1 & H2 & _).
  exists k'. split; [exact H1 | exact H2].
Defined.

(** ** Locks: the probe, and a lock from its initialisation *)

(** X5.  [lock_try_acquire] never waits.  Called by a thread that does not
    hold the lock, inside or outside an interrupt handler, it returns whether
    the semaphore of the lock was positive.  If so the caller is the holder,
    waits for no lock, and the value went down by one.  If not, holder and
    value are as before, and unlike [lock_acquire] the call has not recorded
    the lock in [waiting_lock] of the caller.  Either way no donation list,
    waiter list or thread status changes and the scheduler is not called. *)
Theorem lock_try_acquire_never_waits (l : lock_id) (k : kernel) :
  holder (locks k l) <> Some (cur k) ->
  exists k',
    lock_try_acquire l k = Ok (0 <? lock_value k l, k') /\
    (if 0 <? lock_value k l
     then holder (locks k' l) = Some (cur k) /\
          lock_value k' l = wrap32 (lock_value k l - 1) /\
          waiting_lock (threads k' (cur k)) = None /\
          (forall t, priority (threads k' t) = priority (threads k t))
     else holder (locks k' l) = holder (locks k l) /\
          lock_value k' l = lock_value k l /\
          waiting_lock (threads k' (cur k)) = waiting_lock (threads k (cur k))) /\
    (forall l', l' <> l -> holder (locks k' l') = holder (locks k l')) /\
    waiters (get_sema k' (LockSema l)) = waiters (get_sema k (LockSema l)) /\
    (forall t, donations (threads k' t) = donations (threads k t)) /\
    (forall t, status (threads k' t) = status (threads k t)) /\
    sched k' = sched k /\ in_intr k' = in_intr k.
Proof.
  intros Hnot.
  assert (Hheld : lock_held_by_current_thread l k = Ok (false, k)).
  { rewrite lock_held_by_current_thread_eq. destruct (holder (locks k l)) as [h|]; [|reflexivity].
    destruct (Nat.eqb_spec h (cur k)); [subst; now elim Hnot | reflexivity]. }
  unfold lock_try_acquire, bind at 1. rewrite Hheld.
  unfold ASSERT, negb, bind at 1, ret at 1. unfold bind at 1.
  unfold sema_try_down, bind at 1, gets at 1. unfold lock_value.
  destruct (0 <? value (get_sema k (LockSema l))) eqn:Hpos.
  - eexists. split; [reflexivity|].
    cbn [locks threads sched in_intr cur with_locks with_threads set_holder modify_thread
         set_sema get_sema holder semaphore_of value waiters].
    unfold upd. rewrite !Nat.eqb_refl. cbn.
    repeat split; try reflexivity.
    + intros t. destruct (Nat.eqb t (cur k)) eqn:E; [|reflexivity].
      apply Nat.eqb_eq in E. now subst.
    + intros l' Hl'. destruct (Nat.eqb_spec l' l); [contradiction | reflexivity].
    + intros t. destruct (Nat.eqb t (cur k)) eqn:E; [|reflexivity].
      apply Nat.eqb_eq in E. now subst.
    + intros t. destruct (Nat.eqb t (cur k)) eqn:E; [|reflexivity].
      apply Nat.eqb_eq in E. now subst.
  - destruct (thread_try_donate_priority_ok k) as (k' & Hd & Hsbp).
    exists k'. split.
    { unfold bind, ret. now rewrite Hd. }
    destruct Hsbp as [Hsemas Hlocks _ _ _ Hintr Hsched Hstat Hdon Hwait _ _].
    cbn [get_sema]. rewrite Hlocks.
    repeat split; auto.
Qed.

Lemma lock_try_acquire_never_waits_witness :
  (exists k', lock_try_acquire 0 (with_cur 1 kernel_init) = Ok (true, k')
              /\ holder (locks k' 0%nat) = Some 1%nat)
  /\ (exists k', lock_try_acquire 0 (with_cur 1 kernel_one_lock_two_donors) = Ok (false, k')
                 /\ holder (locks k' 0%nat) = Some 0%nat).
Proof.
  split.
  - destruct (lock_try_acquire_never_waits 0%nat (with_cur 1 kernel_init))
      as (k' & Hrun & Hres & _); [vm_compute; discriminate|].
    exists k'. split; [exact Hrun|]. exact (proj1 Hres).
  - destruct (lock_try_acquire_never_waits 0%nat (with_cur 1 kernel_one_lock_two_donors))
      as (k' & Hrun & Hres & _); [vm_compute; discriminate|].
    exists k'. split; [exact Hrun|]. exact (proj1 Hres).
Defined.

Lemma lock_eq k l h s :
  holder (locks k l) = h -> get_sema k (LockSema l) = s -> locks k l = mkLock h s.
Proof. cbn [get_sema]. destruct (locks k l). cbn. intros; subst; reflexivity. Qed.

Lemma lock_acquire_resume_done l k :
  value (get_sema k (LockSema l)) <> 0 ->
  lock_acquire_resume l k
  = Ok (Done, set_holder l (Some (cur k))
                (modify_thread (cur k) (set_waiting_lock None)
                   (set_sema (LockSema l)
                      (mkSema (wrap32 (value (get_sema k (LockSema l)) - 1))
                              (waiters (get_sema k (LockSema l)))) k))).
Proof.
  intros Hv. unfold lock_acquire_resume, sema_down_resume, bind.
  destruct (sema_down_loop_ok (LockSema l) k) as [(Hz & _)|(_ & ->)];
    [contradiction | reflexivity].
Qed.

Lemma lock_acquire_resume_blocked l k :
  value (get_sema k (LockSema l)) = 0 ->
  exists k', lock_acquire_resume l k = Ok (Blocked, k')
             /\ sema_down_blocked (LockSema l) k k'.
Proof.
  intros Hv. unfold lock_acquire_resume, sema_down_resume, bind.
  destruct (sema_down_loop_ok (LockSema l) k) as [(_ & k' & -> & Hb)|(Hnz & _)];
    [now exists k' | contradiction].
Qed.

Lemma lock_acquire_free l k :
  in_intr k = false -> holder (locks k l) = None ->
  lock_acquire l k = lock_acquire_resume l k.
Proof.
  intros Hi Hh.
  unfold lock_acquire, lock_acquire_resume, sema_down_resume, bind, intr_context, gets.
  rewrite Hi. cbn [negb ASSERT ret]. rewrite lock_held_by_current_thread_eq, Hh.
  cbn [negb ASSERT ret]. unfold thread_current, gets. rewrite Hh. unfold ret.
  now rewrite sema_down_thread_context.
Qed.

(** X6.  A lock from its initialisation.  Whatever the memory of the lock
    held before, after [lock_init] the lock is free with semaphore value 1 and
    no waiter; [lock_acquire] by a thread then returns without suspending it,
    makes it the holder with value 0 and leaves it waiting for no lock; its
    [lock_release] returns the lock to the state after [lock_init].  No thread
    changes its status, and the scheduler is called only for the yield of a
    releasing thread whose priority was above its base priority. *)
Theorem lock_init_acquire_release_cycle (l : lock_id) (t : tid) (k : kernel) :
  map snd (fst (run (lock_cycle_scenario l t) k)) = [RetUnit; RetOutcome Done; RetUnit] /\
  locks (snd (run (firstn 1 (lock_cycle_scenario l t)) k)) l = mkLock None (mkSema 1 []) /\
  locks (snd (run (firstn 2 (lock_cycle_scenario l t)) k)) l = mkLock (Some t) (mkSema 0 []) /\
  waiting_lock (threads (snd (run (firstn 2 (lock_cycle_scenario l t)) k)) t) = None /\
  locks (snd (run (lock_cycle_scenario l t) k)) l = mkLock None (mkSema 1 []) /\
  (forall u, status (threads (snd (run (lock_cycle_scenario l t) k)) u)
             = status (threads k u)) /\
  sched (snd (run (lock_cycle_scenario l t) k))
  = sched k ++ (if original_priority (threads k t) <? priority (threads k t)
                then [EvYield t] else []).
Proof.
  unfold lock_cycle_scenario.
  (* lock_init *)
  set (k0 := with_in_intr false (with_cur t (tick k))).
  set (k1 := set_sema (LockSema l) (mkSema (wrap32 1) []) (set_holder l None k0)).
  assert (E1 : step (by_thread t (CallLockInit l)) k = Ok (RetUnit, k1)) by reflexivity.
  assert (L1 : locks k1 l = mkLock None (mkSema 1 [])).
  { unfold k1. cbn [set_sema set_holder locks with_locks]. unfold upd.
    rewrite !Nat.eqb_refl. reflexivity. }
  (* lock_acquire *)
  set (k1t := with_in_intr false (with_cur t (tick k1))).
  assert (L1t : locks k1t l = mkLock None (mkSema 1 [])) by exact L1.
  assert (V1 : get_sema k1t (LockSema l) = mkSema 1 []) by (cbn [get_sema]; now rewrite L1t).
  set (k2 := set_holder l (Some t)
               (modify_thread t (set_waiting_lock None)
                  (set_sema (LockSema l) (mkSema (wrap32 (1 - 1)) []) k1t))).
  assert (E2 : step (by_thread t (CallLockAcquire l)) k1 = Ok (RetOutcome Done, k2)).
  { rewrite step_eq. cbn [act_call act_thread act_intr by_thread exec]. fold k1t.
    unfold bind. rewrite lock_acquire_free; [|reflexivity | now rewrite L1t].
    rewrite lock_acquire_resume_done by (rewrite V1; discriminate).
    rewrite V1. reflexivity. }
  assert (L2 : locks k2 l = mkLock (Some t) (mkSema 0 [])).
  { unfold k2. cbn [set_sema set_holder modify_thread locks with_locks with_threads].
    unfold upd. rewrite !Nat.eqb_refl. reflexivity. }
  assert (W2 : waiting_lock (threads k2 t) = None).
  { unfold k2. cbn [set_sema set_holder modify_thread threads with_locks with_threads].
    unfold upd. rewrite !Nat.eqb_refl. reflexivity. }
  assert (T2 : forall u, status (threads k2 u) = status (threads k u)
                         /\ priority (threads k2 u) = priority (threads k u)
                         /\ original_priority (threads k2 u) = original_priority (threads k u)).
  { intros u. unfold k2. cbn [set_sema set_holder modify_thread threads with_locks with_threads].
    unfold upd. destruct (Nat.eqb_spec u t); [subst|]; repeat split; reflexivity. }
  assert (S2 : sched k2 = sched k) by reflexivity.
  (* lock_release *)
  set (k2t := with_in_intr false (with_cur t (tick k2))).
  assert (Hheld : holder (locks k2t l) = Some (cur k2t)).
  { change (locks k2t) with (locks k2). now rewrite L2. }
  destruct (lock_release_ok l k2t Hheld) as (kr & k3 & Hrel & Hup & Hrun).
  destruct (sema_up_ok (LockSema l) kr) as (k3' & Hup' & Hpost).
  rewrite Hup in Hup'. inv_ok Hup'.
  assert (Vr : get_sema kr (LockSema l) = mkSema 0 []).
  { rewrite (rs_sema _ _ _ Hrel). cbn [get_sema]. change (locks k2t) with (locks k2).
    now rewrite L2. }
  rewrite (highest_waiter_none kr (LockSema l)) in Hpost by now rewrite Vr.
  destruct Hpost as [Hsema3 _ Hhold3 _ _ _ Hthr3 Hsched3].
  rewrite Vr in Hsema3. cbn [value waiters] in Hsema3. rewrite wrap32_one in Hsema3.
  change (cur k2t) with t in Hrun.
  change (threads k2t t) with (threads k2 t) in Hrun.
  rewrite (proj1 (proj2 (T2 t))), (proj2 (proj2 (T2 t))) in Hrun.
  set (yields := original_priority (threads k t) <? priority (threads k t)) in *.
  set (k4 := if yields then with_sched (sched k3' ++ [EvYield t]) k3' else k3') in *.
  assert (E3 : step (by_thread t (CallLockRelease l)) k2 = Ok (RetUnit, k4)).
  { rewrite step_eq. cbn [act_call act_thread act_intr by_thread exec]. fold k2t.
    unfold bind. now rewrite Hrun. }
  assert (L3 : locks k3' l = mkLock None (mkSema 1 [])).
  { apply lock_eq; [|exact Hsema3].
    rewrite Hhold3, (rs_holder _ _ _ Hrel). now rewrite Nat.eqb_refl. }
  assert (T3 : forall u, status (threads k3' u) = status (threads k u)).
  { intros u. rewrite Hthr3. cbn [wake]. rewrite (rs_threads _ _ _ Hrel).
    change (cur k2t) with t. change (threads k2t) with (threads k2).
    destruct (Nat.eqb_spec u t); [subst; cbn [status]|]; apply T2. }
  assert (S3 : sched k3' = sched k).
  { rewrite Hsched3, (rs_sched _ _ _ Hrel), app_nil_r. exact S2. }
  cbn [firstn]. rewrite !run_cons, E1, !run_cons, E2, !run_cons, E3.
  cbn [run fst snd map].
  split; [reflexivity|]. split; [exact L1|]. split; [exact L2|]. split; [exact W2|].
  unfold k4. destruct yields; cbn [locks threads sched with_sched];
    rewrite ?S3, ?app_nil_r; repeat split; auto.
Qed.

(** ** Locks: donors, the priority after a release, and the hand-over *)

Lemma list_insert_ordered_priority_split k ds e :
  exists before after,
    ds = before ++ after /\
    list_insert_ordered (priority_less_func k) ds e = Ok (before ++ e :: after).
Proof.
  induction ds as [|d ds IH].
  - exists [], []. split; reflexivity.
  - cbn [list_insert_ordered]. unfold priority_less_func at 1.
    destruct (priority (threads k d) <? priority (threads k e)).
    + exists [], (d :: ds). split; reflexivity.
    + destruct IH as (before & after & -> & Hins).
      exists (d :: before), after. rewrite Hins. split; reflexivity.
Qed.

Lemma lock_acquire_held l k hd :
  in_intr k = false -> holder (locks k l) = Some hd -> hd <> cur k ->
  exists ds',
    list_insert_ordered
      (priority_less_func (modify_thread (cur k) (set_waiting_lock (Some l)) k))
      (donations (threads k hd)) (cur k) = Ok ds' /\
    lock_acquire l k
    = lock_acquire_resume l
        (modify_thread hd (set_donations ds')
           (modify_thread (cur k) (set_waiting_lock (Some l)) k)).
Proof.
  intros Hi Hh Hne.
  set (k1 := modify_thread (cur k) (set_waiting_lock (Some l)) k).
  destruct (list_insert_ordered_priority_ok k1 (donations (threads k hd)) (cur k))
    as (ds' & Hins).
  exists ds'. split; [exact Hins|].
  unfold lock_acquire, lock_acquire_resume, sema_down_resume, bind, intr_context, gets.
  rewrite Hi. cbn [negb ASSERT ret]. rewrite lock_held_by_current_thread_eq, Hh.
  destruct (Nat.eqb_spec hd (cur k)); [contradiction|].
  cbn [negb ASSERT ret]. unfold thread_current, gets. rewrite Hh.
  unfold modify, lift. cbn beta iota. fold k1.
  assert (Hds : donations (threads k1 hd) = donations (threads k hd)).
  { unfold k1. rewrite threads_modify_thread.
    destruct (Nat.eqb_spec hd (cur k)); [contradiction | reflexivity]. }
  rewrite Hds, Hins.
  now rewrite sema_down_thread_context.
Qed.

(** X7.  [lock_acquire] on a lock that another thread holds.  The caller
    records the lock in its [waiting_lock], enters the donation list of the
    holder, whose other donors keep their places relative to each other, and
    is suspended at the back of the waiter list of the lock.  The lock keeps
    its holder and its value; no other donation list and no other
    [waiting_lock] changes. *)
Theorem lock_acquire_on_held_lock_queues_donor (l : lock_id) (hd : tid) (k : kernel) :
  in_intr k = false ->
  holder (locks k l) = Some hd ->
  hd <> cur k ->
  lock_value k l = 0 ->
  exists k' before after,
    lock_acquire l k = Ok (Blocked, k') /\
    donations (threads k hd) = before ++ after /\
    donations (threads k' hd) = before ++ cur k :: after /\
    waiting_lock (threads k' (cur k)) = Some l /\
    status (threads k' (cur k)) = THREAD_BLOCKED /\
    waiters (get_sema k' (LockSema l)) = waiters (get_sema k (LockSema l)) ++ [cur k] /\
    holder (locks k' l) = Some hd /\
    lock_value k' l = 0 /\
    (forall t, t <> hd -> donations (threads k' t) = donations (threads k t)) /\
    (forall t, t <> cur k -> waiting_lock (threads k' t) = waiting_lock (threads k t)) /\
    sched k' = sched k ++ [EvBlock (cur k)].
Proof.
  intros Hi Hh Hne Hv.
  destruct (lock_acquire_held l k hd Hi Hh Hne) as (ds' & Hins & Hrun).
  set (k1 := modify_thread (cur k) (set_waiting_lock (Some l)) k) in *.
  destruct (list_insert_ordered_priority_split k1 (donations (threads k hd)) (cur k))
    as (before & after & Hds & Hins').
  rewrite Hins in Hins'. inv_ok Hins'.
  set (kb := modify_thread hd (set_donations (before ++ cur k :: after)) k1) in *.
  assert (Hsema : get_sema kb (LockSema l) = get_sema k (LockSema l)).
  { unfold kb, k1. now autorewrite with kern. }
  destruct (lock_acquire_resume_blocked l kb) as (k' & Hres & Hb).
  { rewrite Hsema. exact Hv. }
  exists k', before, after. rewrite Hrun.
  destruct Hb as [Bsema _ Bhold _ _ _ Bsched Bstat Bdon Bwait _ _].
  change (cur kb) with (cur k) in *.
  split; [exact Hres|]. split; [exact Hds|].
  split.
  { rewrite Bdon. unfold kb. rewrite threads_modify_thread, Nat.eqb_refl. reflexivity. }
  split.
  { rewrite Bwait. unfold kb, k1. rewrite !threads_modify_thread.
    destruct (Nat.eqb_spec (cur k) hd); [congruence|]. now rewrite Nat.eqb_refl. }
  split; [rewrite Bstat; now rewrite Nat.eqb_refl|].
  split; [rewrite Bsema, Hsema; reflexivity|].
  split; [rewrite Bhold; exact Hh|].
  split; [unfold lock_value; rewrite Bsema, Hsema; exact Hv|].
  split.
  { intros t Ht. rewrite Bdon. unfold kb, k1. rewrite !threads_modify_thread.
    destruct (Nat.eqb_spec t hd); [contradiction|].
    destruct (Nat.eqb_spec t (cur k)); [subst|]; reflexivity. }
  split; [|exact Bsched].
  intros t Ht. rewrite Bwait. unfold kb, k1. rewrite !threads_modify_thread.
  destruct (Nat.eqb_spec t hd) as [->|_].
  - cbn [waiting_lock set_donations].
    destruct (Nat.eqb_spec hd (cur k)); [contradiction | reflexivity].
  - destruct (Nat.eqb_spec t (cur k)); [contradiction | reflexivity].
Qed.

Lemma lock_acquire_on_held_lock_queues_donor_witness :
  exists k',
    lock_acquire 1 kernel_one_donor = Ok (Blocked, k') /\
    waiting_lock (threads k' 2%nat) = Some 1%nat /\
    holder (locks k' 1%nat) = Some 0%nat.
Proof.
  destruct (lock_acquire_on_held_lock_queues_donor 1%nat 0%nat kernel_one_donor)
    as (k' & before & after & Hrun & _ & _ & Hw & _ & _ & Hh & _);
    [reflexivity | reflexivity | discriminate | reflexivity |].
  exists k'. split; [exact Hrun|]. split; [exact Hw | exact Hh].
Defined.

Lemma released_priority_above_base k l :
  original_priority (threads k (cur k)) <= released_priority k l.
Proof.
  unfold released_priority. destruct (list_front (remaining_donors k l)); [|lia].
  destruct (_ <? _) eqn:E; [|lia]. apply Z.ltb_lt in E. lia.
Qed.

(** X8.  The priority after [lock_release].  The base priority of the
    releasing thread is untouched and its effective priority is never left
    below it; no other thread changes its priority.  When no donor remains in
    the donation list, in particular when every donor waited for the released
    lock, the effective priority is back at the base priority and the
    donation list is empty. *)
Theorem lock_release_priority_bounds (l : lock_id) (k : kernel) :
  holder (locks k l) = Some (cur k) ->
  exists k',
    lock_release l k = Ok (tt, k') /\
    original_priority (threads k' (cur k)) = original_priority (threads k (cur k)) /\
    original_priority (threads k (cur k)) <= priority (threads k' (cur k)) /\
    (forall t, t <> cur k -> priority (threads k' t) = priority (threads k t)) /\
    (remaining_donors k l = [] ->
     priority (threads k' (cur k)) = original_priority (threads k (cur k))) /\
    ((forall t, In t (donations (threads k (cur k))) -> waiting_lock (threads k t) = Some l) ->
     priority (threads k' (cur k)) = original_priority (threads k (cur k)) /\
     donations (threads k' (cur k)) = []).
Proof.
  intros Hheld.
  destruct (lock_release_threads l k Hheld)
    as (k' & Hrun & _ & _ & Hp & Hd & Hpo & _ & _ & Ho & _).
  exists k'. split; [exact Hrun|]. split; [apply Ho|].
  split; [rewrite Hp; apply released_priority_above_base|].
  split; [exact Hpo|].
  assert (Hempty : remaining_donors k l = [] ->
                   priority (threads k' (cur k)) = original_priority (threads k (cur k))).
  { intros E. rewrite Hp. unfold released_priority. now rewrite E. }
  split; [exact Hempty|].
  intros Hall.
  assert (E : remaining_donors k l = []).
  { rewrite remaining_donors_filter.
    induction (donations (threads k (cur k))) as [|d ds IH]; [reflexivity|].
    cbn [filter]. rewrite (proj2 (waits_for_true k l d)) by (apply Hall; now left).
    cbn [negb]. apply IH. intros t Ht. apply Hall. now right. }
  split; [now apply Hempty | now rewrite Hd].
Qed.

Lemma lock_release_priority_bounds_witness :
  exists k',
    lock_release 0 kernel_lock_contended = Ok (tt, k') /\
    priority (threads k' 1%nat) = 20 /\
    donations (threads k' 1%nat) = [].
Proof.
  destruct (lock_release_priority_bounds 0%nat kernel_lock_contended)
    as (k' & Hrun & _ & _ & _ & _ & Hall); [reflexivity|].
  exists k'. split; [exact Hrun|]. apply Hall.
  intros t Ht. vm_compute in Ht. destruct Ht as [<-|[]]. reflexivity.
Defined.

(** X9.  When the donor at the front of the remaining donation list has the
    highest priority of the list, [lock_release] leaves the releasing thread
    at the maximum of its base priority and the highest priority among the
    remaining donors. *)
Theorem lock_release_priority_when_front_is_highest
  (l : lock_id) (d : tid) (ds : list tid) (k : kernel) :
  holder (locks k l) = Some (cur k) ->
  remaining_donors k l = d :: ds ->
  d <> cur k ->
  (forall x, In x ds -> prio k x <= prio k d) ->
  exists k',
    lock_release l k = Ok (tt, k') /\
    donations (threads k' (cur k)) = d :: ds /\
    highest_priority k (d :: ds) = Some (prio k d) /\
    priority (threads k' (cur k))
    = Z.max (original_priority (threads k (cur k))) (prio k d).
Proof.
  intros Hheld Hrem Hd Hmax.
  destruct (lock_release_threads l k Hheld) as (k' & Hrun & _ & _ & Hp & Hdon & _).
  destruct (released_priority_when_front_highest k l d ds Hrem Hd Hmax) as (Hh & Hr).
  exists k'. split; [exact Hrun|]. split; [now rewrite Hdon|].
  split; [now rewrite <- Hrem|]. now rewrite Hp.
Qed.

Lemma lock_release_priority_when_front_is_highest_witness :
  exists k',
    lock_release 0 kernel_two_locks_two_donors = Ok (tt, k') /\
    donations (threads k' 0%nat) = [2%nat] /\
    priority (threads k' 0%nat) = 30.
Proof.
  destruct (lock_release_priority_when_front_is_highest 0%nat 2%nat [] kernel_two_locks_two_donors)
    as (k' & Hrun & Hd & _ & Hp);
    [reflexivity | reflexivity | discriminate | intros x [] |].
  exists k'. split; [exact Hrun|]. split; [exact Hd | exact Hp].
Defined.

(** X10.  The hand-over of a lock.  [lock_release] of a lock with waiters
    wakes the waiter of the highest priority, takes it off the waiter list
    and leaves the lock without holder and with value 1; that waiter, going
    on in its [lock_acquire], becomes the holder, waits for no lock, and the
    value is 0 again.  The waiters that were not woken stay on the list. *)
Theorem lock_release_hands_over_to_highest_waiter (l : lock_id) (k : kernel) :
  holder (locks k l) = Some (cur k) ->
  lock_value k l = 0 ->
  waiters (get_sema k (LockSema l)) <> [] ->
  ~ In (cur k) (waiters (get_sema k (LockSema l))) ->
  exists w k' k2,
    lock_release l k = Ok (tt, k') /\
    In w (waiters (get_sema k (LockSema l))) /\
    (forall t, In t (waiters (get_sema k (LockSema l))) -> prio k t <= prio k w) /\
    status (threads k' w) = THREAD_READY /\
    holder (locks k' l) = None /\
    get_sema k' (LockSema l)
    = mkSema 1 (list_remove w (waiters (get_sema k (LockSema l)))) /\
    lock_acquire_resume l (with_cur w k') = Ok (Done, k2) /\
    holder (locks k2 l) = Some w /\
    waiting_lock (threads k2 w) = None /\
    get_sema k2 (LockSema l)
    = mkSema 0 (list_remove w (waiters (get_sema k (LockSema l)))).
Proof.
  intros Hheld Hv Hne Hnin.
  destruct (lock_release_ok l k Hheld) as (kr & k3 & Hrel & Hup & Hrun).
  assert (Vr : get_sema kr (LockSema l) = get_sema k (LockSema l))
    by apply (rs_sema _ _ _ Hrel).
  destruct (list_max_priority kr (waiters (get_sema k (LockSema l))) Hne)
    as (w & Hmax & Hin & Hle).
  assert (Hw : highest_waiter kr (LockSema l) = Some w).
  { unfold highest_waiter. now rewrite Vr, Hmax. }
  assert (Hprio : forall t, In t (waiters (get_sema k (LockSema l))) -> prio kr t = prio k t).
  { intros t Ht. unfold prio. rewrite (rs_threads _ _ _ Hrel).
    destruct (Nat.eqb_spec t (cur k)); [subst; contradiction | reflexivity]. }
  destruct (sema_up_ok (LockSema l) kr) as (k3' & Hup' & Hpost).
  rewrite Hup in Hup'. inv_ok Hup'. rewrite Hw in Hpost.
  destruct Hpost as [Hsema3 _ Hhold3 _ _ _ Hthr3 _].
  rewrite Vr in Hsema3. unfold lock_value in Hv. rewrite Hv, wrap32_one in Hsema3.
  set (k' := if original_priority (threads k (cur k)) <? priority (threads k (cur k))
             then with_sched (sched k3' ++ [EvYield (cur k)]) k3' else k3') in *.
  assert (Eth : threads k' = threads k3') by (unfold k'; now destruct (_ <? _)).
  assert (Elk : locks k' = locks k3') by (unfold k'; now destruct (_ <? _)).
  assert (Esema : get_sema (with_cur w k') (LockSema l)
                  = mkSema 1 (list_remove w (waiters (get_sema k (LockSema l))))).
  { cbn [get_sema locks with_cur]. rewrite Elk. exact Hsema3. }
  exists w, k'. eexists.
  split; [exact Hrun|]. split; [exact Hin|].
  split; [intros t Ht; rewrite <- (Hprio t Ht), <- (Hprio w Hin); now apply Hle|].
  split; [rewrite Eth, Hthr3; cbn [wake]; now rewrite Nat.eqb_refl|].
  split; [rewrite Elk, Hhold3, (rs_holder _ _ _ Hrel); now rewrite Nat.eqb_refl|].
  split; [exact Esema|].
  split; [apply lock_acquire_resume_done; rewrite Esema; discriminate|].
  rewrite Esema. cbn [value waiters cur with_cur].
  split; [rewrite holder_set_holder; now rewrite Nat.eqb_refl|].
  split.
  { cbn [set_holder threads with_locks]. rewrite threads_modify_thread.
    now rewrite Nat.eqb_refl. }
  autorewrite with kern. reflexivity.
Qed.

Lemma lock_release_hands_over_to_highest_waiter_witness :
  exists w k' k2,
    lock_release 0 kernel_lock_contended = Ok (tt, k') /\
    In w [2%nat] /\
    lock_acquire_resume 0 (with_cur w k') = Ok (Done, k2) /\
    holder (locks k2 0%nat) = Some w.
Proof.
  destruct (lock_release_hands_over_to_highest_waiter 0%nat kernel_lock_contended)
    as (w & k' & k2 & Hrun & Hin & _ & _ & _ & _ & Hres & Hh & _);
    [reflexivity | reflexivity | discriminate | vm_compute; intros [H|[]]; discriminate |].
  exists w, k', k2. split; [exact Hrun|]. split; [exact Hin|]. split; [exact Hres | exact Hh].
Defined.

(** ** Condition variables: no waiter, one waiter, the woken waiter *)

Lemma cond_signal_no_waiters c l k :
  in_intr k = false -> holder (locks k l) = Some (cur k) ->
  cond_waiters (conds k c) = [] ->
  cond_signal c l k = Ok (tt, k).
Proof.
  intros Hi Hh Hw. unfold cond_signal, bind, intr_context, gets.
  rewrite Hi. cbn [negb ASSERT ret].
  rewrite lock_held_by_current_thread_eq, Hh, Nat.eqb_refl. cbn [ASSERT ret].
  now rewrite Hw.
Qed.

(** X11.  A condition from its initialisation.  Whatever its memory held
    before, after [cond_init] the condition has no waiter and nothing else
    has changed; [cond_signal] and [cond_broadcast] on it leave the state as
    it is and wake no thread; the first [cond_wait] makes the caller's
    semaphore the only element of the waiter list. *)
Theorem cond_init_leaves_no_waiter (c : cond_id) (l : lock_id) (k : kernel) :
  exists k0,
    cond_init c k = Ok (tt, k0) /\
    cond_waiters (conds k0 c) = [] /\
    (forall c', c' <> c -> conds k0 c' = conds k c') /\
    threads k0 = threads k /\ locks k0 = locks k /\ semas k0 = semas k /\
    waiter_frames k0 = waiter_frames k /\ sched k0 = sched k /\
    cond_broadcast c l k0 = Ok (tt, k0) /\
    (in_intr k = false -> holder (locks k l) = Some (cur k) ->
     cond_signal c l k0 = Ok (tt, k0) /\
     exists k1, cond_wait c l k0 = Ok (CW_DOWN, k1)
                /\ cond_waiters (conds k1 c) = [cur k]).
Proof.
  eexists. split; [reflexivity|].
  set (k0 := with_conds (upd (conds k) c (mkCond [])) k).
  assert (Hw : cond_waiters (conds k0 c) = []).
  { unfold k0. cbn [conds with_conds]. now rewrite upd_same. }
  split; [exact Hw|].
  split; [intros c' Hc'; unfold k0; cbn [conds with_conds]; now rewrite upd_other|].
  repeat (split; [reflexivity|]).
  split; [now apply cond_broadcast_no_waiters|].
  intros Hi Hh. split; [now apply cond_signal_no_waiters|].
  destruct (cond_wait_ok c l k0 Hi Hh) as (k1 & evs & Hrun & Hws & _).
  exists k1. split; [exact Hrun|]. rewrite Hws, Hw. reflexivity.
Qed.

Lemma cond_init_leaves_no_waiter_witness :
  exists k0,
    cond_init 0 kernel_two_cond_waiters = Ok (tt, k0) /\
    cond_waiters (conds kernel_two_cond_waiters 0%nat) = [1; 2]%nat /\
    cond_waiters (conds k0 0%nat) = [] /\
    cond_signal 0 0 k0 = Ok (tt, k0).
Proof.
  destruct (cond_init_leaves_no_waiter 0%nat 0%nat kernel_two_cond_waiters)
    as (k0 & Hrun & Hw & _ & _ & _ & _ & _ & _ & _ & Hsig).
  exists k0. split; [exact Hrun|]. split; [vm_compute; reflexivity|].
  split; [exact Hw|]. apply Hsig; vm_compute; reflexivity.
Defined.

(** X12.  [cond_broadcast] has no assertion of its own.  On a condition
    without waiters it returns with the state unchanged, whether or not the
    caller holds the lock and also inside an interrupt handler; on a
    condition with waiters the assertions of the first [cond_signal] stop the
    kernel when the caller is in an interrupt handler or does not hold the
    lock. *)
Theorem cond_broadcast_checks_caller_only_with_waiters
  (c : cond_id) (l : lock_id) (k : kernel) :
  (cond_waiters (conds k c) = [] -> cond_broadcast c l k = Ok (tt, k)) /\
  (cond_waiters (conds k c) <> [] ->
   in_intr k = true \/ holder (locks k l) <> Some (cur k) ->
   cond_broadcast c l k = Fail AssertFail).
Proof.
  split; [apply cond_broadcast_no_waiters|].
  intros Hne Hbad.
  assert (Hsig : cond_signal c l k = Fail AssertFail).
  { unfold cond_signal, bind, intr_context, gets.
    destruct (in_intr k) eqn:Hi; cbn [negb ASSERT ret fail]; [reflexivity|].
    destruct Hbad as [Hb|Hb]; [discriminate|].
    rewrite lock_held_by_current_thread_eq.
    destruct (holder (locks k l)) as [h|]; [|reflexivity].
    destruct (Nat.eqb_spec h (cur k)); [subst; now elim Hb | reflexivity]. }
  unfold cond_broadcast, bind, gets.
  destruct (cond_waiters (conds k c)) as [|x ws] eqn:E; [now elim Hne|].
  cbn [length cond_broadcast_loop]. unfold bind, gets. rewrite E.
  cbn [list_empty negb]. now rewrite Hsig.
Qed.

Lemma cond_broadcast_checks_caller_only_with_waiters_witness :
  cond_broadcast 0 0 kernel_init = Ok (tt, kernel_init) /\
  cond_broadcast 0 0 (with_cur 2 kernel_two_cond_waiters) = Fail AssertFail.
Proof.
  split.
  - apply (cond_broadcast_checks_caller_only_with_waiters 0%nat 0%nat kernel_init).
    reflexivity.
  - apply (cond_broadcast_checks_caller_only_with_waiters 0%nat 0%nat
             (with_cur 2 kernel_two_cond_waiters)).
    + vm_compute. discriminate.
    + right. vm_compute. discriminate.
Defined.

(** X13.  A signal that comes before the only waiter sleeps is kept.  When
    the one queued semaphore belongs to a thread that has released the lock
    inside [cond_wait] and has not yet called [sema_down], [cond_signal]
    compares nothing, empties the waiter list and raises that semaphore to 1
    without waking any thread; the [sema_down] of the waiter then returns at
    once instead of suspending it. *)
Theorem cond_signal_before_the_only_waiter_sleeps
  (c : cond_id) (l : lock_id) (e : tid) (k : kernel) :
  in_intr k = false ->
  holder (locks k l) = Some (cur k) ->
  cond_waiters (conds k c) = [e] ->
  waiter_frames k e = mkSema 0 [] ->
  exists k' k2,
    cond_signal c l k = Ok (tt, k') /\
    cond_waiters (conds k' c) = [] /\
    waiter_frames k' e = mkSema 1 [] /\
    (forall t, threads k' t = threads k t) /\
    sched k' = sched k /\
    cond_wait_step l CW_DOWN (with_cur e k') = Ok (Some CW_ACQUIRE, k2) /\
    waiter_frames k2 e = mkSema 0 [] /\
    (forall t, threads k2 t = threads k t) /\
    sched k2 = sched k.
Proof.
  intros Hi Hh Hws Hf.
  set (k0 := set_cond_waiters c (list_remove e [e]) k).
  destruct (sema_up_ok (WaiterSema e) k0) as (k' & Hup & Hpost).
  assert (Hf0 : get_sema k0 (WaiterSema e) = mkSema 0 []) by exact Hf.
  rewrite (highest_waiter_none k0 (WaiterSema e)) in Hpost by now rewrite Hf0.
  destruct Hpost as [Hsema _ _ Hconds _ Hintr Hthr Hsched].
  rewrite Hf0 in Hsema. cbn [value waiters get_sema] in Hsema. rewrite wrap32_one in Hsema.
  rewrite app_nil_r in Hsched. cbn [wake] in Hthr.
  assert (Hrun : cond_signal c l k = Ok (tt, k')).
  { unfold cond_signal, bind, intr_context, gets.
    rewrite Hi. cbn [negb ASSERT ret].
    rewrite lock_held_by_current_thread_eq, Hh, Nat.eqb_refl. cbn [ASSERT ret].
    rewrite Hws. cbn [list_empty negb]. unfold lift, modify.
    cbn [list_max list_max_from]. fold k0. exact Hup. }
  set (k1 := with_cur e k').
  assert (Hf1 : get_sema k1 (WaiterSema e) = mkSema 1 []) by exact Hsema.
  destruct (sema_down_loop_ok (WaiterSema e) k1) as [(Hz & _)|(_ & Hd)];
    [rewrite Hf1 in Hz; discriminate|].
  rewrite Hf1 in Hd. cbn [value waiters] in Hd.
  exists k'. eexists.
  split; [exact Hrun|].
  split; [rewrite Hconds; unfold k0; cbn [conds set_cond_waiters with_conds];
          rewrite upd_same; cbn [cond_waiters]; apply list_remove_single|].
  split; [exact Hsema|]. split; [exact Hthr|]. split; [exact Hsched|].
  split.
  { unfold cond_wait_step, bind, thread_current, gets. fold k1. change (cur k1) with e.
    rewrite sema_down_thread_context by (unfold k1; cbn [in_intr with_cur tick]; now rewrite Hintr).
    rewrite Hd. reflexivity. }
  change (waiter_frames ?s e) with (get_sema s (WaiterSema e)).
  rewrite get_set_sema_same, threads_set_sema, sched_set_sema.
  split; [reflexivity|]. split; [exact Hthr | exact Hsched].
Qed.

Lemma cond_signal_before_the_only_waiter_sleeps_witness :
  exists k' k2,
    cond_signal 0 0 kernel_waiter_not_asleep = Ok (tt, k') /\
    waiter_frames k' 1%nat = mkSema 1 [] /\
    cond_wait_step 0 CW_DOWN (with_cur 1 k') = Ok (Some CW_ACQUIRE, k2).
Proof.
  destruct (cond_signal_before_the_only_waiter_sleeps 0%nat 0%nat 1%nat kernel_waiter_not_asleep)
    as (k' & k2 & Hrun & _ & Hf & _ & _ & Hstep & _);
    [vm_compute; reflexivity | vm_compute; reflexivity | vm_compute; reflexivity
     | vm_compute; reflexivity |].
  exists k', k2. split; [exact Hrun|]. split; [exact Hf | exact Hstep].
Defined.

(** X14.  The signalled waiter goes on.  When every queued semaphore has
    value 0 and its own thread as only waiter (each waiter is suspended in
    the [sema_down] of [cond_wait]), [cond_signal] takes the element of the
    thread of highest priority off the list and makes that thread ready; that
    thread, going on in [sema_down], finds the value 1, takes it and proceeds
    to [lock_acquire].  The other queued semaphores and the other threads are
    as before. *)
Theorem cond_signal_wakes_the_highest_waiter_which_goes_on
  (c : cond_id) (l : lock_id) (k : kernel) :
  in_intr k = false ->
  holder (locks k l) = Some (cur k) ->
  cond_waiters (conds k c) <> [] ->
  (forall e, In e (cond_waiters (conds k c)) -> waiter_frames k e = mkSema 0 [e]) ->
  exists e k' k2,
    cond_signal c l k = Ok (tt, k') /\
    In e (cond_waiters (conds k c)) /\
    (forall e', In e' (cond_waiters (conds k c)) -> prio k e' <= prio k e) /\
    cond_waiters (conds k' c) = list_remove e (cond_waiters (conds k c)) /\
    status (threads k' e) = THREAD_READY /\
    (forall u, u <> e -> threads k' u = threads k u) /\
    cond_wait_step l CW_DOWN_BLOCKED (with_cur e k') = Ok (Some CW_ACQUIRE, k2) /\
    waiter_frames k2 e = mkSema 0 [] /\
    (forall e', e' <> e -> waiter_frames k2 e' = waiter_frames k e') /\
    (forall u, threads k2 u = threads k' u).
Proof.
  intros Hi Hh Hne Hall.
  assert (Hblocked : waiters_blocked k c).
  { intros e He. rewrite (Hall e He). discriminate. }
  assert (Hentry : forall e, In e (cond_waiters (conds k c)) -> entry_prio k e = prio k e).
  { intros e He. unfold entry_prio, entry_thread.
    rewrite (highest_waiter_single k (WaiterSema e) e); [reflexivity|].
    cbn [get_sema]. now rewrite (Hall e He). }
  destruct (cond_signal_ok c l k Hi Hh Hne Hblocked)
    as (e & t & k' & Hrun & Hin & Hmax & _ & Ht & Hpost).
  rewrite (Hall e Hin) in Ht. destruct Ht as [<-|[]].
  set (k0 := set_cond_waiters c (list_remove e (cond_waiters (conds k c))) k) in *.
  destruct Hpost as [Hsema Hother _ Hconds _ Hintr Hthr _].
  assert (Hf0 : get_sema k0 (WaiterSema e) = mkSema 0 [e]) by (apply (Hall e Hin)).
  rewrite Hf0 in Hsema. cbn [value waiters] in Hsema.
  rewrite list_remove_single, wrap32_one in Hsema.
  set (k1 := with_cur e k').
  assert (Hf1 : get_sema k1 (WaiterSema e) = mkSema 1 []) by exact Hsema.
  destruct (sema_down_loop_ok (WaiterSema e) k1) as [(Hz & _)|(_ & Hd)];
    [rewrite Hf1 in Hz; discriminate|].
  rewrite Hf1 in Hd. cbn [value waiters] in Hd.
  exists e, k'. eexists.
  split; [exact Hrun|]. split; [exact Hin|].
  split; [intros e' He'; rewrite <- (Hentry e' He'), <- (Hentry e Hin); now apply Hmax|].
  split; [rewrite Hconds; unfold k0; cbn [conds set_cond_waiters with_conds];
          now rewrite upd_same|].
  split; [rewrite Hthr; cbn [wake]; now rewrite Nat.eqb_refl|].
  split.
  { intros u Hu. rewrite Hthr. cbn [wake].
    destruct (Nat.eqb_spec u e); [contradiction | reflexivity]. }
  split.
  { unfold cond_wait_step, bind, thread_current, gets. fold k1. change (cur k1) with e.
    unfold sema_down_resume. rewrite Hd. reflexivity. }
  split; [change (waiter_frames ?s e) with (get_sema s (WaiterSema e));
          now rewrite get_set_sema_same|].
  split; [|intros u; now rewrite threads_set_sema].
  intros e' He'.
  change (waiter_frames ?s e') with (get_sema s (WaiterSema e')).
  rewrite get_set_sema_other by congruence.
  change (get_sema k1 (WaiterSema e')) with (get_sema k' (WaiterSema e')).
  rewrite Hother by congruence. reflexivity.
Qed.

Lemma cond_signal_wakes_the_highest_waiter_which_goes_on_witness :
  exists e k' k2,
    cond_signal 0 0 kernel_two_cond_waiters = Ok (tt, k') /\
    prio kernel_two_cond_waiters 2%nat <= prio kernel_two_cond_waiters e /\
    cond_wait_step 0 CW_DOWN_BLOCKED (with_cur e k') = Ok (Some CW_ACQUIRE, k2).
Proof.
  destruct (cond_signal_wakes_the_highest_waiter_which_goes_on 0%nat 0%nat kernel_two_cond_waiters)
    as (e & k' & k2 & Hrun & _ & Hmax & _ & _ & _ & Hstep & _).
  - vm_compute. reflexivity.
  - vm_compute. reflexivity.
  - vm_compute. discriminate.
  - intros e He. vm_compute in He. destruct He as [<-|[<-|[]]]; vm_compute; reflexivity.
  - exists e, k', k2. split; [exact Hrun|]. split; [|exact Hstep].
    apply Hmax. vm_compute. auto.
Defined.

(** ** [cond_broadcast]: what it leaves behind *)

Lemma cond_signal_unblocks_at_most_one c l k u k' :
  cond_signal c l k = Ok (u, k') ->
  (length (unblocked (sched k')) <= length (unblocked (sched k)) + 1)%nat /\
  (cond_waiters (conds k c) = [] -> k' = k).
Proof.
  intros H.
  destruct (cond_signal_inv _ _ _ _ _ H) as (_ & _ & [(Hnil & ->)|(e & Hin & _ & Hup)]).
  - split; [lia | reflexivity].
  - split; [|intros E; rewrite E in Hin; contradiction].
    destruct (sema_up_ok (WaiterSema e)
                (set_cond_waiters c (list_remove e (cond_waiters (conds k c))) k))
      as (k1 & Hup1 & Hpost).
    rewrite Hup in Hup1. inv_ok Hup1.
    rewrite (sup_sched _ _ _ _ Hpost). cbn [sched set_cond_waiters with_conds].
    rewrite unblocked_app, length_app.
    destruct (highest_waiter _ _); [|cbn; lia].
    destruct (_ <? _); cbn; lia.
Qed.

Lemma cond_broadcast_loop_returns fuel c l : forall k u k',
  cond_broadcast_loop fuel c l k = Ok (u, k') ->
  cond_waiters (conds k' c) = [] /\
  (length (unblocked (sched k'))
   <= length (unblocked (sched k)) + length (cond_waiters (conds k c)))%nat.
Proof.
  induction fuel as [|fuel IH]; intros k u k'; cbn [cond_broadcast_loop];
    unfold bind, gets;
    destruct (cond_waiters (conds k c)) as [|x ws] eqn:Ews; cbn [list_empty negb].
  - intros H. inv_ok H. split; [exact Ews | lia].
  - discriminate.
  - intros H. inv_ok H. split; [exact Ews | lia].
  - destruct (cond_signal c l k) as [[u1 k1]|] eqn:Hsig; [|discriminate].
    intros H. apply IH in H. destruct H as (Hempty & Hlen).
    split; [exact Hempty|].
    pose proof (cond_signal_shortens _ _ _ _ _ Hsig) as Hs.
    rewrite Ews in Hs. specialize (Hs ltac:(discriminate)).
    destruct (cond_signal_unblocks_at_most_one _ _ _ _ _ Hsig) as (Hone & _).
    cbn [length] in *. unfold tid in *. lia.
Qed.

Lemma cond_broadcast_loop_total c l : forall n k,
  length (cond_waiters (conds k c)) = n ->
  in_intr k = false ->
  holder (locks k l) = Some (cur k) ->
  exists k', cond_broadcast_loop n c l k = Ok (tt, k').
Proof.
  induction n as [|n IH]; intros k Hlen Hintr Hheld;
    cbn [cond_broadcast_loop]; unfold bind at 1, gets;
    destruct (cond_waiters (conds k c)) as [|x ws] eqn:Ews; try discriminate;
    cbn [list_empty negb]; [now exists k|].
  destruct (cond_signal_key_step c l k Hintr Hheld) as
    (e & k1 & Hrun & Hin & _ & Hws1 & _ & _ & _ & _ & _ & _ & Hintr1 & Hheld1);
    [rewrite Ews; discriminate|].
  unfold bind. rewrite Hrun. apply IH; [|exact Hintr1 | exact Hheld1].
  rewrite Hws1. pose proof (list_remove_length e _ Hin) as H.
  rewrite Ews in *. cbn [length] in H, Hlen. unfold tid in *. lia.
Qed.

(** X15.  [cond_broadcast] returns, or stops the kernel at a failed assertion
    of [cond_signal]; it returns when its caller holds the lock and is not in
    an interrupt handler, and when the condition has no waiter.  Whenever it
    returns, the waiter list of the condition is empty, no lock has changed
    its holder, and [thread_unblock] has been called at most once for each
    semaphore that was queued. *)
Theorem cond_broadcast_returns_with_no_waiter
  (c : cond_id) (l : lock_id) (k : kernel) :
  (cond_broadcast c l k = Fail AssertFail
   \/ exists k', cond_broadcast c l k = Ok (tt, k')) /\
  ((in_intr k = false /\ holder (locks k l) = Some (cur k))
   \/ cond_waiters (conds k c) = [] ->
   exists k', cond_broadcast c l k = Ok (tt, k')) /\
  (forall u k',
      cond_broadcast c l k = Ok (u, k') ->
      cond_waiters (conds k' c) = [] /\
      same_holders k k' /\
      (length (unblocked (sched k'))
       <= length (unblocked (sched k)) + length (cond_waiters (conds k c)))%nat).
Proof.
  split; [|split].
  - pose proof (cond_broadcast_enough_fuel c l k) as Hfuel.
    destruct (cond_broadcast c l k) as [[[] k']|[|]]; [right; now exists k' | now left |].
    now contradiction Hfuel.
  - intros [(Hintr & Hheld)|Hnil].
    + unfold cond_broadcast, bind, gets.
      now apply cond_broadcast_loop_total.
    + exists k. now apply cond_broadcast_no_waiters.
  - unfold cond_broadcast, bind, gets. intros u k' H.
    destruct (cond_broadcast_loop_returns _ _ _ _ _ _ H) as (H1 & H2).
    split; [exact H1|]. split; [|exact H2].
    now apply cond_broadcast_loop_same_holders in H.
Qed.

Lemma cond_broadcast_returns_with_no_waiter_witness :
  exists k',
    cond_broadcast 0 0 kernel_early_waiter = Ok (tt, k') /\
    cond_waiters (conds kernel_early_waiter 0%nat) = [0; 2]%nat /\
    cond_waiters (conds k' 0%nat) = [].
Proof.
  destruct (cond_broadcast_returns_with_no_waiter 0%nat 0%nat kernel_early_waiter)
    as (_ & Hreturns & Hpost).
  destruct Hreturns as (k' & E).
  - left. split; vm_compute; reflexivity.
  - exists k'. split; [exact E|]. split; [vm_compute; reflexivity|].
    exact (proj1 (Hpost tt k' E)).
Defined.

(** ** What the calls do to the thread structs

    Every call leaves the base priorities alone, lowers an effective priority
    only in [lock_release] and only to a value that is not below the base
    priority, and blocks no thread but its caller. *)

Lemma thread_frame_same c b k k' :
  (forall t, threads k' t = threads k t) -> thread_frame c b k k'.
Proof.
  intros H. constructor; intros t; rewrite ?H; auto. left. lia.
Qed.

Lemma thread_frame_trans c b1 b2 k k1 k2 :
  thread_frame c b1 k k1 -> thread_frame c b2 k1 k2 -> thread_frame c (b1 || b2) k k2.
Proof.
  intros [O1 P1 S1] [O2 P2 S2]. constructor; intros t.
  - now rewrite O2, O1.
  - specialize (O1 t).
    destruct (P1 t) as [H1|(E1 & H1)], (P2 t) as [H2|(E2 & H2)].
    + left. lia.
    + right. split; [exact E2|]. lia.
    + right. split; [exact E1|]. lia.
    + right. split; [exact E1|]. lia.
  - intros H. destruct (S2 t H) as [H2|(E2 & B2)].
    + destruct (S1 t H2) as [H1|(E1 & B1)]; [now left|].
      right. split; [exact E1|]. rewrite B1. reflexivity.
    + right. split; [exact E2|]. rewrite B2. apply orb_true_r.
Qed.

Lemma thread_frame_weaken c b k k' : thread_frame c false k k' -> thread_frame c b k k'.
Proof.
  intros [O P S]. constructor; auto.
  intros t H. destruct (S t H) as [H1|(_ & H1)]; [now left | discriminate].
Qed.

Lemma thread_frame_from c b k k0 k' :
  (forall t, original_priority (threads k0 t) = original_priority (threads k t)
             /\ priority (threads k0 t) = priority (threads k t)
             /\ status (threads k0 t) = status (threads k t)) ->
  thread_frame c b k0 k' -> thread_frame c b k k'.
Proof.
  intros H [O P S]. constructor; intros t; destruct (H t) as (Ho & Hp & Hs).
  - rewrite <- Ho. apply O.
  - rewrite <- Ho, <- Hp. apply P.
  - rewrite <- Hs. apply S.
Qed.

Lemma same_but_priority_frame c b k k' : same_but_priority k k' -> thread_frame c b k k'.
Proof.
  intros H. constructor; intros t.
  - apply (sbp_original _ _ H).
  - left. apply (sbp_priority _ _ H).
  - rewrite (sbp_status _ _ H). auto.
Qed.

Lemma sema_down_blocked_frame p k k' :
  sema_down_blocked p k k' -> thread_frame (cur k) true k k'.
Proof.
  intros H. constructor; intros t.
  - apply (sdb_original _ _ _ H).
  - left. apply (sdb_priority _ _ _ H).
  - rewrite (sdb_status _ _ _ H).
    destruct (Nat.eqb_spec t (cur k)); [right; now split | now left].
Qed.

Lemma sema_down_loop_frame p k o k' :
  sema_down_loop p k = Ok (o, k') ->
  thread_frame (cur k) (match o with Blocked => true | Done => false end) k k'.
Proof.
  intros H.
  destruct (sema_down_loop_ok p k) as [(_ & k1 & Hd & Hb)|(_ & Hd)];
    rewrite Hd in H; inv_ok H.
  - eapply sema_down_blocked_frame; eassumption.
  - apply thread_frame_same. intros t. now rewrite threads_set_sema.
Qed.

Lemma sema_down_frame p k o k' :
  sema_down p k = Ok (o, k') ->
  thread_frame (cur k) (match o with Blocked => true | Done => false end) k k'.
Proof.
  unfold sema_down, bind, intr_context, gets.
  destruct (in_intr k); cbn [negb ASSERT ret fail]; [discriminate|].
  apply sema_down_loop_frame.
Qed.

Lemma sema_up_frame c p k u k' :
  sema_up p k = Ok (u, k') -> thread_frame c false k k'.
Proof.
  intros H. destruct (sema_up_ok p k) as (k1 & Hup & Hpost).
  rewrite Hup in H. inv_ok H.
  constructor; intros t; rewrite (sup_threads _ _ _ _ Hpost).
  - apply wake_fields.
  - left. rewrite (proj1 (wake_fields _ k t)). lia.
  - unfold wake. destruct (highest_waiter k p) as [w|]; [|now left].
    destruct (Nat.eqb t w); [discriminate | now left].
Qed.

Lemma sema_try_down_frame c p k b k' :
  sema_try_down p k = Ok (b, k') -> thread_frame c false k k'.
Proof.
  intros H. destruct (sema_try_down_inv _ _ _ _ H) as [(_ & _ & ->)|(_ & _ & Hs)].
  - apply thread_frame_same. intros t. now rewrite threads_set_sema.
  - now apply same_but_priority_frame.
Qed.

Lemma lock_acquired_frame c b l s k :
  thread_frame c b k
    (set_holder l (Some (cur k))
       (modify_thread (cur k) (set_waiting_lock None) (set_sema (LockSema l) s k))).
Proof.
  constructor; intros t;
    cbn [set_holder threads with_locks]; rewrite threads_modify_thread, threads_set_sema;
    destruct (Nat.eqb_spec t (cur k)); subst; cbn; auto; left; lia.
Qed.

Lemma lock_acquire_resume_frame l k o k' :
  lock_acquire_resume l k = Ok (o, k') ->
  thread_frame (cur k) (match o with Blocked => true | Done => false end) k k'.
Proof.
  intros H.
  destruct (lock_acquire_resume_inv _ _ _ _ H) as [(-> & _ & Hb)|(-> & _ & ->)].
  - eapply sema_down_blocked_frame; eassumption.
  - apply lock_acquired_frame.
Qed.

Lemma lock_acquire_frame l k o k' :
  lock_acquire l k = Ok (o, k') ->
  thread_frame (cur k) (match o with Blocked => true | Done => false end) k k'.
Proof.
  intros H. destruct (lock_acquire_inv _ _ _ _ H) as (Hi & Hnot & _).
  destruct (holder (locks k l)) as [hd|] eqn:Hh.
  - assert (Hne : hd <> cur k) by congruence.
    destruct (lock_acquire_held l k hd Hi Hh Hne) as (ds' & _ & Hrun).
    rewrite Hrun in H. apply (lock_acquire_resume_frame l) in H.
    eapply thread_frame_from; [|exact H].
    intros t. rewrite !threads_modify_thread.
    destruct (Nat.eqb_spec t hd) as [->|_].
    + destruct (Nat.eqb_spec hd (cur k)); [contradiction|].
      repeat split; reflexivity.
    + destruct (Nat.eqb_spec t (cur k)) as [->|_]; repeat split; reflexivity.
  - rewrite (lock_acquire_free l k Hi Hh) in H. now apply (lock_acquire_resume_frame l).
Qed.

Lemma lock_try_acquire_frame c l k b k' :
  lock_try_acquire l k = Ok (b, k') -> thread_frame c false k k'.
Proof.
  intros H.
  destruct (lock_try_acquire_inv _ _ _ _ H) as (_ & [(_ & _ & ->)|(_ & _ & Hs)]).
  - apply lock_acquired_frame.
  - now apply same_but_priority_frame.
Qed.

Lemma lock_release_frame l k u k' :
  lock_release l k = Ok (u, k') -> thread_frame (cur k) false k k'.
Proof.
  intros H. pose proof (lock_release_inv _ _ _ _ H) as Hheld.
  destruct (lock_release_threads l k Hheld)
    as (k1 & Hrun & _ & _ & Hp & _ & Hpo & _ & _ & Ho & _).
  destruct (lock_release_sched l k Hheld) as (k2 & evs & Hrun2 & _ & _ & Hst).
  rewrite Hrun in H, Hrun2. inv_ok H. inv_ok Hrun2.
  constructor; intros t.
  - apply Ho.
  - destruct (Nat.eqb_spec t (cur k)) as [->|Hne].
    + right. split; [reflexivity|]. rewrite Hp. apply released_priority_above_base.
    + left. rewrite (Hpo t Hne). lia.
  - intros Hb. left. destruct (Hst t) as [E|E]; congruence.
Qed.

Lemma cond_wait_frame c l k pc k' :
  cond_wait c l k = Ok (pc, k') -> thread_frame (cur k) false k k'.
Proof.
  unfold cond_wait, cond_wait_begin, bind, intr_context, gets.
  destruct (in_intr k); cbn [negb ASSERT ret fail]; [discriminate|].
  rewrite lock_held_by_current_thread_eq.
  destruct (match holder (locks k l) with Some t => Nat.eqb t (cur k) | None => false end);
    cbn [ASSERT ret fail]; [|discriminate].
  unfold thread_current, sema_init, gets, modify.
  set (k0 := set_cond_waiters _ _ _).
  destruct (lock_release l k0) as [[u k1]|] eqn:Hrel; [|discriminate].
  intros H. inv_ok H. apply lock_release_frame in Hrel.
  eapply thread_frame_from; [|exact Hrel]. intros t. repeat split; reflexivity.
Qed.

Lemma cond_wait_step_frame l pc k r k' :
  cond_wait_step l pc k = Ok (r, k') ->
  thread_frame (cur k) (suspends (RetPc r)) k k'.
Proof.
  unfold cond_wait_step, bind, thread_current, gets.
  destruct pc.
  - destruct (sema_down (WaiterSema (cur k)) k) as [[o k1]|] eqn:Hd; [|discriminate].
    intros H. inv_ok H. apply sema_down_frame in Hd. now destruct o.
  - unfold sema_down_resume.
    destruct (sema_down_loop (WaiterSema (cur k)) k) as [[o k1]|] eqn:Hd; [|discriminate].
    intros H. inv_ok H. apply sema_down_loop_frame in Hd. now destruct o.
  - destruct (lock_acquire l k) as [[o k1]|] eqn:Ha; [|discriminate].
    intros H. inv_ok H. apply lock_acquire_frame in Ha. now destruct o.
  - destruct (lock_acquire_resume l k) as [[o k1]|] eqn:Ha; [|discriminate].
    intros H. inv_ok H. apply lock_acquire_resume_frame in Ha. now destruct o.
Qed.

Lemma cond_signal_frame t c l k u k' :
  cond_signal c l k = Ok (u, k') -> thread_frame t false k k'.
Proof.
  intros H.
  destruct (cond_signal_inv _ _ _ _ _ H) as (_ & _ & [(_ & ->)|(e & _ & _ & Hup)]).
  - apply thread_frame_same. reflexivity.
  - apply (sema_up_frame t) in Hup.
    eapply thread_frame_from; [|exact Hup]. intros t0. repeat split; reflexivity.
Qed.

Lemma cond_broadcast_loop_frame t fuel c l : forall k u k',
  cond_broadcast_loop fuel c l k = Ok (u, k') -> thread_frame t false k k'.
Proof.
  induction fuel as [|fuel IH]; intros k u k'; cbn [cond_broadcast_loop];
    unfold bind, gets;
    destruct (cond_waiters (conds k c)) as [|x ws]; cbn [list_empty negb];
    try discriminate; try (intros H; inv_ok H; apply thread_frame_same; reflexivity).
  destruct (cond_signal c l k) as [[u1 k1]|] eqn:Hsig; [|discriminate].
  intros H. apply IH in H. apply (cond_signal_frame t) in Hsig.
  exact (thread_frame_trans _ _ _ _ _ _ Hsig H).
Qed.

Lemma step_thread_frame a k r k1 :
  step a k = Ok (r, k1) -> thread_frame (act_thread a) (suspends r) k k1.
Proof.
  rewrite step_eq.
  set (k0 := with_in_intr (act_intr a) (with_cur (act_thread a) (tick k))).
  change (act_thread a) with (cur k0).
  intros H. apply (thread_frame_from _ _ k k0); [intros t; repeat split; reflexivity|].
  revert H. destruct (act_call a); cbn [exec]; unfold bind.
  - unfold sema_init, modify, ret. intros H. inv_ok H.
    apply thread_frame_same. intros t. now rewrite threads_set_sema.
  - destruct (sema_down p k0) as [[o k']|] eqn:E; [|discriminate].
    intros H. inv_ok H. apply sema_down_frame in E. now destruct o.
  - destruct (sema_down_resume p k0) as [[o k']|] eqn:E; [|discriminate].
    intros H. inv_ok H. apply sema_down_loop_frame in E. now destruct o.
  - destruct (sema_try_down p k0) as [[b k']|] eqn:E; [|discriminate].
    intros H. inv_ok H. now apply (sema_try_down_frame (cur k0)) in E.
  - destruct (sema_up p k0) as [[u k']|] eqn:E; [|discriminate].
    intros H. inv_ok H. now apply (sema_up_frame (cur k0)) in E.
  - unfold lock_init, sema_init, bind, modify, ret. intros H. inv_ok H.
    apply thread_frame_same. reflexivity.
  - destruct (lock_acquire l k0) as [[o k']|] eqn:E; [|discriminate].
    intros H. inv_ok H. apply lock_acquire_frame in E. now destruct o.
  - destruct (lock_acquire_resume l k0) as [[o k']|] eqn:E; [|discriminate].
    intros H. inv_ok H. apply lock_acquire_resume_frame in E. now destruct o.
  - destruct (lock_try_acquire l k0) as [[b k']|] eqn:E; [|discriminate].
    intros H. inv_ok H. now apply (lock_try_acquire_frame (cur k0)) in E.
  - destruct (lock_release l k0) as [[u k']|] eqn:E; [|discriminate].
    intros H. inv_ok H. now apply lock_release_frame in E.
  - unfold cond_init, modify, ret. intros H. inv_ok H.
    apply thread_frame_same. reflexivity.
  - destruct (cond_wait c l k0) as [[pc k']|] eqn:E; [|discriminate].
    intros H. inv_ok H. apply thread_frame_weaken. now apply cond_wait_frame in E.
  - destruct (cond_wait_step l pc k0) as [[pc' k']|] eqn:E; [|discriminate].
    intros H. inv_ok H. now apply cond_wait_step_frame in E.
  - destruct (cond_signal c l k0) as [[u k']|] eqn:E; [|discriminate].
    intros H. inv_ok H. now apply (cond_signal_frame (cur k0)) in E.
  - destruct (cond_broadcast c l k0) as [[u k']|] eqn:E; [|discriminate].
    intros H. inv_ok H. unfold cond_broadcast, bind, gets in E.
    now apply (cond_broadcast_loop_frame (cur k0)) in E.
Qed.

(** X16.  A call blocks no thread but its caller.  After any call, a thread
    that is blocked was blocked before or is the caller of a call that
    suspended it; so along any execution a thread that runs none of the
    calls and is ready at the start is ready at the end. *)
Theorem calls_block_only_their_caller (acts : list action) (t : tid) : forall k,
  forallb (run_by_another t) acts = true ->
  status (threads k t) = THREAD_READY ->
  status (threads (snd (run acts k)) t) = THREAD_READY /\
  (forall a r k1 k2 u,
      step a k1 = Ok (r, k2) ->
      status (threads k2 u) = THREAD_BLOCKED ->
      status (threads k1 u) = THREAD_BLOCKED \/ (u = act_thread a /\ suspends r = true)).
Proof.
  intros k Hacts Hready. split.
  - revert k Hacts Hready.
    induction acts as [|a rest IH]; intros k Hacts Hready; [exact Hready|].
    cbn [forallb] in Hacts. apply andb_true_iff in Hacts. destruct Hacts as (Ha & Hrest).
    rewrite run_cons. destruct (step a k) as [[r k1]|] eqn:Hstep; [|exact Hready].
    cbn [snd]. apply IH; [exact Hrest|].
    destruct (status (threads k1 t)) eqn:Hs; [reflexivity|].
    destruct (tf_status _ _ _ _ (step_thread_frame _ _ _ _ Hstep) t Hs) as [Hb|(E & _)].
    + congruence.
    + unfold run_by_another in Ha. subst t. rewrite Nat.eqb_refl in Ha. discriminate.
  - intros a r k1 k2 u Hstep. apply (tf_status _ _ _ _ (step_thread_frame _ _ _ _ Hstep)).
Qed.

Lemma calls_block_only_their_caller_witness :
  status (threads (snd (run handover_scenario kernel_lock_initialised)) 0%nat) = THREAD_READY.
Proof.
  apply (calls_block_only_their_caller handover_scenario 0%nat kernel_lock_initialised).
  - vm_compute. reflexivity.
  - vm_compute. reflexivity.
Defined.

(** X17.  No call writes a base priority, and [lock_release], the only call
    that lowers an effective priority, sets it to the base priority or to a
    higher priority of a donor.  With a donation step that only raises
    priorities, an effective priority that is not below the base priority
    stays so along every execution. *)
Theorem effective_priority_never_below_base (acts : list action) : forall k,
  priorities_above_base k ->
  priorities_above_base (snd (run acts k)) /\
  (forall t, original_priority (threads (snd (run acts k)) t)
             = original_priority (threads k t)).
Proof.
  induction acts as [|a rest IH]; intros k Hinv; [split; [exact Hinv | reflexivity]|].
  rewrite run_cons. destruct (step a k) as [[r k1]|] eqn:Hstep;
    [|split; [exact Hinv | reflexivity]].
  cbn [snd]. pose proof (step_thread_frame _ _ _ _ Hstep) as [O P _].
  assert (Hinv1 : priorities_above_base k1).
  { intros t. rewrite O. specialize (Hinv t).
    destruct (P t) as [H|(_ & H)]; lia. }
  destruct (IH k1 Hinv1) as (H1 & H2). split; [exact H1|].
  intros t. now rewrite H2, O.
Qed.

Lemma effective_priority_never_below_base_witness :
  priorities_above_base (snd (run donation_scenario kernel_init)).
Proof.
  apply (effective_priority_never_below_base donation_scenario kernel_init).
  intros t. cbn. lia.
Defined.

(** ** A semaphore counts *)

Lemma step_sema_down_available p t k :
  value (get_sema k p) <> 0 ->
  step (by_thread t (CallSemaDown p)) k
  = Ok (RetOutcome Done,
        set_sema p (mkSema (wrap32 (value (get_sema k p) - 1)) (waiters (get_sema k p)))
          (with_in_intr false (with_cur t (tick k)))).
Proof.
  intros Hv. rewrite step_eq. cbn [act_call act_thread act_intr by_thread exec].
  set (k0 := with_in_intr false (with_cur t (tick k))).
  assert (H0 : get_sema k0 p = get_sema k p) by (unfold k0; now autorewrite with kern).
  unfold bind. rewrite sema_down_thread_context by reflexivity.
  destruct (sema_down_loop_ok p k0) as [(Hz & _)|(_ & ->)];
    [rewrite H0 in Hz; contradiction|].
  now rewrite H0.
Qed.

Lemma downs_run p ts : forall k,
  Z.of_nat (length ts) <= value (get_sema k p) < UINT_MODULUS ->
  map snd (fst (run (downs_scenario p ts) k)) = map (fun _ => RetOutcome Done) ts /\
  get_sema (snd (run (downs_scenario p ts) k)) p
  = mkSema (value (get_sema k p) - Z.of_nat (length ts)) (waiters (get_sema k p)) /\
  (forall u, threads (snd (run (downs_scenario p ts) k)) u = threads k u) /\
  sched (snd (run (downs_scenario p ts) k)) = sched k.
Proof.
  induction ts as [|t ts IH]; intros k Hv.
  - cbn [downs_scenario map run fst snd length Z.of_nat]. rewrite Z.sub_0_r.
    repeat split. now destruct (get_sema k p).
  - cbn [length] in Hv. rewrite Nat2Z.inj_succ in Hv.
    cbn [downs_scenario map]. fold (downs_scenario p ts).
    rewrite run_cons, step_sema_down_available by lia.
    set (k1 := set_sema p _ _). cbn [fst snd map].
    assert (H1 : get_sema k1 p
                 = mkSema (value (get_sema k p) - 1) (waiters (get_sema k p))).
    { unfold k1. rewrite get_set_sema_same, wrap32_small by lia. reflexivity. }
    destruct (IH k1) as (Hr & Hs & Ht & Hsc).
    { rewrite H1. cbn [value]. lia. }
    rewrite Hr, Hs, H1. cbn [value waiters length]. rewrite Nat2Z.inj_succ.
    split; [reflexivity|]. split; [f_equal; lia|].
    split; [intros u; rewrite Ht; unfold k1; now rewrite threads_set_sema|].
    rewrite Hsc. unfold k1. now rewrite sched_set_sema.
Qed.

(** X18.  A semaphore counts.  After [sema_init] with the value [v], as many
    calls of [sema_down] as [v] return without suspending any thread, whoever
    makes them: each lowers the value by one, no thread struct changes and
    the scheduler is not called.  The call after the last of them finds the
    value 0 and suspends its caller. *)
Theorem sema_init_allows_value_many_downs
  (p : sema_ptr) (v : Z) (ts : list tid) (k : kernel) :
  0 <= v < UINT_MODULUS ->
  Z.of_nat (length ts) <= v ->
  forall k0, sema_init p v k = Ok (tt, k0) ->
  map snd (fst (run (downs_scenario p ts) k0)) = map (fun _ => RetOutcome Done) ts /\
  get_sema (snd (run (downs_scenario p ts) k0)) p = mkSema (v - Z.of_nat (length ts)) [] /\
  (forall u, threads (snd (run (downs_scenario p ts) k0)) u = threads k u) /\
  sched (snd (run (downs_scenario p ts) k0)) = sched k /\
  (Z.of_nat (length ts) = v ->
   forall t, exists k2,
     step (by_thread t (CallSemaDown p)) (snd (run (downs_scenario p ts) k0))
     = Ok (RetOutcome Blocked, k2)
     /\ status (threads k2 t) = THREAD_BLOCKED).
Proof.
  intros Hv Hlen k0 Hinit. unfold sema_init, modify in Hinit. inv_ok Hinit.
  set (k0 := set_sema p (mkSema (wrap32 v) []) k).
  assert (H0 : get_sema k0 p = mkSema v []).
  { unfold k0. now rewrite get_set_sema_same, wrap32_small. }
  destruct (downs_run p ts k0) as (Hr & Hs & Ht & Hsc).
  { rewrite H0. cbn [value]. lia. }
  rewrite H0 in Hs. cbn [value waiters] in Hs.
  split; [exact Hr|]. split; [exact Hs|].
  split; [intros u; rewrite Ht; unfold k0; now rewrite threads_set_sema|].
  split; [rewrite Hsc; unfold k0; now rewrite sched_set_sema|].
  intros Hall t.
  set (kf := snd (run (downs_scenario p ts) k0)) in *.
  set (kt := with_in_intr false (with_cur t (tick kf))).
  assert (Hz : get_sema kt p = mkSema 0 []).
  { unfold kt. autorewrite with kern. rewrite Hs. f_equal. lia. }
  destruct (sema_down_loop_ok p kt) as [(_ & k2 & Hd & Hb)|(Hnz & _)];
    [|rewrite Hz in Hnz; now elim Hnz].
  exists k2. split.
  - rewrite step_eq. cbn [act_call act_thread act_intr by_thread exec]. fold kt.
    unfold bind. rewrite sema_down_thread_context by reflexivity. now rewrite Hd.
  - rewrite (sdb_status _ _ _ Hb). change (cur kt) with t. now rewrite Nat.eqb_refl.
Qed.

Lemma sema_init_allows_value_many_downs_witness :
  map snd (fst (run (downs_scenario (SemaAt 0) [0; 1]%nat)
                    (set_sema (SemaAt 0) (mkSema (wrap32 2) []) kernel_init)))
  = [RetOutcome Done; RetOutcome Done] /\
  get_sema (snd (run (downs_scenario (SemaAt 0) [0; 1]%nat)
                     (set_sema (SemaAt 0) (mkSema (wrap32 2) []) kernel_init))) (SemaAt 0)
  = mkSema 0 [].
Proof.
  destruct (sema_init_allows_value_many_downs (SemaAt 0) 2 [0; 1]%nat kernel_init)
    with (k0 := set_sema (SemaAt 0) (mkSema (wrap32 2) []) kernel_init)
    as (H1 & H2 & _).
  - unfold UINT_MODULUS. lia.
  - simpl. lia.
  - reflexivity.
  - split; [exact H1 | exact H2].
Defined.

(** ** The self-test of the semaphores

    One call of a thread, in terms of the semaphore it names, the other
    semaphores, and the status of the threads. *)

Lemma step_sema_up_no_waiter p t k :
  waiters (get_sema k p) = [] ->
  exists k',
    step (by_thread t (CallSemaUp p)) k = Ok (RetUnit, k') /\
    get_sema k' p = mkSema (wrap32 (value (get_sema k p) + 1)) [] /\
    (forall q, q <> p -> get_sema k' q = get_sema k q) /\
    (forall u, status (threads k' u) = status (threads k u)).
Proof.
  intros Hw. rewrite step_eq. cbn [act_call act_thread act_intr by_thread exec].
  set (k0 := with_in_intr false (with_cur t (tick k))).
  assert (H0 : forall q, get_sema k0 q = get_sema k q)
    by (intros q; unfold k0; now autorewrite with kern).
  destruct (sema_up_ok p k0) as (k' & Hup & Hpost).
  rewrite (highest_waiter_none k0 p) in Hpost by now rewrite H0.
  exists k'. unfold bind. rewrite Hup. split; [reflexivity|].
  destruct Hpost as [Hsema Hother _ _ _ _ Hthr _].
  rewrite H0, Hw in Hsema. split; [exact Hsema|].
  split; [intros q Hq; now rewrite Hother, H0|].
  intros u. now rewrite Hthr.
Qed.

Lemma step_sema_up_one_waiter p t w k :
  waiters (get_sema k p) = [w] ->
  exists k',
    step (by_thread t (CallSemaUp p)) k = Ok (RetUnit, k') /\
    get_sema k' p = mkSema (wrap32 (value (get_sema k p) + 1)) [] /\
    (forall q, q <> p -> get_sema k' q = get_sema k q) /\
    status (threads k' w) = THREAD_READY /\
    (forall u, u <> w -> status (threads k' u) = status (threads k u)).
Proof.
  intros Hw. rewrite step_eq. cbn [act_call act_thread act_intr by_thread exec].
  set (k0 := with_in_intr false (with_cur t (tick k))).
  assert (H0 : forall q, get_sema k0 q = get_sema k q)
    by (intros q; unfold k0; now autorewrite with kern).
  destruct (sema_up_ok p k0) as (k' & Hup & Hpost).
  rewrite (highest_waiter_single k0 p w) in Hpost by now rewrite H0.
  exists k'. unfold bind. rewrite Hup. split; [reflexivity|].
  destruct Hpost as [Hsema Hother _ _ _ _ Hthr _].
  rewrite H0, Hw, list_remove_single in Hsema. split; [exact Hsema|].
  split; [intros q Hq; now rewrite Hother, H0|].
  split.
  - rewrite Hthr. cbn [wake]. now rewrite Nat.eqb_refl.
  - intros u Hu. rewrite Hthr. cbn [wake].
    destruct (Nat.eqb_spec u w); [contradiction | reflexivity].
Qed.

Lemma step_sema_down_blocks p t k :
  value (get_sema k p) = 0 ->
  exists k',
    step (by_thread t (CallSemaDown p)) k = Ok (RetOutcome Blocked, k') /\
    get_sema k' p = mkSema 0 (waiters (get_sema k p) ++ [t]) /\
    (forall q, q <> p -> get_sema k' q = get_sema k q) /\
    status (threads k' t) = THREAD_BLOCKED /\
    (forall u, u <> t -> status (threads k' u) = status (threads k u)).
Proof.
  intros Hv. rewrite step_eq. cbn [act_call act_thread act_intr by_thread exec].
  set (k0 := with_in_intr false (with_cur t (tick k))).
  assert (H0 : forall q, get_sema k0 q = get_sema k q)
    by (intros q; unfold k0; now autorewrite with kern).
  unfold bind. rewrite sema_down_thread_context by reflexivity.
  destruct (sema_down_loop_ok p k0) as [(_ & k' & Hd & Hb)|(Hnz & _)];
    [|rewrite H0 in Hnz; contradiction].
  exists k'. rewrite Hd. split; [reflexivity|].
  destruct Hb as [Hsema Hother _ _ _ _ _ Hstat _ _ _ _].
  change (cur k0) with t in *.
  rewrite H0, Hv in Hsema. split; [exact Hsema|].
  split; [intros q Hq; now rewrite Hother, H0|].
  split.
  - rewrite Hstat. now rewrite Nat.eqb_refl.
  - intros u Hu. rewrite Hstat.
    destruct (Nat.eqb_spec u t); [contradiction | reflexivity].
Qed.

Lemma step_sema_down_returns p t k c :
  c = CallSemaDown p \/ c = CallSemaDownResume p ->
  value (get_sema k p) <> 0 ->
  exists k',
    step (by_thread t c) k = Ok (RetOutcome Done, k') /\
    get_sema k' p = mkSema (wrap32 (value (get_sema k p) - 1)) (waiters (get_sema k p)) /\
    (forall q, q <> p -> get_sema k' q = get_sema k q) /\
    (forall u, status (threads k' u) = status (threads k u)).
Proof.
  intros Hc Hv. rewrite step_eq.
  set (k0 := with_in_intr false (with_cur t (tick k))).
  assert (H0 : forall q, get_sema k0 q = get_sema k q)
    by (intros q; unfold k0; now autorewrite with kern).
  assert (Hd : sema_down_loop p k0
               = Ok (Done, set_sema p (mkSema (wrap32 (value (get_sema k p) - 1))
                                              (waiters (get_sema k p))) k0)).
  { destruct (sema_down_loop_ok p k0) as [(Hz & _)|(_ & ->)];
      [rewrite H0 in Hz; contradiction | now rewrite H0]. }
  eexists. split.
  - destruct Hc as [->| ->]; cbn [act_call act_thread act_intr by_thread exec]; fold k0;
      unfold bind, sema_down_resume; rewrite ?sema_down_thread_context by reflexivity;
      rewrite Hd; reflexivity.
  - split; [apply get_set_sema_same|].
    split; [intros q Hq; rewrite get_set_sema_other by congruence; apply H0|].
    intros u. now rewrite threads_set_sema.
Qed.

Lemma run_programs_cons t rest progs k :
  run_programs (t :: rest) progs k
  = match run_programs [t] progs k with
    | Ok (progs', k') => run_programs rest progs' k'
    | Fail f => Fail f
    end.
Proof.
  cbn [run_programs]. destruct (progs t) as [|c cs]; [reflexivity|].
  destruct (status (threads k t)); [|reflexivity].
  destruct (step (by_thread t c) k) as [[r k']|]; reflexivity.
Qed.

Lemma run_programs_idle t progs k :
  progs t = [] \/ status (threads k t) = THREAD_BLOCKED ->
  run_programs [t] progs k = Ok (progs, k).
Proof.
  intros [H|H]; cbn [run_programs]; rewrite H; [reflexivity|].
  now destruct (progs t).
Qed.

Lemma run_programs_step t c cs r progs k k' :
  progs t = c :: cs -> status (threads k t) = THREAD_READY ->
  step (by_thread t c) k = Ok (r, k') ->
  run_programs [t] progs k = Ok (upd progs t (continue c r cs), k').
Proof. intros Hp Hs Hstep. cbn [run_programs]. now rewrite Hp, Hs, Hstep. Qed.

Lemma wrap32_one_less : wrap32 (1 - 1) = 0.
Proof. reflexivity. Qed.

(** The hypotheses [Hstep], [Hp], [Hq], [Hst] (and [Hw] when a thread was
    woken or suspended) describe the state after the call; [Epm] to [Ebh]
    describe the state before it. *)
Ltac pp_work Epm Eph :=
  unfold remaining_work; rewrite ?upd_same; rewrite ?upd_other by congruence;
  rewrite ?Epm, ?Eph; cbn [continue work sema_self_test_loop sema_test_helper];
  try split; intros; lia.

Ltac pp_after Hothers Epm Eph :=
  split; [|pp_work Epm Eph];
  split; [|intros u Hu1 Hu2; rewrite upd_other by assumption; now apply Hothers];
  rewrite ?upd_same; rewrite ?upd_other by congruence.

Lemma self_test_inv_idle m h s0 s1 progs k t :
  self_test_inv m h s0 s1 progs k ->
  progs t = [] \/ status (threads k t) = THREAD_BLOCKED ->
  exists progs' k',
    run_programs [t] progs k = Ok (progs', k') /\
    self_test_inv m h s0 s1 progs' k' /\
    (remaining_work m h progs' <= remaining_work m h progs)%nat /\
    (progs t <> [] -> status (threads k t) = THREAD_READY ->
     (remaining_work m h progs' < remaining_work m h progs)%nat).
Proof.
  intros Hinv H. exists progs, k. split; [now apply run_programs_idle|].
  split; [exact Hinv|]. split; [lia|].
  intros H1 H2. destruct H as [H|H]; [contradiction | congruence].
Qed.

Lemma self_test_inv_step m h s0 s1 progs k t :
  m <> h -> s0 <> s1 ->
  self_test_inv m h s0 s1 progs k ->
  exists progs' k',
    run_programs [t] progs k = Ok (progs', k') /\
    self_test_inv m h s0 s1 progs' k' /\
    (remaining_work m h progs' <= remaining_work m h progs)%nat /\
    (progs t <> [] -> status (threads k t) = THREAD_READY ->
     (remaining_work m h progs' < remaining_work m h progs)%nat).
Proof.
  intros Hmh Hs Hinv. pose proof Hinv as [Hpp Hothers].
  pose proof (self_test_inv_idle m h s0 s1 progs k t Hinv) as Hidle.
  destruct (Nat.eq_dec t m) as [->|Htm]; [|destruct (Nat.eq_dec t h) as [->|Hth]];
    [| |apply Hidle; left; now apply Hothers].
  - (* the thread of sema_self_test runs *)
    remember (progs m) as pm eqn:Epm. remember (progs h) as ph eqn:Eph.
    remember (get_sema k s0) as v0 eqn:E0. remember (get_sema k s1) as v1 eqn:E1.
    remember (status (threads k m)) as bm eqn:Ebm.
    remember (status (threads k h)) as bh eqn:Ebh.
    destruct Hpp as [i|i|i|i|i|i|i|i|i|i|i|i];
      symmetry in Epm, Eph, E0, E1, Ebm, Ebh;
      try (apply Hidle; right; reflexivity).
    + (* PpStart *)
      destruct i as [|i]; [apply Hidle; left; reflexivity|].
      cbn [sema_self_test_loop] in Epm.
      destruct (step_sema_up_no_waiter s0 m k) as (k' & Hstep & Hp & Hq & Hst);
        [now rewrite E0|].
      eexists. exists k'. split; [eapply run_programs_step; eassumption|].
      pp_after Hothers Epm Eph.
      rewrite Hp, (Hq s1) by congruence. rewrite !Hst, E0, E1, Ebm, Ebh, Eph.
      cbn [continue value]. rewrite wrap32_one. apply PpUpped.
    + (* PpUpped *)
      destruct (step_sema_down_blocks s1 m k) as (k' & Hstep & Hp & Hq & Hw & Hst);
        [now rewrite E1|].
      eexists. exists k'. split; [eapply run_programs_step; eassumption|].
      pp_after Hothers Epm Eph.
      rewrite Hp, (Hq s0) by congruence. rewrite Hw, (Hst h) by congruence.
      rewrite E0, E1, Ebh, Eph. cbn [continue waiters app]. apply PpMainWaitsEarly.
    + (* PpHelperWaits *)
      cbn [sema_self_test_loop] in Epm.
      destruct (step_sema_up_one_waiter s0 m h k) as (k' & Hstep & Hp & Hq & Hw & Hst);
        [now rewrite E0|].
      eexists. exists k'. split; [eapply run_programs_step; eassumption|].
      pp_after Hothers Epm Eph.
      rewrite Hp, (Hq s1) by congruence. rewrite Hw, (Hst m) by congruence.
      rewrite E0, E1, Ebm, Eph. cbn [continue value]. rewrite wrap32_one.
      apply PpHelperWoken.
    + (* PpHelperWoken *)
      destruct (step_sema_down_blocks s1 m k) as (k' & Hstep & Hp & Hq & Hw & Hst);
        [now rewrite E1|].
      eexists. exists k'. split; [eapply run_programs_step; eassumption|].
      pp_after Hothers Epm Eph.
      rewrite Hp, (Hq s0) by congruence. rewrite Hw, (Hst h) by congruence.
      rewrite E0, E1, Ebh, Eph. cbn [continue waiters app].
      apply PpMainWaitsHelperWoken.
    + (* PpHelperDowned *)
      destruct (step_sema_down_blocks s1 m k) as (k' & Hstep & Hp & Hq & Hw & Hst);
        [now rewrite E1|].
      eexists. exists k'. split; [eapply run_programs_step; eassumption|].
      pp_after Hothers Epm Eph.
      rewrite Hp, (Hq s0) by congruence. rewrite Hw, (Hst h) by congruence.
      rewrite E0, E1, Ebh, Eph. cbn [continue waiters app]. apply PpMainWaits.
    + (* PpAnswered *)
      destruct (step_sema_down_returns s1 m k (CallSemaDown s1))
        as (k' & Hstep & Hp & Hq & Hst); [now left | rewrite E1; discriminate|].
      eexists. exists k'. split; [eapply run_programs_step; eassumption|].
      pp_after Hothers Epm Eph.
      rewrite Hp, (Hq s0) by congruence. rewrite !Hst, E0, E1, Ebm, Ebh, Eph.
      cbn [continue value waiters]. rewrite wrap32_one_less. apply PpStart.
    + (* PpMainWoken *)
      destruct (step_sema_down_returns s1 m k (CallSemaDownResume s1))
        as (k' & Hstep & Hp & Hq & Hst); [now right | rewrite E1; discriminate|].
      eexists. exists k'. split; [eapply run_programs_step; eassumption|].
      pp_after Hothers Epm Eph.
      rewrite Hp, (Hq s0) by congruence. rewrite !Hst, E0, E1, Ebm, Ebh, Eph.
      cbn [continue value waiters]. rewrite wrap32_one_less. apply PpStart.
    + (* PpAnsweredHelperWaits *)
      destruct (step_sema_down_returns s1 m k (CallSemaDown s1))
        as (k' & Hstep & Hp & Hq & Hst); [now left | rewrite E1; discriminate|].
      eexists. exists k'. split; [eapply run_programs_step; eassumption|].
      pp_after Hothers Epm Eph.
      rewrite Hp, (Hq s0) by congruence. rewrite !Hst, E0, E1, Ebm, Ebh, Eph.
      cbn [continue value waiters]. rewrite wrap32_one_less. apply PpHelperWaits.
    + (* PpMainWokenHelperWaits *)
      destruct (step_sema_down_returns s1 m k (CallSemaDownResume s1))
        as (k' & Hstep & Hp & Hq & Hst); [now right | rewrite E1; discriminate|].
      eexists. exists k'. split; [eapply run_programs_step; eassumption|].
      pp_after Hothers Epm Eph.
      rewrite Hp, (Hq s0) by congruence. rewrite !Hst, E0, E1, Ebm, Ebh, Eph.
      cbn [continue value waiters]. rewrite wrap32_one_less. apply PpHelperWaits.
  - (* the thread of sema_test_helper runs *)
    remember (progs m) as pm eqn:Epm. remember (progs h) as ph eqn:Eph.
    remember (get_sema k s0) as v0 eqn:E0. remember (get_sema k s1) as v1 eqn:E1.
    remember (status (threads k m)) as bm eqn:Ebm.
    remember (status (threads k h)) as bh eqn:Ebh.
    destruct Hpp as [i|i|i|i|i|i|i|i|i|i|i|i];
      symmetry in Epm, Eph, E0, E1, Ebm, Ebh;
      try (apply Hidle; right; reflexivity).
    + (* PpStart *)
      destruct i as [|i]; [apply Hidle; left; reflexivity|].
      cbn [sema_test_helper] in Eph.
      destruct (step_sema_down_blocks s0 h k) as (k' & Hstep & Hp & Hq & Hw & Hst);
        [now rewrite E0|].
      eexists. exists k'. split; [eapply run_programs_step; eassumption|].
      pp_after Hothers Epm Eph.
      rewrite Hp, (Hq s1) by congruence. rewrite Hw, (Hst m) by congruence.
      rewrite E0, E1, Ebm, Epm. cbn [continue waiters app]. apply PpHelperWaits.
    + (* PpUpped *)
      cbn [sema_test_helper] in Eph.
      destruct (step_sema_down_returns s0 h k (CallSemaDown s0))
        as (k' & Hstep & Hp & Hq & Hst); [now left | rewrite E0; discriminate|].
      eexists. exists k'. split; [eapply run_programs_step; eassumption|].
      pp_after Hothers Epm Eph.
      rewrite Hp, (Hq s1) by congruence. rewrite !Hst, E0, E1, Ebm, Ebh, Epm.
      cbn [continue value waiters]. rewrite wrap32_one_less. apply PpHelperDowned.
    + (* PpHelperWoken *)
      destruct (step_sema_down_returns s0 h k (CallSemaDownResume s0))
        as (k' & Hstep & Hp & Hq & Hst); [now right | rewrite E0; discriminate|].
      eexists. exists k'. split; [eapply run_programs_step; eassumption|].
      pp_after Hothers Epm Eph.
      rewrite Hp, (Hq s1) by congruence. rewrite !Hst, E0, E1, Ebm, Ebh, Epm.
      cbn [continue value waiters]. rewrite wrap32_one_less. apply PpHelperDowned.
    + (* PpMainWaitsEarly *)
      cbn [sema_test_helper] in Eph.
      destruct (step_sema_down_returns s0 h k (CallSemaDown s0))
        as (k' & Hstep & Hp & Hq & Hst); [now left | rewrite E0; discriminate|].
      eexists. exists k'. split; [eapply run_programs_step; eassumption|].
      pp_after Hothers Epm Eph.
      rewrite Hp, (Hq s1) by congruence. rewrite !Hst, E0, E1, Ebm, Ebh, Epm.
      cbn [continue value waiters]. rewrite wrap32_one_less. apply PpMainWaits.
    + (* PpMainWaitsHelperWoken *)
      destruct (step_sema_down_returns s0 h k (CallSemaDownResume s0))
        as (k' & Hstep & Hp & Hq & Hst); [now right | rewrite E0; discriminate|].
      eexists. exists k'. split; [eapply run_programs_step; eassumption|].
      pp_after Hothers Epm Eph.
      rewrite Hp, (Hq s1) by congruence. rewrite !Hst, E0, E1, Ebm, Ebh, Epm.
      cbn [continue value waiters]. rewrite wrap32_one_less. apply PpMainWaits.
    + (* PpHelperDowned *)
      destruct (step_sema_up_no_waiter s1 h k) as (k' & Hstep & Hp & Hq & Hst);
        [now rewrite E1|].
      eexists. exists k'. split; [eapply run_programs_step; eassumption|].
      pp_after Hothers Epm Eph.
      rewrite Hp, (Hq s0) by congruence. rewrite !Hst, E0, E1, Ebm, Ebh, Epm.
      cbn [continue value]. rewrite wrap32_one. apply PpAnswered.
    + (* PpMainWaits *)
      destruct (step_sema_up_one_waiter s1 h m k) as (k' & Hstep & Hp & Hq & Hw & Hst);
        [now rewrite E1|].
      eexists. exists k'. split; [eapply run_programs_step; eassumption|].
      pp_after Hothers Epm Eph.
      rewrite Hp, (Hq s0) by congruence. rewrite Hw, (Hst h) by congruence.
      rewrite E0, E1, Ebh, Epm. cbn [continue value]. rewrite wrap32_one.
      apply PpMainWoken.
    + (* PpAnswered *)
      destruct i as [|i]; [apply Hidle; left; reflexivity|].
      cbn [sema_test_helper] in Eph.
      destruct (step_sema_down_blocks s0 h k) as (k' & Hstep & Hp & Hq & Hw & Hst);
        [now rewrite E0|].
      eexists. exists k'. split; [eapply run_programs_step; eassumption|].
      pp_after Hothers Epm Eph.
      rewrite Hp, (Hq s1) by congruence. rewrite Hw, (Hst m) by congruence.
      rewrite E0, E1, Ebm, Epm. cbn [continue waiters app].
      apply PpAnsweredHelperWaits.
    + (* PpMainWoken *)
      destruct i as [|i]; [apply Hidle; left; reflexivity|].
      cbn [sema_test_helper] in Eph.
      destruct (step_sema_down_blocks s0 h k) as (k' & Hstep & Hp & Hq & Hw & Hst);
        [now rewrite E0|].
      eexists. exists k'. split; [eapply run_programs_step; eassumption|].
      pp_after Hothers Epm Eph.
      rewrite Hp, (Hq s1) by congruence. rewrite Hw, (Hst m) by congruence.
      rewrite E0, E1, Ebm, Epm. cbn [continue waiters app].
      apply PpMainWokenHelperWaits.
Qed.

Lemma sema_self_test_loop_length s0 s1 i :
  length (sema_self_test_loop s0 s1 i) = (2 * i)%nat.
Proof. induction i as [|i IH]; cbn [sema_self_test_loop length]; lia. Qed.

Lemma sema_test_helper_length s0 s1 i :
  length (sema_test_helper s0 s1 i) = (2 * i)%nat.
Proof. induction i as [|i IH]; cbn [sema_test_helper length]; lia. Qed.

Lemma sema_self_test_loop_work s0 s1 i :
  work (sema_self_test_loop s0 s1 i) = (3 * i)%nat.
Proof. induction i as [|i IH]; cbn [sema_self_test_loop work]; lia. Qed.

Lemma sema_test_helper_work s0 s1 i :
  work (sema_test_helper s0 s1 i) = (3 * i)%nat.
Proof. induction i as [|i IH]; cbn [sema_test_helper work]; lia. Qed.

Lemma work_zero prog : work prog = 0%nat -> prog = [].
Proof.
  destruct prog as [|c cs]; [reflexivity|]. cbn [work]. destruct c; lia.
Qed.

(** What every state of the self-test has: the thread of [sema_self_test]
    finishes last; while it has not finished, one of the two threads can
    run; and the two threads are never more than one call apart. *)
Lemma ping_pong_facts m h s0 s1 pm ph v0 v1 bm bh :
  ping_pong m h s0 s1 pm ph v0 v1 bm bh ->
  (pm = [] -> ph = [] /\ v0 = mkSema 0 [] /\ v1 = mkSema 0 []) /\
  (pm <> [] -> bm = THREAD_READY \/ (ph <> [] /\ bh = THREAD_READY)) /\
  (length pm <= length ph + 1)%nat /\ (length ph <= length pm + 1)%nat.
Proof.
  intros H.
  destruct H as [i|i|i|i|i|i|i|i|i|i|i|i];
    (split; [|split; [|cbn [length sema_self_test_loop sema_test_helper];
                        rewrite ?sema_self_test_loop_length, ?sema_test_helper_length; lia]]);
    try (intros E; discriminate E);
    try (intros _; left; reflexivity);
    try (intros _; right; split; [discriminate | reflexivity]).
  destruct i; [intros _; repeat split | intros E; discriminate E].
Qed.

Lemma self_test_inv_init m h s0 s1 n k0 k :
  m <> h -> s0 <> s1 ->
  status (threads k0 m) = THREAD_READY -> status (threads k0 h) = THREAD_READY ->
  sema_self_test_init s0 s1 k0 = Ok (tt, k) ->
  self_test_inv m h s0 s1 (self_test_programs m h s0 s1 n) k.
Proof.
  intros Hmh Hs Hm Hh Hinit.
  unfold sema_self_test_init, sema_init, bind, modify in Hinit. inv_ok Hinit.
  unfold self_test_inv, self_test_programs. split.
  - rewrite upd_same, (upd_other _ h m) by congruence. rewrite upd_same.
    rewrite get_set_sema_same, get_set_sema_other, get_set_sema_same by congruence.
    rewrite !threads_set_sema, Hm, Hh. apply PpStart.
  - intros t Htm Hth. now rewrite !upd_other.
Qed.

Lemma self_test_run m h s0 s1 choices : forall progs k,
  m <> h -> s0 <> s1 ->
  self_test_inv m h s0 s1 progs k ->
  exists progs' k',
    run_programs choices progs k = Ok (progs', k') /\
    self_test_inv m h s0 s1 progs' k' /\
    (remaining_work m h progs' <= remaining_work m h progs)%nat.
Proof.
  induction choices as [|t rest IH]; intros progs k Hmh Hs Hinv.
  - exists progs, k. split; [reflexivity|]. split; [exact Hinv | lia].
  - destruct (self_test_inv_step m h s0 s1 progs k t Hmh Hs Hinv)
      as (progs1 & k1 & Hrun1 & Hinv1 & Hle1 & _).
    destruct (IH progs1 k1 Hmh Hs Hinv1) as (progs2 & k2 & Hrun2 & Hinv2 & Hle2).
    exists progs2, k2. rewrite run_programs_cons, Hrun1.
    split; [exact Hrun2|]. split; [exact Hinv2 | lia].
Qed.

(** One turn of each thread does some of the work that is left. *)
Lemma self_test_round m h s0 s1 progs k :
  m <> h -> s0 <> s1 ->
  self_test_inv m h s0 s1 progs k ->
  exists progs' k',
    run_programs [m; h] progs k = Ok (progs', k') /\
    self_test_inv m h s0 s1 progs' k' /\
    (remaining_work m h progs' <= remaining_work m h progs - 1)%nat.
Proof.
  intros Hmh Hs Hinv.
  destruct (self_test_inv_step m h s0 s1 progs k m Hmh Hs Hinv)
    as (progs1 & k1 & Hrun1 & Hinv1 & Hle1 & Hlt1).
  destruct (self_test_inv_step m h s0 s1 progs1 k1 h Hmh Hs Hinv1)
    as (progs2 & k2 & Hrun2 & Hinv2 & Hle2 & Hlt2).
  exists progs2, k2. rewrite run_programs_cons, Hrun1.
  split; [exact Hrun2|]. split; [exact Hinv2|].
  destruct (progs m) as [|c cs] eqn:Epm.
  - (* the first thread has finished, and so has the second *)
    destruct (ping_pong_facts _ _ _ _ _ _ _ _ _ _ (proj1 Hinv)) as (Hdone & _).
    destruct (Hdone Epm) as (Eph & _).
    unfold remaining_work in *. rewrite Epm, Eph in *. cbn [work] in *. lia.
  - destruct (status (threads k m)) eqn:Ebm.
    + assert ((remaining_work m h progs1 < remaining_work m h progs)%nat)
        by (apply Hlt1; [discriminate | reflexivity]).
      lia.
    + (* the first thread is blocked: the state is as before, and the second can run *)
      assert (Hsame : run_programs [m] progs k = Ok (progs, k))
        by (apply run_programs_idle; now right).
      rewrite Hsame in Hrun1. inv_ok Hrun1.
      destruct (ping_pong_facts _ _ _ _ _ _ _ _ _ _ (proj1 Hinv)) as (_ & Hrunnable & _).
      destruct Hrunnable as [E|(Eph & Ebh)]; [rewrite Epm; discriminate | congruence|].
      assert ((remaining_work m h progs2 < remaining_work m h progs1)%nat)
        by (apply Hlt2; assumption).
      lia.
Qed.

Lemma self_test_round_robin m h s0 s1 : forall rounds progs k,
  m <> h -> s0 <> s1 ->
  self_test_inv m h s0 s1 progs k ->
  (remaining_work m h progs <= rounds)%nat ->
  exists progs' k',
    run_programs (alternate m h rounds) progs k = Ok (progs', k') /\
    self_test_inv m h s0 s1 progs' k' /\
    remaining_work m h progs' = 0%nat.
Proof.
  induction rounds as [|rounds IH]; intros progs k Hmh Hs Hinv Hwork.
  - exists progs, k. split; [reflexivity|]. split; [exact Hinv | lia].
  - destruct (self_test_round m h s0 s1 progs k Hmh Hs Hinv)
      as (progs1 & k1 & Hrun1 & Hinv1 & Hle1).
    destruct (IH progs1 k1 Hmh Hs Hinv1) as (progs2 & k2 & Hrun2 & Hinv2 & Hz); [lia|].
    exists progs2, k2. split; [|split; assumption].
    cbn [alternate]. rewrite run_programs_cons.
    destruct (run_programs [m] progs k) as [[pa ka]|] eqn:Ea.
    + rewrite run_programs_cons.
      rewrite run_programs_cons, Ea in Hrun1. rewrite Hrun1. exact Hrun2.
    + rewrite run_programs_cons, Ea in Hrun1. discriminate.
Qed.

(** X19.  The self-test of the semaphores.  After the two [sema_init] of
    [sema_self_test], let the thread that called it run its loop and the
    thread it created run [sema_test_helper], with any number of passes
    (10 in the code), the scheduler picking at each point any of the threads.
    Whatever the scheduler picks, no call stops the kernel; the two threads
    are never more than one call apart; as long as the thread of
    [sema_self_test] has calls left, it or the helper is ready to make its
    next call, so the test cannot hang; and when that thread has finished,
    the helper has finished too and both semaphores have value 0 and no
    waiter.  If the scheduler gives the two threads the processor in turn,
    six turns for each pass are enough for both to finish. *)
Theorem sema_self_test_ping_pong
  (m h : tid) (s0 s1 : sema_ptr) (n : nat) (k0 k : kernel) :
  m <> h -> s0 <> s1 ->
  status (threads k0 m) = THREAD_READY ->
  status (threads k0 h) = THREAD_READY ->
  sema_self_test_init s0 s1 k0 = Ok (tt, k) ->
  (forall choices, exists progs' k',
      run_programs choices (self_test_programs m h s0 s1 n) k = Ok (progs', k') /\
      (progs' m = [] ->
       progs' h = [] /\ get_sema k' s0 = mkSema 0 [] /\ get_sema k' s1 = mkSema 0 []) /\
      (progs' m <> [] ->
       status (threads k' m) = THREAD_READY
       \/ (progs' h <> [] /\ status (threads k' h) = THREAD_READY)) /\
      (length (progs' m) <= length (progs' h) + 1)%nat /\
      (length (progs' h) <= length (progs' m) + 1)%nat) /\
  (exists progs' k',
      run_programs (alternate m h (6 * n)) (self_test_programs m h s0 s1 n) k
      = Ok (progs', k') /\
      progs' m = [] /\ progs' h = [] /\
      get_sema k' s0 = mkSema 0 [] /\ get_sema k' s1 = mkSema 0 []).
Proof.
  intros Hmh Hs Hm Hh Hinit.
  pose proof (self_test_inv_init m h s0 s1 n k0 k Hmh Hs Hm Hh Hinit) as Hinv.
  split.
  - intros choices.
    destruct (self_test_run m h s0 s1 choices _ _ Hmh Hs Hinv)
      as (progs' & k' & Hrun & Hinv' & _).
    exists progs', k'. split; [exact Hrun|].
    exact (ping_pong_facts _ _ _ _ _ _ _ _ _ _ (proj1 Hinv')).
  - destruct (self_test_round_robin m h s0 s1 (6 * n) _ _ Hmh Hs Hinv)
      as (progs' & k' & Hrun & Hinv' & Hz).
    { unfold remaining_work, self_test_programs.
      rewrite upd_same, (upd_other _ h m) by congruence. rewrite upd_same.
      rewrite sema_self_test_loop_work, sema_test_helper_work. lia. }
    exists progs', k'. split; [exact Hrun|].
    unfold remaining_work in Hz.
    assert (Em : progs' m = []) by (apply work_zero; lia).
    split; [exact Em|].
    exact (proj1 (ping_pong_facts _ _ _ _ _ _ _ _ _ _ (proj1 Hinv')) Em).
Qed.

Lemma sema_self_test_ping_pong_witness :
  exists progs' k',
    run_programs (alternate 0 1 (6 * SELF_TEST_PASSES))
      (self_test_programs 0 1 (SemaAt 0) (SemaAt 1) SELF_TEST_PASSES)
      (set_sema (SemaAt 1) (mkSema (wrap32 0) [])
         (set_sema (SemaAt 0) (mkSema (wrap32 0) []) kernel_init))
    = Ok (progs', k') /\
    progs' 0%nat = [] /\ progs' 1%nat = [].
Proof.
  destruct (sema_self_test_ping_pong 0%nat 1%nat (SemaAt 0) (SemaAt 1) SELF_TEST_PASSES
              kernel_init
              (set_sema (SemaAt 1) (mkSema (wrap32 0) [])
                 (set_sema (SemaAt 0) (mkSema (wrap32 0) []) kernel_init)))
    as (_ & progs' & k' & Hrun & Hm & Hh & _);
    [discriminate | discriminate | reflexivity | reflexivity | reflexivity |].
  exists progs', k'. split; [exact Hrun|]. split; [exact Hm | exact Hh].
Defined.
